(** * Linear-programming inverse reinforcement learning

    A shallow embedding of [lp_irl.py] (the LP construction, the solver call
    and the reward extraction) and of [solve_bellman_equation] from
    [mdp/markov_reward_process.py].

    Numbers: the program computes on float64; the embedding computes on the
    rationals [Q], i.e. on exact arithmetic.  The one place where the program
    can leave the finite numbers by itself is the division of [normalize]; its
    result type [xnum] has the IEEE outcomes of a division by zero.

    Arrays: a 2-d [numpy] array is a record of its shape and its rows; the
    shape is kept explicitly because the program starts from arrays of shape
    [0 x n], whose column count cannot be read off the rows.

    External code: [numpy.linalg.inv], [scipy.optimize.linprog] and the
    memory contents returned by [numpy.empty] are parameters. *)

From Stdlib Require Import QArith Qpower Qminmax Lqa Lia.
From stdpp Require Import base option list gmap strings.

(** ** Python exceptions and the error monad *)

Inductive exn : Set :=
  | ValueError
  | KeyError
  | IndexError
  | LinAlgError
  | AssertionError
  | TypeError.

Inductive result (A : Type) : Type :=
  | Ok (a : A)
  | Raise (e : exn).
Arguments Ok {A} a.
Arguments Raise {A} e.

#[global] Instance result_ret : MRet result := λ A a, Ok a.
#[global] Instance result_bind : MBind result :=
  λ A B f m, match m with Ok a => f a | Raise e => Raise e end.

Definition of_option {A} (e : exn) (o : option A) : result A :=
  match o with Some a => Ok a | None => Raise e end.

(** [for x in l: acc = body x acc], stopping at the first exception. *)
Fixpoint for_in {A B} (l : list A) (body : A → B → result B) (acc : B)
  : result B :=
  match l with
  | [] => Ok acc
  | x :: l' => acc' ← body x acc; for_in l' body acc'
  end.

(** [range(m)] *)
Definition range (m : nat) : list nat := seq 0 m.

(** ** Vectors of numbers *)

Definition vadd (u v : list Q) : list Q := zip_with Qplus u v.
Definition vsub (u v : list Q) : list Q := zip_with Qminus u v.
Definition vscale (a : Q) (u : list Q) : list Q := fmap (Qmult a) u.
Definition vsum (u : list Q) : Q := foldr Qplus 0%Q u.
Definition dot (u v : list Q) : Q := vsum (zip_with Qmult u v).

(** The linear combination [sum_i r_i * rows_i] of rows of width [w]. *)
Fixpoint lincomb (w : nat) (r : list Q) (rows : list (list Q)) : list Q :=
  match r, rows with
  | a :: r', b :: rows' => vadd (vscale a b) (lincomb w r' rows')
  | _, _ => replicate w 0%Q
  end.

(** The [i]-th unit vector of length [m], scaled by [a]:
    [row = [0] * m; row[i] = a]. *)
Definition unit_row (m i : nat) (a : Q) : list Q := <[i := a]> (replicate m 0%Q).

(** ** The fragment of numpy the program uses *)

Module Np.

Record ndarray : Type := mk_ndarray {
shape0 : nat;
shape1 : nat;
data : list (list Q)
}.

(** The rows agree with the shape. *)
Definition wf (a : ndarray) : Prop :=
length (data a) = shape0 a ∧ Forall (λ r, length r = shape1 a) (data a).

Definition full (v : Q) (r c : nat) : ndarray :=
mk_ndarray r c (replicate r (replicate c v)).

Definition zeros (r c : nat) : ndarray := full 0%Q r c.
Definition ones (r c : nat) : ndarray := full 1%Q r c.

Definition identity (n : nat) : ndarray :=
mk_ndarray n n (fmap (λ i, unit_row n i 1%Q) (range n)).

(** The [r x c] array whose entry [(i, j)] is [f i j]. *)
Definition tabulate (f : nat → nat → Q) (r c : nat) : ndarray :=
mk_ndarray r c (fmap (λ i, fmap (f i) (range c)) (range r)).

(** [np.empty(shape=[r, c])]: an array over uninitialised memory, whose
contents [mem] are whatever the allocator hands out. *)
Definition empty (mem : nat → nat → Q) (r c : nat) : ndarray :=
tabulate mem r c.

(** [np.atleast_2d] of a Python list, and of a scalar. *)
Definition of_row (l : list Q) : ndarray := mk_ndarray 1 (length l) [l].
Definition of_scalar (v : Q) : ndarray := mk_ndarray 1 1 [[v]].

(** [a[i, j]] *)
Definition get (a : ndarray) (i j : nat) : result Q :=
row ← of_option IndexError (data a !! i);
of_option IndexError (row !! j).

(** [a[i, j] = v] *)
Definition set (a : ndarray) (i j : nat) (v : Q) : result ndarray :=
row ← of_option IndexError (data a !! i);
if decide (j < length row)
then Ok (mk_ndarray (shape0 a) (shape1 a) (<[i := <[j := v]> row]> (data a)))
else Raise IndexError.

(** [a[0, :]] and [a[:, 0]] *)
Definition row0 (a : ndarray) : result (list Q) :=
of_option IndexError (data a !! 0).
Definition col0 (a : ndarray) : result (list Q) :=
if decide (0 < shape1 a)
then Ok (fmap (λ r, default 0%Q (r !! 0)) (data a))
else Raise IndexError.

(** [a - b], for operands of one shape (the program never broadcasts). *)
Definition sub (a b : ndarray) : result ndarray :=
if decide (shape0 a = shape0 b ∧ shape1 a = shape1 b)
then Ok (mk_ndarray (shape0 a) (shape1 a) (zip_with vsub (data a) (data b)))
else Raise ValueError.

(** [s * a] for a scalar [s] *)
Definition scale (s : Q) (a : ndarray) : ndarray :=
mk_ndarray (shape0 a) (shape1 a) (fmap (vscale s) (data a)).

(** [a @ b] *)
Definition matmul (a b : ndarray) : result ndarray :=
if decide (shape1 a = shape0 b)
then Ok (mk_ndarray (shape0 a) (shape1 b)
       (fmap (λ r, lincomb (shape1 b) r (data b)) (data a)))
else Raise ValueError.

(** [a @ v] for a 1-d [v] *)
Definition matvec (a : ndarray) (v : list Q) : result (list Q) :=
if decide (shape1 a = length v)
then Ok (fmap (λ r, dot r v) (data a))
else Raise ValueError.

(** [np.vstack((a, b))] *)
Definition vstack (a b : ndarray) : result ndarray :=
if decide (shape1 a = shape1 b)
then Ok (mk_ndarray (shape0 a + shape0 b) (shape1 a) (data a ++ data b))
else Raise ValueError.

(** [np.hstack(l)] for a non-empty tuple of 2-d arrays *)
Definition hstack2 (a b : ndarray) : result ndarray :=
if decide (shape0 a = shape0 b)
then Ok (mk_ndarray (shape0 a) (shape1 a + shape1 b)
       (zip_with app (data a) (data b)))
else Raise ValueError.

Definition hstack (l : list ndarray) : result ndarray :=
match l with
| [] => Raise ValueError
| a :: l' => for_in l' (λ b acc, hstack2 acc b) a
end.

(** [np.min], [np.max] of a 1-d array *)
Definition min (v : list Q) : result Q :=
match v with
| [] => Raise ValueError
| x :: v' => Ok (foldl Qmin x v')
end.
Definition max (v : list Q) : result Q :=
match v with
| [] => Raise ValueError
| x :: v' => Ok (foldl Qmax x v')
end.

End Np.

(** ** Results of a float64 division *)

Inductive xnum : Set :=
  | Fin (q : Q)
  | PInf
  | NInf
  | NaN.

(** [a / b] on finite operands: a zero divisor gives [inf], [-inf] or [nan]. *)
Definition xdiv (a b : Q) : xnum :=
  if Qeq_bool b 0 then
    if Qeq_bool a 0 then NaN
    else if Qle_bool 0 a then PInf else NInf
  else Fin (a / b).

(** [s * v] for a finite scalar [s] *)
Definition xscale (s : Q) (v : xnum) : xnum :=
  match v with
  | Fin q => Fin (s * q)
  | NaN => NaN
  | PInf =>
      if Qeq_bool s 0 then NaN else if Qle_bool 0 s then PInf else NInf
  | NInf =>
      if Qeq_bool s 0 then NaN else if Qle_bool 0 s then NInf else PInf
  end.

Definition is_finite (v : xnum) : bool :=
  match v with Fin _ => true | _ => false end.

(** ** Python lists *)

(** [l.index(x)] *)
Definition list_index {A} `{EqDecision A} (x : A) (l : list A) : result nat :=
  of_option ValueError (fst <$> list_find (λ y, y = x) l).

(** [l.remove(x)]: drops the first occurrence *)
Fixpoint list_remove {A} `{EqDecision A} (x : A) (l : list A)
  : result (list A) :=
  match l with
  | [] => Raise ValueError
  | y :: l' =>
      if decide (y = x) then Ok l'
      else l'' ← list_remove x l'; Ok (y :: l'')
  end.

(** [l[i] = v] *)
Definition list_set {A} (l : list A) (i : nat) (v : A) : result (list A) :=
  if decide (i < length l) then Ok (<[i := v]> l) else Raise IndexError.

(** ** lp_irl.py *)

Module LpIrl.
Import Np.

(** What [scipy.optimize.linprog] returns: the point [x], the [success]
flag and the [status] code (0 optimal, 1 iteration limit, 2 infeasible,
3 unbounded, 4 numerical difficulties). *)
Record OptimizeResult : Type := mk_result {
res_x : list Q;
res_success : bool;
res_status : nat
}.

(** The triple [(c, A_ub, b_ub)] threaded through the assembly stages. *)
Definition lp : Type := ndarray * ndarray * ndarray.

Section lp_irl.
(** [numpy.linalg.inv] *)
Variable linalg_inv : ndarray → result ndarray.
(** [linprog(c, A_ub=A_ub, b_ub=b_ub, method="interior-point")] *)
Variable linprog : list Q → ndarray → list Q → OptimizeResult.
(** the memory [np.empty] hands out *)
Variable uninit : nat → nat → Q.

(** The arguments of [lp_irl]. *)
Variables (S_ A_ : list string) (T : ndarray) (gamma : Q).
Variable pi : gmap string string.
Variables (l1 Rmax : Q).

Definition n : nat := length S_.
Definition k : nat := length A_.

Definition si (s : string) : result nat := list_index s S_.
Definition ai (a : string) : result nat := list_index a A_.

Definition trans (s1 a s2 : string) : result Q :=
i ← si s1;
j ← ai a;
i2 ← si s2;
get T (i * k + j) i2.

Definition trans_mat (pi : string → result string) : result ndarray :=
for_in S_ (λ from_state Tm,
for_in S_ (λ to_state Tm,
a ← pi from_state;
t ← trans from_state a to_state;
i ← si from_state;
j ← si to_state;
set Tm i j t) Tm)
(zeros n n).

Definition pi_lookup (s : string) : result string :=
of_option KeyError (pi !! s).

Definition Tpi : result ndarray := trans_mat pi_lookup.

Definition Tnotpi : result (gmap nat ndarray) :=
for_in (range (k - 1)) (λ i Tnotpi,
let Tnotpi := <[i := zeros n n]> Tnotpi in
for_in S_ (λ from_state Tnotpi,
p ← pi_lookup from_state;
Atmp ← list_remove p A_;
non_policy_action ← of_option IndexError (Atmp !! i);
for_in S_ (λ to_state Tnotpi,
t ← trans from_state non_policy_action to_state;
m ← of_option KeyError (Tnotpi !! i);
r ← si from_state;
c ← si to_state;
m' ← set m r c t;
Ok (<[i := m']> Tnotpi)) Tnotpi) Tnotpi)
∅.

Definition T_disc_inv (Tpi : ndarray) : result ndarray :=
d ← sub (identity n) (scale gamma Tpi);
linalg_inv d.

Section stages.
(** The variables the nested stage functions close over. *)
Variable Tpi : ndarray.
Variable Tnotpi : gmap nat ndarray.
Variable T_disc_inv : ndarray.

(** [-1 * (Tpi - Tnotpi[i]) @ T_disc_inv] *)
Definition constraint_rows (i : nat) : result ndarray :=
Tn ← of_option KeyError (Tnotpi !! i);
d ← sub Tpi Tn;
matmul (scale (-1) d) T_disc_inv.

Definition add_optimal_policy_constraints (p : lp) : result lp :=
for_in (range (k - 1)) (λ i '(c, A_ub, b_ub),
rows ← constraint_rows i;
A_ub ← vstack A_ub rows;
b_ub ← vstack b_ub (zeros (shape0 rows) 1);
Ok (c, A_ub, b_ub)) p.

Definition add_costly_single_step_constraints (p : lp) : result lp :=
let '(c, A_ub, b_ub) := p in
c ← hstack [c; scale (-1) (ones 1 n)];
let css_offset := shape1 c - n in
A_ub ← hstack [A_ub; zeros (shape0 A_ub) n];
for_in (range (k - 1)) (λ i '(c, A_ub, b_ub),
rows ← constraint_rows i;
let min_operator_entries := identity n in
if decide (n ≤ css_offset) then
let num_padding_cols := css_offset - n in
let padding_entries := zeros (shape0 rows) num_padding_cols in
rows ← hstack [rows; padding_entries; min_operator_entries];
A_ub ← vstack A_ub rows;
b_ub ← vstack b_ub (zeros (shape0 rows) 1);
Ok (c, A_ub, b_ub)
else Raise ValueError) (c, A_ub, b_ub).

Definition add_l1norm_constraints (p : lp) (l1 : Q) : result lp :=
let '(c, A_ub, b_ub) := p in
c ← hstack [c; scale l1 (ones 1 n)];
let l1_offset := shape1 c - n in
A_ub ← hstack [A_ub; zeros (shape0 A_ub) n];
for_in (range n) (λ i '(c, A_ub, b_ub),
let constraint_row_1 := replicate (shape1 A_ub) 0%Q in
constraint_row_1 ← list_set constraint_row_1 i (-1)%Q;
A_ub ← vstack A_ub (of_row constraint_row_1);
b_ub ← vstack b_ub (of_scalar 0);
let constraint_row_2 := replicate (shape1 A_ub) 0%Q in
constraint_row_2 ← list_set constraint_row_2 i 1%Q;
constraint_row_2 ← list_set constraint_row_2 (l1_offset + i) (-1)%Q;
A_ub ← vstack A_ub (of_row constraint_row_2);
b_ub ← vstack b_ub (of_scalar 0);
Ok (c, A_ub, b_ub)) (c, A_ub, b_ub).

Definition add_rmax_constraints (p : lp) (Rmax : Q) : result lp :=
for_in (range n) (λ i '(c, A_ub, b_ub),
let constraint_row := replicate (shape1 A_ub) 0%Q in
constraint_row ← list_set constraint_row i 1%Q;
A_ub ← vstack A_ub (of_row constraint_row);
b_ub ← vstack b_ub (of_scalar Rmax);
Ok (c, A_ub, b_ub)) p.

(** The four stages, in the order [lp_irl] composes them. *)
Definition compose (p : lp) : result lp :=
p ← add_optimal_policy_constraints p;
p ← add_costly_single_step_constraints p;
p ← add_rmax_constraints p Rmax;
add_l1norm_constraints p l1.
End stages.

Definition normalize (vals : list Q) : result (list xnum) :=
min_val ← min vals;
max_val ← max vals;
Ok (fmap (λ v, xdiv (v - min_val) (max_val - min_val)) vals).

(** [Rmax * normalize(x[0:n])] *)
Definition extract (x : list Q) : result (list xnum) :=
v ← normalize (take n x);
Ok (fmap (xscale Rmax) (v : list xnum)).

(** The LP problem [lp_irl] hands to the solver. *)
Definition assemble : result lp :=
Tpi ← Tpi;
Tnotpi ← Tnotpi;
T_disc_inv ← T_disc_inv Tpi;
let c := empty uninit 1 n in
let A_ub := empty uninit 0 n in
let b_ub := empty uninit 0 1 in
compose Tpi Tnotpi T_disc_inv (c, A_ub, b_ub).

Definition solve (p : lp) : result OptimizeResult :=
let '(c, A_ub, b_ub) := p in
c0 ← row0 c;
b0 ← col0 b_ub;
Ok (linprog c0 A_ub b0).

Definition lp_irl : result (list xnum * OptimizeResult) :=
p ← assemble;
res ← solve p;
rewards ← extract (res_x res);
Ok (rewards, res).

(** *** Notions the properties below are stated with *)

(** The action [Tnotpi[idx]] uses at state [s]: the [idx]-th entry of
the action list without the policy action (the three statements at
the head of the loop over [from_state]). *)
Definition non_policy_action (idx : nat) (s : string) : result string :=
p ← pi_lookup s;
Atmp ← list_remove p A_;
of_option IndexError (Atmp !! idx).

(** Distinct states, distinct actions, a transition array of shape
[(n * k) x n] and a policy that is total on the states. *)
Definition well_formed : Prop :=
NoDup S_ ∧ NoDup A_ ∧
wf T ∧ shape0 T = (n * k)%nat ∧ shape1 T = n ∧
Forall (λ s, ∃ a, pi !! s = Some a ∧ a ∈ A_) S_.

(** Every row of the transition array is a probability distribution. *)
Definition stochastic : Prop :=
Forall (λ row, Forall (λ p, 0 <= p ∧ p <= 1)%Q row ∧ (vsum row == 1)%Q)
(data T).

(** The inputs the specification calls valid. *)
Definition valid : Prop :=
well_formed ∧ stochastic ∧ (2 ≤ n)%nat ∧ (2 ≤ k)%nat ∧
(0 < gamma ∧ gamma < 1 ∧ 0 <= l1 ∧ 0 < Rmax)%Q.

(** The rows stage 2 stacks for one deviation block [B], when the
objective had [w] columns on entry: the block, [w - n] zero
columns, the identity. *)
Definition css_rows (w : nat) (B : ndarray) : list (list Q) :=
zip_with (λ r i, r ++ replicate (w - n) 0%Q ++ unit_row n i 1%Q)
(data B) (range n).

(** The two rows stage 4 stacks for the reward variable [i], when the
objective had [w] columns on entry. *)
Definition l1_rows (w i : nat) : list (list Q) :=
[unit_row (w + n) i (-1)%Q;
<[(w + i)%nat := (-1)%Q]> (unit_row (w + n) i 1%Q)].

(** Rows padded with [m] zero columns on the right. *)
Definition pad (m : nat) (rows : list (list Q)) : list (list Q) :=
(λ r, r ++ replicate m 0%Q) <$> rows.

(** The assembled problem written out from the deviation blocks
[block 0], ..., [block (k - 2)]: the rows each stage stacks (in
the width the stage works at), the constraint matrix, the objective
and the bounds. *)
Definition stage1_rows (block : nat → ndarray) : list (list Q) :=
concat ((λ i, data (block i)) <$> range (k - 1)).
Definition stage2_rows (block : nat → ndarray) : list (list Q) :=
concat ((λ i, css_rows n (block i)) <$> range (k - 1)).
Definition stage3_rows : list (list Q) :=
(λ i, unit_row (n + n) i 1%Q) <$> range n.
Definition stage4_rows : list (list Q) :=
concat (l1_rows (n + n) <$> range n).

Definition assembled_rows (block : nat → ndarray) : list (list Q) :=
pad n (pad n (stage1_rows block) ++ stage2_rows block ++ stage3_rows)
++ stage4_rows.

Definition assembled_c : list Q :=
(uninit 0%nat <$> range n) ++ replicate n (-1)%Q ++ replicate n l1.

Definition assembled_b : list Q :=
replicate ((k - 1) * n) 0%Q ++ replicate ((k - 1) * n) 0%Q
++ replicate n Rmax ++ replicate (2 * n) 0%Q.

End lp_irl.

(** [x] satisfies [A_ub @ x <= b_ub]. *)
Definition feasible (A_ub : ndarray) (b_ub x : list Q) : Prop :=
length x = shape1 A_ub ∧
Forall2 (λ row b, (dot row x <= b)%Q) (data A_ub) b_ub.

(** [x] minimises [c @ x] over the feasible points. *)
Definition optimal (c : list Q) (A_ub : ndarray) (b_ub x : list Q) : Prop :=
feasible A_ub b_ub x ∧ ∀ y, feasible A_ub b_ub y → (dot c x <= dot c y)%Q.

(** The entries of a vector are all one number. *)
Definition all_equal (vals : list Q) : bool :=
match vals with
| [] => true
| v :: vals' => forallb (Qeq_bool v) vals'
end.

(** Entrywise equality of two arrays' rows, as numbers. *)
Definition rows_eq (a b : list (list Q)) : Prop :=
Forall2 (Forall2 Qeq) a b.

End LpIrl.

(** ** mdp/markov_reward_process.py *)

Module Mrp.
Import Np.

Record MarkovRewardProcess : Type := mk_mrp {
state_set : list string;
transition_matrix : ndarray;
reward_mapping : gmap string Q;
discount_factor : Q
}.

Section mrp.
Variable linalg_inv : ndarray → result ndarray.
Variable self : MarkovRewardProcess.

Definition get_reward_vector : result (list Q) :=
for_in (state_set self) (λ state reward_vector,
r ← of_option KeyError (reward_mapping self !! state);
Ok (reward_vector ++ [r])) [].

Definition solve_bellman_equation : result (gmap string Q) :=
if Qeq_bool (discount_factor self) 1 then Raise AssertionError
else
d ← sub (identity (length (state_set self)))
(scale (discount_factor self) (transition_matrix self));
inv ← linalg_inv d;
rv ← get_reward_vector;
value_vector ← matvec inv rv;
for_in (range (length (state_set self))) (λ i value_map,
s ← of_option IndexError (state_set self !! i);
v ← of_option IndexError (value_vector !! i);
Ok (<[s := v]> value_map)) ∅.
End mrp.
End Mrp.

(** ** lp_irl.py over a store of objects

    The same program once more, with the objects a caller can hold a
    reference to kept in a store: the arrays [S], [A], [T] and the dict
    [pi] it is given, and every array and result object it makes.  numpy
    makes a new array for the result of every operation; the one operation
    that writes into an existing array is the item assignment
    [a[i, j] = v].  The Python lists the call makes ([A.tolist()],
    [[0] * m]) and its dict [Tnotpi] are never shared and are kept as
    values; [Tnotpi] maps an index to the reference of its array.  What
    [c[0, :]], [b_ub[:, 0]] and [res['x'][0:n]] read is passed on as
    values: nothing writes through these views. *)

Module Store.
Import Np LpIrl.

Inductive obj : Type :=
| OArray (a : ndarray)
| OStrings (l : list string)
| ODict (d : gmap string string)
| OResult (r : OptimizeResult)
| ORewards (l : list xnum).

(** A reference is a position in the store. *)
Definition loc : Type := nat.
Definition store : Type := list obj.

(** A computation runs on a store and leaves a store, also when it
  raises. *)
Definition M (A : Type) : Type := store → result A * store.

#[global] Instance M_ret : MRet M := λ A a h, (Ok a, h).
#[global] Instance M_bind : MBind M :=
λ A B f m h,
  match m h with
  | (Ok a, h') => f a h'
  | (Raise e, h') => (Raise e, h')
  end.

Definition lift {A} (r : result A) : M A := λ h, (r, h).

Fixpoint for_in {A B} (l : list A) (body : A → B → M B) (acc : B) : M B :=
match l with
| [] => mret acc
| x :: l' => acc' ← body x acc; for_in l' body acc'
end.

(** A new object, at a reference nothing else holds. *)
Definition alloc (o : obj) : M loc := λ h, (Ok (length h), h ++ [o]).

Definition load (l : loc) : M obj :=
λ h, (of_option TypeError (h !! l), h).

(** Writing an object in place. *)
Definition store_at (l : loc) (o : obj) : M unit :=
λ h, if decide (l < length h) then (Ok (), <[l := o]> h)
     else (Raise TypeError, h).

Definition load_array (l : loc) : M ndarray :=
o ← load l;
match o with OArray a => mret a | _ => lift (Raise TypeError) end.
Definition load_strings (l : loc) : M (list string) :=
o ← load l;
match o with OStrings s => mret s | _ => lift (Raise TypeError) end.
Definition load_dict (l : loc) : M (gmap string string) :=
o ← load l;
match o with ODict d => mret d | _ => lift (Raise TypeError) end.

(** *** Python lists on references *)

(** [a.tolist()]: a new list with the elements of [a]. *)
Definition tolist (a : loc) : M loc :=
l ← load_strings a; alloc (OStrings l).

Definition index (l : loc) (x : string) : M nat :=
v ← load_strings l; lift (list_index x v).

(** [l.remove(x)]: the list at [l] is changed in place. *)
Definition remove (l : loc) (x : string) : M unit :=
v ← load_strings l;
v' ← lift (list_remove x v);
store_at l (OStrings v').

Definition item (l : loc) (i : nat) : M string :=
v ← load_strings l; lift (of_option IndexError (v !! i)).

(** *** numpy on references *)

Definition new_array (a : ndarray) : M loc := alloc (OArray a).

Definition zeros (r c : nat) : M loc := new_array (Np.zeros r c).
Definition ones (r c : nat) : M loc := new_array (Np.ones r c).
Definition identity (n : nat) : M loc := new_array (Np.identity n).
Definition empty (mem : nat → nat → Q) (r c : nat) : M loc :=
new_array (Np.empty mem r c).

Definition shape0 (a : loc) : M nat := x ← load_array a; mret (Np.shape0 x).
Definition shape1 (a : loc) : M nat := x ← load_array a; mret (Np.shape1 x).

Definition get (a : loc) (i j : nat) : M Q :=
x ← load_array a; lift (Np.get x i j).

(** [a[i, j] = v]: the array at [a] is changed in place. *)
Definition set (a : loc) (i j : nat) (v : Q) : M unit :=
x ← load_array a;
x' ← lift (Np.set x i j v);
store_at a (OArray x').

Definition sub (a b : loc) : M loc :=
x ← load_array a; y ← load_array b;
r ← lift (Np.sub x y); new_array r.

Definition scale (s : Q) (a : loc) : M loc :=
x ← load_array a; new_array (Np.scale s x).

Definition matmul (a b : loc) : M loc :=
x ← load_array a; y ← load_array b;
r ← lift (Np.matmul x y); new_array r.

Definition vstack (a b : loc) : M loc :=
x ← load_array a; y ← load_array b;
r ← lift (Np.vstack x y); new_array r.

(** [np.vstack((a, v))] for a Python list or a scalar [v] *)
Definition vstack_value (a : loc) (v : ndarray) : M loc :=
x ← load_array a;
r ← lift (Np.vstack x v); new_array r.

Fixpoint load_arrays (l : list loc) : M (list ndarray) :=
match l with
| [] => mret []
| a :: l' => x ← load_array a; xs ← load_arrays l'; mret (x :: xs)
end.

Definition hstack (l : list loc) : M loc :=
xs ← load_arrays l;
r ← lift (Np.hstack xs); new_array r.

Definition row0 (a : loc) : M (list Q) := x ← load_array a; lift (Np.row0 x).
Definition col0 (a : loc) : M (list Q) := x ← load_array a; lift (Np.col0 x).

(** The local variables of [lp_irl] that hold an object, as they stand at
  its [return]; the call returns [(rewards, res)]. *)
Record frame : Type := mk_frame {
f_Tpi : loc;
f_Tnotpi : gmap nat loc;
f_T_disc_inv : loc;
f_c : loc;
f_A_ub : loc;
f_b_ub : loc;
f_res : loc;
f_rewards : loc
}.

Section lp_irl.
Variable linalg_inv : ndarray → result ndarray.
Variable linprog : list Q → ndarray → list Q → OptimizeResult.
Variable uninit : nat → nat → Q.

(** The arguments of [lp_irl]: references for [S], [A], [T] and [pi]. *)
Variables (S_ A_ T : loc) (gamma : Q) (pi : loc) (l1 Rmax : Q).

Definition len (a : loc) : M nat := l ← load_strings a; mret (length l).

Definition si (s : string) : M nat := l ← tolist S_; index l s.
Definition ai (a : string) : M nat := l ← tolist A_; index l a.

Definition trans (k : nat) (s1 a s2 : string) : M Q :=
i ← si s1;
j ← ai a;
i2 ← si s2;
get T (i * k + j) i2.

Definition trans_mat (n k : nat) (pi : string → M string) : M loc :=
Tm ← zeros n n;
states ← load_strings S_;
_ ← for_in states (λ from_state _,
states ← load_strings S_;
for_in states (λ to_state _,
  a ← pi from_state;
  t ← trans k from_state a to_state;
  i ← si from_state;
  j ← si to_state;
  set Tm i j t) ()) ();
mret Tm.

Definition pi_lookup (s : string) : M string :=
d ← load_dict pi; lift (of_option KeyError (d !! s)).

Definition Tnotpi (n k : nat) : M (gmap nat loc) :=
for_in (range (k - 1)) (λ i Tnotpi,
m ← zeros n n;
let Tnotpi := <[i := m]> Tnotpi in
states ← load_strings S_;
_ ← for_in states (λ from_state _,
  Atmp ← tolist A_;
  p ← pi_lookup from_state;
  _ ← remove Atmp p;
  non_policy_action ← item Atmp i;
  states ← load_strings S_;
  for_in states (λ to_state _,
    t ← trans k from_state non_policy_action to_state;
    m ← lift (of_option KeyError (Tnotpi !! i));
    r ← si from_state;
    c ← si to_state;
    set m r c t) ()) ();
mret Tnotpi) ∅.

Definition T_disc_inv (n : nat) (Tpi : loc) : M loc :=
i ← identity n;
g ← scale gamma Tpi;
d ← sub i g;
x ← load_array d;
r ← lift (linalg_inv x);
new_array r.

Section stages.
Variables (n k : nat).
Variable Tpi : loc.
Variable Tnotpi : gmap nat loc.
Variable T_disc_inv : loc.

Definition constraint_rows (i : nat) : M loc :=
Tn ← lift (of_option KeyError (Tnotpi !! i));
d ← sub Tpi Tn;
s ← scale (-1) d;
matmul s T_disc_inv.

Definition add_optimal_policy_constraints (p : loc * loc * loc)
: M (loc * loc * loc) :=
for_in (range (k - 1)) (λ i '(c, A_ub, b_ub),
rows ← constraint_rows i;
A_ub ← vstack A_ub rows;
m ← shape0 rows;
z ← zeros m 1;
b_ub ← vstack b_ub z;
mret (c, A_ub, b_ub)) p.

Definition add_costly_single_step_constraints (p : loc * loc * loc)
: M (loc * loc * loc) :=
let '(c, A_ub, b_ub) := p in
o ← ones 1 n;
o ← scale (-1) o;
c ← hstack [c; o];
w ← shape1 c;
let css_offset := w - n in
m ← shape0 A_ub;
z ← zeros m n;
A_ub ← hstack [A_ub; z];
for_in (range (k - 1)) (λ i '(c, A_ub, b_ub),
rows ← constraint_rows i;
min_operator_entries ← identity n;
if decide (n ≤ css_offset) then
let num_padding_cols := css_offset - n in
m ← shape0 rows;
padding_entries ← zeros m num_padding_cols;
rows ← hstack [rows; padding_entries; min_operator_entries];
A_ub ← vstack A_ub rows;
m ← shape0 rows;
z ← zeros m 1;
b_ub ← vstack b_ub z;
mret (c, A_ub, b_ub)
else lift (Raise ValueError)) (c, A_ub, b_ub).

Definition add_l1norm_constraints (p : loc * loc * loc) (l1 : Q)
: M (loc * loc * loc) :=
let '(c, A_ub, b_ub) := p in
o ← ones 1 n;
o ← scale l1 o;
c ← hstack [c; o];
w ← shape1 c;
let l1_offset := w - n in
m ← shape0 A_ub;
z ← zeros m n;
A_ub ← hstack [A_ub; z];
for_in (range n) (λ i '(c, A_ub, b_ub),
w ← shape1 A_ub;
let constraint_row_1 := replicate w 0%Q in
constraint_row_1 ← lift (list_set constraint_row_1 i (-1)%Q);
A_ub ← vstack_value A_ub (of_row constraint_row_1);
b_ub ← vstack_value b_ub (of_scalar 0);
w ← shape1 A_ub;
let constraint_row_2 := replicate w 0%Q in
constraint_row_2 ← lift (list_set constraint_row_2 i 1%Q);
constraint_row_2 ←
lift (list_set constraint_row_2 (l1_offset + i) (-1)%Q);
A_ub ← vstack_value A_ub (of_row constraint_row_2);
b_ub ← vstack_value b_ub (of_scalar 0);
mret (c, A_ub, b_ub)) (c, A_ub, b_ub).

Definition add_rmax_constraints (p : loc * loc * loc) (Rmax : Q)
: M (loc * loc * loc) :=
for_in (range n) (λ i '(c, A_ub, b_ub),
w ← shape1 A_ub;
let constraint_row := replicate w 0%Q in
constraint_row ← lift (list_set constraint_row i 1%Q);
A_ub ← vstack_value A_ub (of_row constraint_row);
b_ub ← vstack_value b_ub (of_scalar Rmax);
mret (c, A_ub, b_ub)) p.
End stages.

Definition lp_irl : M frame :=
n ← len S_;
k ← len A_;
Tpi ← trans_mat n k pi_lookup;
Tnotpi ← Tnotpi n k;
T_disc_inv ← T_disc_inv n Tpi;
c ← empty uninit 1 n;
A_ub ← empty uninit 0 n;
b_ub ← empty uninit 0 1;
p ← add_optimal_policy_constraints k Tpi Tnotpi T_disc_inv (c, A_ub, b_ub);
p ← add_costly_single_step_constraints n k Tpi Tnotpi T_disc_inv p;
p ← add_rmax_constraints n p Rmax;
'(c, A_ub, b_ub) ← add_l1norm_constraints n p l1;
c0 ← row0 c;
A ← load_array A_ub;
b0 ← col0 b_ub;
res ← alloc (OResult (linprog c0 A b0));
o ← load res;
x ← match o with
  | OResult r => mret (res_x r)
  | _ => lift (Raise TypeError)
  end;
v ← lift (normalize (take n x));
rewards ← alloc (ORewards (fmap (xscale Rmax) (v : list xnum)));
mret (mk_frame Tpi Tnotpi T_disc_inv c A_ub b_ub res rewards).

End lp_irl.

(** The store keeps, below [base], the objects it had. *)
Definition preserves (base : nat) (h h' : store) : Prop :=
take base h' = take base h ∧ length h ≤ length h'.

(** A computation that, started on a store of at least [base] objects,
  leaves the objects below [base] as they were and, when it returns,
  returns something with [Q]. *)
Definition local (base : nat) {A} (m : M A) (Q : A → Prop) : Prop :=
∀ h, base ≤ length h →
  ∀ r h', m h = (r, h') → preserves base h h' ∧ ∀ a, r = Ok a → Q a.

(** The three arrays of the linear program, [(c, A_ub, b_ub)], were made
  above [base]. *)
Definition above (base : nat) (p : loc * loc * loc) : Prop :=
base ≤ p.1.1 ∧ base ≤ p.1.2 ∧ base ≤ p.2.

(** Every object of the frame was made above [base]. *)
Definition frame_fresh (base : nat) (fr : frame) : Prop :=
base ≤ f_Tpi fr ∧ map_Forall (λ _ l, base ≤ l) (f_Tnotpi fr) ∧
base ≤ f_T_disc_inv fr ∧ base ≤ f_c fr ∧ base ≤ f_A_ub fr ∧
base ≤ f_b_ub fr ∧ base ≤ f_res fr ∧ base ≤ f_rewards fr.

(** The example of [__main__] as a store: [S], [A], [T] and [pi] at the
  references 0 to 3. *)
Definition demo_store : store :=
[OStrings ["s0"; "s1"]; OStrings ["b"; "o"];
 OArray (mk_ndarray 4 2 [[4 # 10; 6 # 10]; [9 # 10; 1 # 10]; [1; 0]; [1; 0]]%Q);
 ODict {[ "s0" := "b"; "s1" := "o" ]}].

End Store.

(** ** The round trip: is the policy optimal for a reward? *)

Module RoundTrip.
Import Np LpIrl Mrp.

Section round_trip.
Variable linalg_inv : ndarray → result ndarray.
Variables (S_ A_ : list string) (T : ndarray) (gamma : Q).
Variable pi : gmap string string.

(** The reward mapping [{s_i: r_i}] of a reward vector. *)
Definition reward_map (reward : list Q) : gmap string Q :=
list_to_map (zip S_ reward).

(** The Markov reward process the policy induces under a reward vector. *)
Definition policy_mrp (Tpi : ndarray) (reward : list Q)
: MarkovRewardProcess :=
mk_mrp S_ Tpi (reward_map reward) gamma.

(** The expected discounted value of taking [a] in [s] and following the
policy from then on:
[R(s) + gamma * sum_s' P(s' | s, a) * v(s')]. *)
Definition action_value (reward_mapping value_map : gmap string Q)
(s a : string) : result Q :=
r ← of_option KeyError (reward_mapping !! s);
ev ← for_in S_ (λ s' acc,
  p ← trans S_ A_ T s a s';
  v ← of_option KeyError (value_map !! s');
  Ok (acc + p * v)%Q) 0%Q;
Ok (r + gamma * ev)%Q.

(** With the values [solve_bellman_equation] finds for the reward, the
policy action is at every state worth at least as much as every
action. *)
Definition policy_optimal (reward : list Q) : Prop :=
∃ (Tp : ndarray) (value_map : gmap string Q),
Tpi S_ A_ T pi = Ok Tp ∧
solve_bellman_equation linalg_inv (policy_mrp Tp reward) = Ok value_map ∧
∀ s a, s ∈ S_ → a ∈ A_ →
∃ p qp qa,
pi !! s = Some p ∧
action_value (reward_map reward) value_map s p = Ok qp ∧
action_value (reward_map reward) value_map s a = Ok qa ∧
(qa <= qp)%Q.

(** The same for the vector [lp_irl] returns: a NaN in it makes every
value NaN and every comparison false, so the entries have to be
numbers. *)
Definition rewards_make_policy_optimal (rewards : list xnum) : Prop :=
∃ reward : list Q, rewards = Fin <$> reward ∧ policy_optimal reward.

End round_trip.
End RoundTrip.

(** ** The example of [__main__], and stand-ins for the external code *)

Module Demo.
Import Np LpIrl.

Definition S_ : list string := ["s0"; "s1"].
Definition A_ : list string := ["b"; "o"].
Definition T : ndarray :=
mk_ndarray 4 2 [[4 # 10; 6 # 10]; [9 # 10; 1 # 10]; [1; 0]; [1; 0]]%Q.
Definition gamma : Q := 9 # 10.
Definition pi : gmap string string := {[ "s0" := "b"; "s1" := "o" ]}.
Definition l1 : Q := 10.
Definition Rmax : Q := 2.

(** What [lp_irl] computes from these on the way: the two tables and the
discounted inverse. *)
Definition Tp : ndarray := mk_ndarray 2 2 [[4 # 10; 6 # 10]; [1; 0]]%Q.
Definition Tn : gmap nat ndarray :=
{[ 0%nat := mk_ndarray 2 2 [[9 # 10; 1 # 10]; [1; 0]]%Q ]}.
Definition Tinv : ndarray :=
mk_ndarray 2 2 [[500 # 77; 270 # 77]; [450 # 77; 320 # 77]]%Q.

(** [I - gamma * Tpi], and the product of the inverse with it. *)
Definition D : ndarray :=
Eval vm_compute in
match sub (identity 2) (scale gamma Tp) with
| Ok d => d
| Raise _ => zeros 0 0
end.
Definition P : ndarray :=
Eval vm_compute in
match matmul Tinv D with
| Ok p => p
| Raise _ => zeros 0 0
end.

(** The inverse of a [2 x 2] array, by the adjugate formula. *)
Definition inv2 (a : ndarray) : result ndarray :=
match shape0 a, shape1 a, data a with
| 2, 2, [[p; q]; [r; s]] =>
let det := (p * s - q * r)%Q in
if Qeq_bool det 0 then Raise LinAlgError
else Ok (mk_ndarray 2 2
           [[Qred (s / det); Qred (- q / det)];
            [Qred (- r / det); Qred (p / det)]])
| _, _, _ => Raise LinAlgError
end.

(** Memory that happens to hold zeros, and memory that does not. *)
Definition zero_mem : nat → nat → Q := λ _ _, 0%Q.
Definition stale_mem : nat → nat → Q :=
λ _ j, if decide (j = 1) then (-100)%Q else 0%Q.

(** What an interior-point solver may hand back for a problem it found
infeasible: status 2, no success, and its last iterate. *)
Definition infeasible_res : OptimizeResult :=
mk_result [0; 1; 0; 0; 0; 0]%Q false 2.

(** A solve reported as successful, at a feasible point of the example's
problem; and one at the origin, which is where the example's problem
has its optimum. *)
Definition feasible_res : OptimizeResult :=
mk_result [0; 1; 0; 0; 0; 1]%Q true 0.
Definition zero_res : OptimizeResult :=
mk_result [0; 0; 0; 0; 0; 0]%Q true 0.

(** The optimum of the example's problem when the second objective
coefficient is the stale [-100.0]. *)
Definition stale_res : OptimizeResult :=
mk_result [0; 2; 50 # 77; 0; 0; 2]%Q true 0.

(** A deterministic solver that is exact on the example's problem under
both objectives: it answers by the second objective coefficient. *)
Definition exact_solver (c : list Q) (A_ub : ndarray) (b_ub : list Q)
: OptimizeResult :=
match c !! 1%nat with
| Some c1 => if Qeq_bool c1 0 then zero_res else stale_res
| None => zero_res
end.

(** A solver that answers [res] whatever it is asked. *)
Definition solver_returning (res : OptimizeResult)
: list Q → ndarray → list Q → OptimizeResult :=
λ _ _ _, res.

(** The example's call on the store of the example. *)
Definition store_run : result Store.frame * Store.store :=
Store.lp_irl inv2 exact_solver zero_mem 0 1 2 gamma 3 l1 Rmax
Store.demo_store.

End Demo.

(** ** The set the solver searches *)

(** The call [linprog(c[0, :], A_ub=A_ub, b_ub=b_ub[:, 0], ...)] gives no
    [bounds], and scipy then bounds every variable by [(0, None)]: the
    points [linprog] takes for feasible satisfy [A_ub @ x <= b_ub] and
    have no negative entry. *)
Definition linprog_feasible (A_ub : Np.ndarray) (b_ub x : list Q) : Prop :=
  LpIrl.feasible A_ub b_ub x ∧ Forall (λ v, (0 <= v)%Q) x.

(** ** Two states and a policy that stays *)

(** Action [b] stays in the state, action [o] moves to the other one, and
    the policy takes [b] in both states. *)
Module Stay.
Import Np LpIrl.

Definition S_ : list string := ["s0"; "s1"].
Definition A_ : list string := ["b"; "o"].
Definition T : ndarray :=
mk_ndarray 4 2 [[1; 0]; [0; 1]; [0; 1]; [1; 0]]%Q.
Definition gamma : Q := 9 # 10.
Definition pi : gmap string string := {[ "s0" := "b"; "s1" := "b" ]}.
Definition l1 : Q := 10.
Definition Rmax : Q := 2.

(** What [lp_irl] computes from these on the way. *)
Definition Tp : ndarray := mk_ndarray 2 2 [[1; 0]; [0; 1]]%Q.
Definition Tn : gmap nat ndarray :=
{[ 0%nat := mk_ndarray 2 2 [[0; 1]; [1; 0]]%Q ]}.
Definition D : ndarray :=
Eval vm_compute in
match sub (identity 2) (scale gamma Tp) with
| Ok d => d
| Raise _ => zeros 0 0
end.
Definition Tinv : ndarray := mk_ndarray 2 2 [[10; 0]; [0; 10]]%Q.

End Stay.

(** ** A Markov reward process to try things on *)

Module MrpDemo.
Import Np Mrp.

(** The process the policy of the example induces, with rewards 1 and 3. *)
Definition mrp : MarkovRewardProcess :=
  mk_mrp Demo.S_ Demo.Tp {[ "s0" := 1%Q; "s1" := 3%Q ]} Demo.gamma.

(** The same with the reward 5 in both states. *)
Definition flat : MarkovRewardProcess :=
  mk_mrp Demo.S_ Demo.Tp {[ "s0" := 5%Q; "s1" := 5%Q ]} Demo.gamma.

(** A generator that counts its calls, and a parent process that moves
    from either state to the other. *)
Definition other_state (s : string) (g : nat) : result string * nat :=
  (Ok (if decide (s = "s0") then "s1" else "s0"), S g).

(** A choice that always takes the first element. *)
Definition first_choice (l : list string) (g : nat) : result string * nat :=
  (of_option ValueError (head l), S g).

End MrpDemo.

(** ** mdp/markov_reward_process.py: sampling *)

(** The methods of [MarkovRewardProcess] that walk the process.  The next
    state comes from [MarkovProcess.transition], the parent class's method,
    which is not part of these sources, and the start of a walk from
    [np.random.choice]: both are parameters, functions of the state of the
    random generator, which every call hands on.  The class attribute
    [terminal_state_set], which the record above does not carry, is a
    parameter as well.  A walk without [max_length] need not end: the loop
    of [rollout] runs on fuel. *)

Module Sim.
Import Mrp.

(** How a call ends: it returns, it raises one of the exceptions above, it
    raises [ZeroDivisionError], or the fuel ran out. *)
Inductive outcome (A : Type) : Type :=
  | Returns (a : A)
  | Raises (e : exn)
  | RaisesZeroDivisionError
  | Unfinished.
Arguments Returns {A} a.
Arguments Raises {A} e.
Arguments RaisesZeroDivisionError {A}.
Arguments Unfinished {A}.

(** A computation on the state [G] of the random generator. *)
Definition M (G A : Type) : Type := G → outcome A * G.

#[global] Instance M_ret G : MRet (M G) := λ A a g, (Returns a, g).
#[global] Instance M_bind G : MBind (M G) :=
  λ A B f m g,
    match m g with
    | (Returns a, g') => f a g'
    | (Raises e, g') => (Raises e, g')
    | (RaisesZeroDivisionError, g') => (RaisesZeroDivisionError, g')
    | (Unfinished, g') => (Unfinished, g')
    end.

Definition of_result {A} (r : result A) : outcome A :=
  match r with Ok a => Returns a | Raise e => Raises e end.

Definition lift {G A} (r : result A) : M G A := λ g, (of_result r, g).

(** A call of one of the two random functions. *)
Definition draw {G A} (f : G → result A * G) : M G A :=
  λ g, let '(r, g') := f g in (of_result r, g').

(** [x / 0] on Python numbers, and a loop that has run out of fuel. *)
Definition zero_division_error {G A} : M G A :=
  λ g, (RaisesZeroDivisionError, g).
Definition unfinished {G A} : M G A := λ g, (Unfinished, g).

(** [assert b] *)
Definition assert {G} (b : bool) : M G unit :=
  lift (if b then Ok () else Raise AssertionError).

Fixpoint for_in {G A B} (l : list A) (body : A → B → M G B) (acc : B)
  : M G B :=
  match l with
  | [] => mret acc
  | x :: l' => acc' ← body x acc; for_in l' body acc'
  end.

(** A dictionary with its keys in the order they were first set, as
    [compute_stationary_distribution] reads it back. *)
Definition dict : Type := list (string * nat).

(** [d[key] = v] *)
Fixpoint dict_set (d : dict) (key : string) (v : nat) : dict :=
  match d with
  | [] => [(key, v)]
  | (k, w) :: d' =>
      if decide (k = key) then (k, v) :: d' else (k, w) :: dict_set d' key v
  end.

(** [d[key]] *)
Fixpoint dict_get (d : dict) (key : string) : result nat :=
  match d with
  | [] => Raise KeyError
  | (k, w) :: d' => if decide (k = key) then Ok w else dict_get d' key
  end.

(** [d[key] += 1] *)
Definition dict_incr (d : dict) (key : string) : result dict :=
  w ← dict_get d key; Ok (dict_set d key (w + 1)).

Section sim.
Variable G : Type.
(** [MarkovProcess.transition(self, current_state)] *)
Variable super_transition : string → G → result string * G.
(** [np.random.choice] *)
Variable random_choice : list string → G → result string * G.

Variable self : MarkovRewardProcess.
Variable terminal_state_set : list string.

Definition get_reward_mapping : gmap string Q := reward_mapping self.
Definition get_discount_factor : Q := discount_factor self.

Definition get_expected_reward (current_state : string) : result Q :=
  if decide (current_state ∈ state_set self) then
    match reward_mapping self !! current_state with
    | Some r => Ok r
    | None => Raise AssertionError
    end
  else Raise AssertionError.

Definition transition (current_state : string) : M G (Q * string) :=
  _ ← assert (bool_decide (current_state ∈ state_set self));
  reward ← lift (get_expected_reward current_state);
  new_state ← draw (super_transition current_state);
  mret (reward, new_state).

(** An entry of the record array [history]: the fields [reward] and
    [state]. *)
Definition entry : Type := option Q * string.

(** The [state] field has the dtype of [np.array(self.state_set)], a
    string type as wide as the longest state name (and at least one
    character wide); a longer string is cut to that width when it is
    stored.  Names are taken to be ASCII, one byte a character. *)
Definition width : nat :=
  Nat.max 1 (max_list (String.length <$> state_set self)).
Definition fit (s : string) : string := String.substring 0 width s.

(** The [while] loop of [rollout]; [curr] is the state of the tuple
    [curr], which is not cut. *)
Fixpoint rollout_loop (fuel : nat) (max_length : option nat)
    (curr : string) (history : list entry) : M G (list entry) :=
  if decide (curr ∈ terminal_state_set) then mret history
  else if match max_length with
          | Some m => bool_decide (m ≤ length history)
          | None => false
          end
  then mret history
  else
    match fuel with
    | 0 => unfinished
    | S fuel' =>
        '(reward, new_state) ← transition curr;
        rollout_loop fuel' max_length new_state
          (history ++ [(Some reward, fit new_state)])
    end.

Definition rollout (fuel : nat) (current_state : string)
    (max_length : option nat) : M G (list entry) :=
  _ ← assert (bool_decide (current_state ∈ state_set self));
  rollout_loop fuel max_length current_state [(None, fit current_state)].

(** [sum_i rewards[i] * discount_factor ** i] *)
Definition discounted (rewards : list Q) : list Q :=
  imap (λ i reward, reward * discount_factor self ^ Z.of_nat i)%Q rewards.

Definition get_return (fuel : nat) (current_state : string)
    (max_length : option nat) : M G Q :=
  _ ← assert (bool_decide (current_state ∈ state_set self));
  history ← rollout fuel current_state max_length;
  let rewards := omap fst history in
  mret (vsum (discounted rewards)).

Definition get_value (fuel : nat) (current_state : string)
    (num_rollouts : nat) (max_length : option nat) : M G Q :=
  _ ← assert (bool_decide (current_state ∈ state_set self));
  value ← for_in (range num_rollouts) (λ _ value,
    r ← get_return fuel current_state max_length;
    mret (value + r)%Q) 0%Q;
  if decide (num_rollouts = 0) then zero_division_error
  else mret (value / inject_Z (Z.of_nat num_rollouts))%Q.

Definition get_value_map (fuel : nat) (num_rollouts : nat)
    (max_length : option nat) : M G (gmap string Q) :=
  for_in (state_set self) (λ state value_map,
    v ← get_value fuel state num_rollouts max_length;
    mret (<[state := v]> value_map)) ∅.

Definition compute_stationary_distribution (fuel : nat) (num_rollouts : nat)
    (max_length : option nat) : M G (list Q) :=
  let state_counts :=
    foldl (λ d state, dict_set d state 0) [] (state_set self) in
  '(state_counts, total_visited_states) ←
    for_in (range num_rollouts) (λ _ '(state_counts, total),
      start_state ← draw (random_choice (state_set self));
      rollout ← rollout fuel start_state max_length;
      let total := total + length rollout in
      state_counts ← for_in rollout (λ '(_, visited_sate) state_counts,
        lift (dict_incr state_counts visited_sate)) state_counts;
      mret (state_counts, total)) (state_counts, 0);
  for_in state_counts (λ '(_, count) stationary_distribution,
    if decide (total_visited_states = 0)
    then zero_division_error
    else mret (stationary_distribution ++
                 [(inject_Z (Z.of_nat count)
                   / inject_Z (Z.of_nat total_visited_states))%Q])) [].
(** *** Notions the properties below are stated with *)

(** Every entry of a history but the last holds a state of the process
    that is not terminal, and the entry after it holds the reward of that
    state. *)
Definition linked (history : list entry) : Prop :=
  ∀ i p s e, history !! i = Some (p, s) → history !! (S i) = Some e →
    s ∈ state_set self ∧ (s ∉ terminal_state_set) ∧
    ∃ r, reward_mapping self !! s = Some r ∧ e.1 = Some r.

(** The rewards a walk collects: that of every state of the history but
    the last. *)
Definition collected (history : list entry) : list Q :=
  (λ e, default 0%Q (reward_mapping self !! e.2))
    <$> take (length history - 1) history.
End sim.
End Sim.

(** * Properties *)

Import Np LpIrl.
Import Np.

(** * Properties *)

(** ** Loops *)

Lemma bind_Ok {A B} (m : result A) (f : A → result B) a :
  m = Ok a → (m ≫= f) = f a.
Proof. by intros ->. Qed.

Lemma for_in_inv {A B} (P : nat → B → Prop) (l : list A) body (acc : B) :
  P 0%nat acc →
  (∀ i x b, l !! i = Some x → P i b → ∃ b', body x b = Ok b' ∧ P (S i) b') →
  ∃ b', for_in l body acc = Ok b' ∧ P (length l) b'.
Proof.
  revert P acc. induction l as [|x l IH]; intros P acc H0 Hstep; simpl.
  - eauto.
  - destruct (Hstep 0%nat x acc eq_refl H0) as (b1 & -> & H1). simpl.
    apply (IH (λ i, P (S i))); [done|].
    intros i y b Hy Hb. by apply (Hstep (S i)).
Qed.

(** ** Python lists *)

Lemma list_index_lookup {A} `{EqDecision A} (l : list A) i x :
  NoDup l → l !! i = Some x → list_index x l = Ok i.
Proof.
  intros Hnd Hi. unfold list_index.
  assert (list_find (λ y, y = x) l = Some (i, x)) as ->; [|done].
  apply list_find_Some. split_and!; [done..|].
  intros j y Hj Hlt ->. pose proof (NoDup_lookup _ _ _ _ Hnd Hi Hj). lia.
Qed.

Lemma list_index_Ok {A} `{EqDecision A} (l : list A) i x :
  list_index x l = Ok i → l !! i = Some x.
Proof.
  unfold list_index. destruct (list_find _ l) as [[j y]|] eqn:E; [|done].
  simpl. intros [= <-]. apply list_find_Some in E as (? & -> & _). done.
Qed.

Lemma list_set_Ok {A} (l : list A) i v :
  (i < length l)%nat → list_set l i v = Ok (<[i := v]> l).
Proof. intros. unfold list_set. by rewrite decide_True. Qed.

Lemma list_set_unit m i a :
  (i < m)%nat → list_set (replicate m 0%Q) i a = Ok (unit_row m i a).
Proof. intros. apply list_set_Ok. by rewrite length_replicate. Qed.

(** ** Arrays *)

Lemma range_lookup m i : (i < m)%nat → range m !! i = Some i.
Proof. intros. unfold range. by rewrite lookup_seq_lt. Qed.

Lemma range_length m : length (range m) = m.
Proof. apply length_seq. Qed.

Lemma range_lookup_Some m i j : range m !! i = Some j → i = j ∧ (i < m)%nat.
Proof. unfold range. intros H%lookup_seq. lia. Qed.

Lemma tabulate_wf f r c : wf (tabulate f r c).
Proof.
  split; simpl.
  - by rewrite length_fmap, range_length.
  - apply Forall_fmap, Forall_forall. intros i _. simpl.
    by rewrite length_fmap, range_length.
Qed.

Lemma tabulate_row f r c i :
  (i < r)%nat → data (tabulate f r c) !! i = Some (f i <$> range c).
Proof. intros. simpl. by rewrite list_lookup_fmap, range_lookup. Qed.

Lemma tabulate_get f r c i j :
  (i < r)%nat → (j < c)%nat → get (tabulate f r c) i j = Ok (f i j).
Proof.
  intros. unfold get. rewrite tabulate_row by done. simpl.
  by rewrite list_lookup_fmap, range_lookup.
Qed.

Lemma tabulate_ext f g r c :
  (∀ i j, (i < r)%nat → (j < c)%nat → f i j = g i j) →
  tabulate f r c = tabulate g r c.
Proof.
  intros H. unfold tabulate. f_equal.
  apply list_eq. intros i. rewrite !list_lookup_fmap.
  destruct (range r !! i) as [i'|] eqn:Ei; [|done]. simpl. f_equal.
  apply range_lookup_Some in Ei as [<- ?].
  apply list_eq. intros j. rewrite !list_lookup_fmap.
  destruct (range c !! j) as [j'|] eqn:Ej; [|done]. simpl. f_equal.
  apply range_lookup_Some in Ej as [<- ?]. auto.
Qed.

Lemma tabulate_set f r c i j v :
  (i < r)%nat → (j < c)%nat →
  set (tabulate f r c) i j v =
  Ok (tabulate (λ i' j', if decide (i' = i ∧ j' = j) then v else f i' j') r c).
Proof.
  intros Hi Hj. unfold set. rewrite tabulate_row by done. simpl.
  rewrite length_fmap, range_length, decide_True by done.
  f_equal. unfold tabulate. f_equal.
  apply list_eq. intros i'.
  destruct (decide (i' = i)) as [->|Hne].
  - rewrite list_lookup_insert_eq by (by rewrite length_fmap, range_length).
    rewrite list_lookup_fmap, range_lookup by done. simpl. f_equal.
    apply list_eq. intros j'.
    destruct (decide (j' = j)) as [->|Hne].
    + rewrite list_lookup_insert_eq by (by rewrite length_fmap, range_length).
      rewrite list_lookup_fmap, range_lookup by done. simpl.
      by rewrite decide_True.
    + rewrite list_lookup_insert_ne by done. rewrite !list_lookup_fmap.
      destruct (range c !! j') as [j''|] eqn:Ej; [|done]. simpl.
      apply range_lookup_Some in Ej as [<- ?].
      rewrite decide_False; [done|]. intros [_ ?]; done.
  - rewrite list_lookup_insert_ne by done. rewrite !list_lookup_fmap.
    destruct (range r !! i') as [i''|] eqn:Ei; [|done]. simpl. f_equal.
    apply range_lookup_Some in Ei as [<- ?].
    apply list_eq. intros j'. rewrite !list_lookup_fmap.
    destruct (range c !! j') as [j''|] eqn:Ej; [|done]. simpl.
    rewrite decide_False; [done|]. intros [? _]; done.
Qed.

Lemma zeros_tabulate r c : zeros r c = tabulate (λ _ _, 0%Q) r c.
Proof.
  unfold zeros, full, tabulate. f_equal.
  apply list_eq. intros i. rewrite list_lookup_fmap.
  destruct (decide (i < r)%nat).
  - rewrite lookup_replicate_2, range_lookup by done. simpl. f_equal.
    apply list_eq. intros j. rewrite list_lookup_fmap.
    destruct (decide (j < c)%nat).
    + by rewrite lookup_replicate_2, range_lookup.
    + rewrite !lookup_ge_None_2; [done|rewrite range_length; lia|rewrite length_replicate; lia].
  - rewrite !lookup_ge_None_2; [done|rewrite range_length; lia|rewrite length_replicate; lia].
Qed.

Lemma wf_get a i j :
  wf a → (i < shape0 a)%nat → (j < shape1 a)%nat → ∃ v, get a i j = Ok v.
Proof.
  intros [Hlen Hrows] Hi Hj. unfold get.
  destruct (lookup_lt_is_Some_2 (data a) i) as [row Hrow]; [lia|].
  rewrite Hrow. simpl.
  assert (length row = shape1 a) as Hr.
  { rewrite Forall_forall in Hrows. apply Hrows. by eapply list_elem_of_lookup_2. }
  destruct (lookup_lt_is_Some_2 row j) as [v Hv]; [lia|].
  rewrite Hv. eauto.
Qed.

Lemma list_remove_spec {A} `{EqDecision A} (x : A) (l : list A) :
  x ∈ l → NoDup l →
  ∃ l', list_remove x l = Ok l' ∧ S (length l') = length l ∧
        ∀ y, y ∈ l' ↔ y ∈ l ∧ y ≠ x.
Proof.
  induction l as [|y l IH]; intros Hin Hnd.
  - by apply elem_of_nil in Hin.
  - simpl. apply NoDup_cons in Hnd as [Hy Hnd].
    destruct (decide (y = x)) as [->|Hne].
    + exists l. split_and!; [done..|]. intros z. rewrite elem_of_cons.
      split; [intros ?; split; [by right|by intros ->]|by intros [[->|?] ?]].
    + apply elem_of_cons in Hin as [->|Hin]; [done|].
      destruct (IH Hin Hnd) as (l' & -> & Hlen & Hl'). simpl.
      exists (y :: l'). split_and!; [done|simpl; lia|].
      intros z. rewrite !elem_of_cons, Hl'.
      split; [intros [->|[? ?]]; split; auto|intros [[->|?] ?]; auto].
Qed.

Section tables.
Variables (S_ A_ : list string) (T : ndarray) (pi : gmap string string).

Local Abbreviation n := (n S_).
Local Abbreviation k := (k A_).
Local Abbreviation si := (si S_).
Local Abbreviation ai := (ai A_).
Local Abbreviation trans := (trans S_ A_ T).

Hypothesis S_nodup : NoDup S_.

Lemma si_lookup i s : S_ !! i = Some s → si s = Ok i.
Proof. by apply list_index_lookup. Qed.

Lemma lookup_lt_n i s : S_ !! i = Some s → (i < n)%nat.
Proof. apply lookup_lt_Some. Qed.

Lemma trans_mat_tabulate (f : string → result string) (E : nat → nat → Q) :
  (∀ i i' s s', S_ !! i = Some s → S_ !! i' = Some s' →
     (a ← f s; trans s a s') = Ok (E i i')) →
  trans_mat S_ A_ T f = Ok (tabulate E n n).
Proof.
  intros HE. unfold trans_mat.
  destruct (for_in_inv
    (λ m Tm, Tm = tabulate (λ i i', if decide (i < m)%nat then E i i' else 0%Q) n n)
    S_ (λ from_state Tm,
      for_in S_ (λ to_state Tm,
        a ← f from_state; t ← trans from_state a to_state;
        i ← si from_state; j ← si to_state; set Tm i j t) Tm)
    (zeros n n)) as (M & -> & ->).
  - rewrite zeros_tabulate. apply tabulate_ext. intros. by rewrite decide_False by lia.
  - intros m s Tm Hs ->.
    destruct (for_in_inv
      (λ j Tm, Tm = tabulate (λ i i',
         if decide (i < m ∨ (i = m ∧ i' < j))%nat then E i i' else 0%Q) n n)
      S_ (λ to_state Tm,
        a ← f s; t ← trans s a to_state;
        i ← si s; j ← si to_state; set Tm i j t)
      (tabulate (λ i i', if decide (i < m)%nat then E i i' else 0%Q) n n))
      as (M & -> & ->).
    + apply tabulate_ext. intros i j _ _.
      destruct (decide (i < m)%nat).
      * rewrite decide_True; [done|by left].
      * rewrite decide_False; [done|lia].
    + intros j s' Tm Hs' ->.
      specialize (HE m j s s' Hs Hs').
      destruct (f s) as [a|]; [|done]. simpl in *. rewrite HE. simpl.
      rewrite (si_lookup m s), (si_lookup j s') by done. simpl.
      rewrite tabulate_set by (by eapply lookup_lt_n).
      eexists; split; [done|].
      apply tabulate_ext. intros i i' _ _.
      destruct (decide (i = m ∧ i' = j)) as [[-> ->]|Hne].
      * rewrite decide_True; [done|right; lia].
      * destruct (decide (i < m ∨ i = m ∧ i' < j)%nat).
        -- rewrite decide_True; [done|lia].
        -- rewrite decide_False; [done|lia].
    + eexists; split; [done|].
      apply tabulate_ext. intros i i' _ Hi'. fold n in Hi'.
      destruct (decide (i < S m)%nat).
      * rewrite decide_True; [done|]. unfold LpIrl.n in *. lia.
      * rewrite decide_False; [done|lia].
  - f_equal. apply tabulate_ext. intros i i' Hi _.
    rewrite decide_True; [done|]. unfold LpIrl.n in *. lia.
Qed.
End tables.

Section tables2.
Variables (S_ A_ : list string) (T : ndarray) (pi : gmap string string).

Local Abbreviation n := (n S_).
Local Abbreviation k := (k A_).
Local Abbreviation si := (si S_).
Local Abbreviation ai := (ai A_).
Local Abbreviation trans := (trans S_ A_ T).

Hypothesis S_nodup : NoDup S_.

Local Abbreviation deviation := (non_policy_action A_ pi).

Lemma Tnotpi_tabulate (N : nat → nat → nat → Q) :
  (∀ idx i i' s s', (idx < k - 1)%nat →
     S_ !! i = Some s → S_ !! i' = Some s' →
     (a ← deviation idx s; trans s a s') = Ok (N idx i i')) →
  ∃ Tn, Tnotpi S_ A_ T pi = Ok Tn ∧
    ∀ idx, Tn !! idx =
      if decide (idx < k - 1)%nat then Some (tabulate (N idx) n n) else None.
Proof.
  intros HN. unfold Tnotpi.
  edestruct (for_in_inv
    (λ m (Tn : gmap nat ndarray), ∀ idx, Tn !! idx =
       if decide (idx < m)%nat then Some (tabulate (N idx) n n) else None)
    (range (k - 1))) as (Tn & -> & HTn); last first.
  { exists Tn. split; [done|]. by rewrite range_length in HTn. }
  - intros m ? Tn [<- Hm]%range_lookup_Some HTn.
    edestruct (for_in_inv
      (λ r (Tn' : gmap nat ndarray), Tn' =
         <[m := tabulate (λ i i', if decide (i < r)%nat then N m i i' else 0%Q) n n]> Tn)
      S_) as (Tn' & -> & ->); last first.
    { eexists; split; [done|]. intros idx.
      destruct (decide (idx = m)) as [->|Hne].
      - rewrite lookup_insert_eq, decide_True by lia. f_equal.
        apply tabulate_ext. intros i i' Hi _. rewrite decide_True; [done|].
        unfold LpIrl.n in *. lia.
      - rewrite lookup_insert_ne, HTn by done.
        destruct (decide (idx < m)%nat).
        + rewrite decide_True; [done|lia].
        + rewrite decide_False; [done|lia]. }
    + intros r s Tn' Hs ->.
      pose proof (HN m r r s s Hm Hs Hs) as Hdev.
      unfold non_policy_action in *.
      destruct (pi_lookup pi s) as [p|] eqn:Ep; [|done]. simpl in *.
      destruct (list_remove p A_) as [Atmp|] eqn:EA; [|done]. simpl in *.
      destruct (Atmp !! m) as [a|] eqn:Ea; [|done]. simpl in *.
      edestruct (for_in_inv
        (λ j (Tn' : gmap nat ndarray), Tn' =
           <[m := tabulate (λ i i',
              if decide (i < r ∨ (i = r ∧ i' < j))%nat then N m i i' else 0%Q) n n]> Tn)
        S_) as (Tn' & -> & ->); last first.
      { eexists; split; [done|]. f_equal.
        apply tabulate_ext. intros i i' _ Hi'.
        destruct (decide (i < S r)%nat).
        - rewrite decide_True; [done|]. unfold LpIrl.n in *. lia.
        - rewrite decide_False; [done|lia]. }
      * intros j s' Tn' Hs' ->.
        pose proof (HN m r j s s' Hm Hs Hs') as Ht.
        rewrite Ep in Ht. simpl in Ht. rewrite EA in Ht. simpl in Ht.
        rewrite Ea in Ht. simpl in Ht.
        rewrite Ht. simpl. rewrite lookup_insert_eq. simpl.
        rewrite (si_lookup S_ S_nodup r s), (si_lookup S_ S_nodup j s') by done.
        simpl. rewrite tabulate_set by (by eapply lookup_lt_Some). simpl.
        eexists; split; [done|]. rewrite insert_insert_eq. f_equal.
        apply tabulate_ext. intros i i' _ _.
        destruct (decide (i = r ∧ i' = j)) as [[-> ->]|Hne].
        -- rewrite decide_True; [done|right; lia].
        -- destruct (decide (i < r ∨ i = r ∧ i' < j)%nat).
           ++ rewrite decide_True; [done|lia].
           ++ rewrite decide_False; [done|lia].
      * f_equal. apply tabulate_ext. intros i i' _ _.
        destruct (decide (i < r)%nat).
        -- rewrite decide_True; [done|by left].
        -- rewrite decide_False; [done|lia].
    + f_equal. rewrite zeros_tabulate. apply tabulate_ext.
      intros. by rewrite decide_False by lia.
  - intros idx. by rewrite lookup_empty, decide_False by lia.
Qed.
End tables2.

Lemma for_in_app {A B} (l1 l2 : list A) (body : A → B → result B) acc :
  for_in (l1 ++ l2) body acc = (acc' ← for_in l1 body acc; for_in l2 body acc').
Proof.
  revert acc. induction l1 as [|x l1 IH]; intros acc; simpl; [done|].
  destruct (body x acc); simpl; [apply IH|done].
Qed.

Lemma range_S m : range (S m) = range m ++ [m].
Proof. unfold range. by rewrite seq_S. Qed.

Lemma Qmult_1_r_eq (q : Q) : (q * 1)%Q = q.
Proof.
  destruct q as [a b]. unfold Qmult. simpl.
  by rewrite Z.mul_1_r, Pos.mul_1_r.
Qed.

(** A loop whose body stacks [h] rows [R i] under [A_ub] and [h] bounds
    [Z i] under [b_ub]. *)
Lemma append_loop (m w h : nat) (body : nat → lp → result lp)
    (R Z : nat → list (list Q)) :
  (∀ i c A b, (i < m)%nat → shape1 A = w → shape1 b = 1%nat →
     body i (c, A, b) =
     Ok (c, mk_ndarray (shape0 A + h) w (data A ++ R i),
            mk_ndarray (shape0 b + h) 1 (data b ++ Z i))) →
  ∀ c A b, shape1 A = w → shape1 b = 1%nat →
  for_in (range m) body (c, A, b) =
  Ok (c, mk_ndarray (shape0 A + m * h) w (data A ++ concat (R <$> range m)),
         mk_ndarray (shape0 b + m * h) 1 (data b ++ concat (Z <$> range m))).
Proof.
  induction m as [|m IH]; intros Hbody c A b HA Hb.
  - simpl. rewrite !Nat.add_0_r, !app_nil_r. by destruct A, b; simpl in *; subst.
  - rewrite range_S, for_in_app, IH by auto. simpl.
    rewrite Hbody by (simpl; auto). simpl.
    rewrite !fmap_app, !concat_app. simpl. rewrite !app_nil_r, <- !app_assoc.
    replace (shape0 A + m * h + h)%nat with (shape0 A + S m * h)%nat by lia.
    by replace (shape0 b + m * h + h)%nat with (shape0 b + S m * h)%nat by lia.
Qed.

Lemma unit_row_length m i a : length (unit_row m i a) = m.
Proof. unfold unit_row. by rewrite length_insert, length_replicate. Qed.

Lemma vstack_row A r :
  shape1 A = length r →
  vstack A (of_row r) =
  Ok (mk_ndarray (shape0 A + 1) (shape1 A) (data A ++ [r])).
Proof. intros H. unfold vstack. simpl. by rewrite decide_True. Qed.

Lemma vstack_scalar b v :
  shape1 b = 1%nat →
  vstack b (of_scalar v) = Ok (mk_ndarray (shape0 b + 1) 1 (data b ++ [[v]])).
Proof. intros H. unfold vstack. simpl. rewrite decide_True by done. by rewrite H. Qed.

Section stages.
Variables (S_ A_ : list string).
Variables (Tp : ndarray) (Tn : gmap nat ndarray) (Tinv : ndarray).

Local Abbreviation n := (n S_).
Local Abbreviation k := (k A_).
Local Abbreviation constraint_rows := (constraint_rows Tp Tn Tinv).
Local Abbreviation css_rows := (css_rows S_).
Local Abbreviation l1_rows := (l1_rows S_).

(** The deviation blocks: all [k - 1] of them are computed, and are
    [n x n]. *)
Variable block : nat → ndarray.
Hypothesis block_rows :
  ∀ i, (i < k - 1)%nat → constraint_rows i = Ok (block i).
Hypothesis block_shape0 : ∀ i, (i < k - 1)%nat → shape0 (block i) = n.
Hypothesis block_shape1 : ∀ i, (i < k - 1)%nat → shape1 (block i) = n.
Hypothesis block_wf : ∀ i, (i < k - 1)%nat → wf (block i).

Lemma add_optimal_policy_constraints_eq c A b :
  shape1 A = n → shape1 b = 1%nat →
  add_optimal_policy_constraints A_ Tp Tn Tinv (c, A, b) =
  Ok (c,
      mk_ndarray (shape0 A + (k - 1) * n) n
        (data A ++ concat ((λ i, data (block i)) <$> range (k - 1))),
      mk_ndarray (shape0 b + (k - 1) * n) 1
        (data b ++ concat ((λ _, replicate n [0%Q]) <$> range (k - 1)))).
Proof.
  intros HA Hb. unfold add_optimal_policy_constraints.
  apply (append_loop (k - 1) n n); [|done..].
  intros i c' A' b' Hi HA' Hb'.
  rewrite block_rows by done. simpl. unfold vstack.
  rewrite block_shape1, decide_True by done. simpl.
  rewrite decide_True by done. simpl.
  by rewrite block_shape0, HA', Hb' by done.
Qed.

(** Padding every row of [A_ub] with [m] zero columns. *)
Lemma hstack_zeros A m :
  length (data A) = shape0 A →
  hstack [A; zeros (shape0 A) m] =
  Ok (mk_ndarray (shape0 A) (shape1 A + m)
        ((λ r, r ++ replicate m 0%Q) <$> data A)).
Proof.
  intros HA. simpl. unfold hstack2. simpl. rewrite decide_True by done.
  simpl. do 2 f_equal. rewrite <- HA. clear HA.
  induction (data A) as [|r l IH]; simpl; [done|]. by rewrite IH.
Qed.

Lemma hstack_c w crow (v : Q) :
  hstack [mk_ndarray 1 w [crow]; scale v (ones 1 n)] =
  Ok (mk_ndarray 1 (w + n) [crow ++ replicate n v]).
Proof.
  simpl. unfold hstack2. simpl. unfold vscale.
  by rewrite fmap_replicate, Qmult_1_r_eq.
Qed.

Lemma hstack_css w B :
  shape0 B = n → length (data B) = n →
  hstack [B; zeros (shape0 B) (w - n); identity n] =
  Ok (mk_ndarray n (shape1 B + (w - n) + n) (css_rows w B)).
Proof.
  intros HB Hlen. simpl. unfold hstack2. simpl.
  rewrite decide_True by done. simpl. rewrite decide_True by done. simpl.
  rewrite HB. do 2 f_equal. unfold LpIrl.css_rows.
  apply list_eq. intros i. rewrite !lookup_zip_with, list_lookup_fmap.
  destruct (data B !! i) as [r|] eqn:Er; [|done]. simpl.
  pose proof (lookup_lt_Some _ _ _ Er) as Hi. rewrite Hlen in Hi.
  rewrite lookup_replicate_2, range_lookup by done. simpl.
  by rewrite app_assoc.
Qed.

Lemma add_costly_single_step_constraints_eq w crow A b :
  (n ≤ w)%nat → shape1 A = w → length (data A) = shape0 A →
  shape1 b = 1%nat →
  add_costly_single_step_constraints S_ A_ Tp Tn Tinv
    (mk_ndarray 1 w [crow], A, b) =
  Ok (mk_ndarray 1 (w + n) [crow ++ replicate n (-1)%Q],
      mk_ndarray (shape0 A + (k - 1) * n) (w + n)
        (((λ r, r ++ replicate n 0%Q) <$> data A) ++
         concat ((λ i, css_rows w (block i)) <$> range (k - 1))),
      mk_ndarray (shape0 b + (k - 1) * n) 1
        (data b ++ concat ((λ _, replicate n [0%Q]) <$> range (k - 1)))).
Proof.
  intros Hw HA Hlen Hb. unfold add_costly_single_step_constraints.
  rewrite hstack_c. cbn [mbind result_bind].
  rewrite hstack_zeros by done. cbn [mbind result_bind shape1].
  replace (w + n - n)%nat with w by lia.
  rewrite (append_loop (k - 1) (w + n) n _
    (λ i, css_rows w (block i)) (λ _, replicate n [0%Q]));
    [by rewrite HA|..|by simpl; rewrite HA|done].
  intros i c' A' b' Hi HA' Hb'.
  rewrite block_rows by done. cbn [mbind result_bind].
  rewrite decide_True by done.
  assert (length (data (block i)) = n) as Hl.
  { destruct (block_wf i Hi) as [-> _]. by apply block_shape0. }
  rewrite hstack_css by auto. cbn [mbind result_bind].
  unfold vstack. cbn [shape0 shape1 data zeros full].
  rewrite block_shape1 by done.
  rewrite !decide_True by lia. cbn [mbind result_bind].
  by rewrite HA', Hb'.
Qed.

Lemma add_rmax_constraints_eq w c A b Rmax :
  (n ≤ w)%nat → shape1 A = w → shape1 b = 1%nat →
  add_rmax_constraints S_ (c, A, b) Rmax =
  Ok (c,
      mk_ndarray (shape0 A + n * 1) w
        (data A ++ concat ((λ i, [unit_row w i 1%Q]) <$> range n)),
      mk_ndarray (shape0 b + n * 1) 1
        (data b ++ concat ((λ _, [[Rmax]]) <$> range n))).
Proof.
  intros Hw HA Hb. unfold add_rmax_constraints.
  apply (append_loop n w 1); [|done..].
  intros i c' A' b' Hi HA' Hb'. rewrite HA'.
  rewrite list_set_unit by lia. cbn [mbind result_bind].
  rewrite vstack_row by (by rewrite unit_row_length).
  cbn [mbind result_bind]. rewrite vstack_scalar by done.
  cbn [mbind result_bind]. by rewrite HA'.
Qed.

Lemma add_l1norm_constraints_eq w crow A b (l1 : Q) :
  (n ≤ w)%nat → shape1 A = w → length (data A) = shape0 A →
  shape1 b = 1%nat →
  add_l1norm_constraints S_ (mk_ndarray 1 w [crow], A, b) l1 =
  Ok (mk_ndarray 1 (w + n) [crow ++ replicate n l1],
      mk_ndarray (shape0 A + n * 2) (w + n)
        (((λ r, r ++ replicate n 0%Q) <$> data A) ++
         concat (l1_rows w <$> range n)),
      mk_ndarray (shape0 b + n * 2) 1
        (data b ++ concat ((λ _, [[0%Q]; [0%Q]]) <$> range n))).
Proof.
  intros Hw HA Hlen Hb. unfold add_l1norm_constraints.
  rewrite hstack_c. cbn [mbind result_bind].
  rewrite hstack_zeros by done. cbn [mbind result_bind shape1].
  replace (w + n - n)%nat with w by lia.
  rewrite (append_loop n (w + n) 2 _ (l1_rows w) (λ _, [[0%Q]; [0%Q]]));
    [by rewrite HA|..|by simpl; rewrite HA|done].
  intros i c' A' b' Hi HA' Hb'. rewrite HA'.
  rewrite list_set_unit by lia. cbn [mbind result_bind].
  rewrite vstack_row by (by rewrite unit_row_length).
  cbn [mbind result_bind]. rewrite vstack_scalar by done.
  cbn [mbind result_bind shape1]. rewrite HA'.
  rewrite list_set_unit by lia. cbn [mbind result_bind].
  rewrite list_set_Ok by (rewrite unit_row_length; lia).
  cbn [mbind result_bind].
  rewrite vstack_row
    by (cbn [shape1]; by rewrite length_insert, unit_row_length).
  cbn [mbind result_bind]. rewrite vstack_scalar by done.
  cbn [mbind result_bind shape0 shape1 data].
  unfold LpIrl.l1_rows. rewrite <- !app_assoc. simpl.
  by rewrite <- !Nat.add_assoc.
Qed.
End stages.

Lemma wf_row_eq a i (f : nat → Q) :
  wf a → (i < shape0 a)%nat →
  (∀ j, (j < shape1 a)%nat → get a i j = Ok (f j)) →
  data a !! i = Some (f <$> range (shape1 a)).
Proof.
  intros [Hlen Hrows] Hi Hf.
  destruct (lookup_lt_is_Some_2 (data a) i) as [row Hrow]; [lia|].
  rewrite Hrow. f_equal.
  assert (length row = shape1 a) as Hr.
  { rewrite Forall_forall in Hrows. apply Hrows. by eapply list_elem_of_lookup_2. }
  apply list_eq. intros j. rewrite list_lookup_fmap.
  destruct (decide (j < shape1 a)%nat) as [Hj|Hj].
  - rewrite range_lookup by done. simpl.
    specialize (Hf j Hj). unfold get in Hf. rewrite Hrow in Hf. simpl in Hf.
    destruct (row !! j); simpl in Hf; congruence.
  - rewrite !lookup_ge_None_2; [done|rewrite range_length; lia|lia].
Qed.

Section inputs.
Variables (S_ A_ : list string) (T : ndarray) (pi : gmap string string).

Local Abbreviation n := (n S_).
Local Abbreviation k := (k A_).
Local Abbreviation trans := (trans S_ A_ T).
Local Abbreviation non_policy_action := (non_policy_action A_ pi).

Hypothesis Hwf : well_formed S_ A_ T pi.

Lemma trans_get i i' j s s' a :
  S_ !! i = Some s → S_ !! i' = Some s' → A_ !! j = Some a →
  trans s a s' = get T (i * k + j) i'.
Proof.
  destruct Hwf as (HS & HA & _). intros Hi Hi' Hj. unfold LpIrl.trans.
  unfold si, ai.
  rewrite (list_index_lookup S_ i s), (list_index_lookup A_ j a),
    (list_index_lookup S_ i' s') by done.
  done.
Qed.

Lemma trans_Ok i i' s s' a :
  S_ !! i = Some s → S_ !! i' = Some s' → a ∈ A_ →
  ∃ j v, A_ !! j = Some a ∧ trans s a s' = Ok v ∧
         get T (i * k + j) i' = Ok v.
Proof.
  intros Hi Hi' [j Hj]%list_elem_of_lookup_1.
  destruct Hwf as (_ & _ & HT & HT0 & HT1 & _).
  pose proof (lookup_lt_Some _ _ _ Hi). pose proof (lookup_lt_Some _ _ _ Hi').
  pose proof (lookup_lt_Some _ _ _ Hj).
  destruct (wf_get T (i * k + j) i' HT) as [v Hv].
  { rewrite HT0. unfold LpIrl.n, LpIrl.k. nia. }
  { rewrite HT1. done. }
  exists j, v. by rewrite (trans_get i i' j).
Qed.

Lemma pi_total i s :
  S_ !! i = Some s → ∃ a, pi !! s = Some a ∧ a ∈ A_.
Proof.
  intros Hi. destruct Hwf as (_ & _ & _ & _ & _ & Hpi).
  rewrite Forall_forall in Hpi. apply Hpi. by eapply list_elem_of_lookup_2.
Qed.

Lemma non_policy_action_Ok idx i s :
  S_ !! i = Some s → (idx < k - 1)%nat →
  ∃ p a, pi !! s = Some p ∧ non_policy_action idx s = Ok a ∧
         a ∈ A_ ∧ a ≠ p.
Proof.
  intros Hi Hidx. destruct (pi_total i s Hi) as (p & Hp & HpA).
  destruct Hwf as (_ & HA & _).
  destruct (list_remove_spec p A_ HpA HA) as (Atmp & HAtmp & Hlen & Hin).
  destruct (lookup_lt_is_Some_2 Atmp idx) as [a Ha].
  { unfold LpIrl.k in *. lia. }
  exists p, a. unfold LpIrl.non_policy_action, pi_lookup.
  rewrite Hp. simpl. rewrite HAtmp. simpl. rewrite Ha. simpl.
  split_and!; [done..| |]; by apply (Hin a), list_elem_of_lookup_2 with idx.
Qed.

Lemma non_policy_action_cover i s p a :
  S_ !! i = Some s → pi !! s = Some p → a ∈ A_ → a ≠ p →
  ∃ idx, (idx < k - 1)%nat ∧ non_policy_action idx s = Ok a.
Proof.
  intros Hi Hp Ha Hne. destruct (pi_total i s Hi) as (p' & Hp' & HpA).
  assert (p' = p) as -> by congruence.
  destruct Hwf as (_ & HA & _).
  destruct (list_remove_spec p A_ HpA HA) as (Atmp & HAtmp & Hlen & Hin).
  assert (a ∈ Atmp) as [idx Hidx]%list_elem_of_lookup_1 by by apply Hin.
  exists idx. split.
  - pose proof (lookup_lt_Some _ _ _ Hidx). unfold LpIrl.k. lia.
  - unfold LpIrl.non_policy_action, pi_lookup.
    rewrite Hp. simpl. rewrite HAtmp. simpl. by rewrite Hidx.
Qed.

(** The table [Tpi]: row [i] is the row of [T] for state [i] and its
    policy action. *)
Lemma Tpi_spec :
  ∃ Tp, Tpi S_ A_ T pi = Ok Tp ∧ shape0 Tp = n ∧ shape1 Tp = n ∧ wf Tp ∧
    ∀ i s a j, S_ !! i = Some s → pi !! s = Some a → A_ !! j = Some a →
      data Tp !! i = data T !! (i * k + j)%nat ∧
      ∀ i' s', S_ !! i' = Some s' → get Tp i i' = trans s a s'.
Proof.
  pose (E := λ i i' : nat,
    match S_ !! i, S_ !! i' with
    | Some s, Some s' =>
        match (a ← pi_lookup pi s; trans s a s') with Ok v => v | _ => 0%Q end
    | _, _ => 0%Q
    end).
  assert (∀ i i' s s' a, S_ !! i = Some s → S_ !! i' = Some s' →
    pi !! s = Some a → trans s a s' = Ok (E i i')) as HE.
  { intros i i' s s' a Hi Hi' Ha. unfold E. rewrite Hi, Hi'.
    unfold pi_lookup. rewrite Ha. simpl.
    destruct (pi_total i s Hi) as (a' & Ha' & HA).
    assert (a' = a) as -> by congruence.
    destruct (trans_Ok i i' s s' a Hi Hi' HA) as (j & v & _ & -> & _). done. }
  exists (tabulate E n n). split_and!; [|done..|apply tabulate_wf|].
  - destruct Hwf as (HS & _). apply trans_mat_tabulate; [done|].
    intros i i' s s' Hi Hi'. destruct (pi_total i s Hi) as (a & Ha & _).
    unfold pi_lookup. rewrite Ha. simpl. by apply HE.
  - intros i s a j Hi Ha Hj.
    pose proof (lookup_lt_Some _ _ _ Hi) as Hlt.
    pose proof (lookup_lt_Some _ _ _ Hj) as Hltj.
    destruct Hwf as (_ & _ & HT & HT0 & HT1 & _). split.
    + rewrite tabulate_row by done. symmetry. rewrite <- HT1.
      apply wf_row_eq; [done|rewrite HT0; unfold LpIrl.n, LpIrl.k; nia|].
      intros i' Hi'. rewrite HT1 in Hi'.
      destruct (lookup_lt_is_Some_2 S_ i' Hi') as [s' Hs'].
      rewrite <- (trans_get i i' j s s' a) by done. by apply HE.
    + intros i' s' Hi'. pose proof (lookup_lt_Some _ _ _ Hi').
      rewrite tabulate_get by done. symmetry. by apply HE.
Qed.

(** The tables [Tnotpi]: one per deviation index; row [i] of the
    [idx]-th is the row of [T] for state [i] and the [idx]-th non-policy
    action there. *)
Lemma Tnotpi_spec :
  ∃ Tn, Tnotpi S_ A_ T pi = Ok Tn ∧
    (∀ idx, (k - 1 ≤ idx)%nat → Tn !! idx = None) ∧
    ∀ idx, (idx < k - 1)%nat →
      ∃ M, Tn !! idx = Some M ∧ shape0 M = n ∧ shape1 M = n ∧ wf M ∧
        ∀ i s a j, S_ !! i = Some s → non_policy_action idx s = Ok a →
          A_ !! j = Some a →
          data M !! i = data T !! (i * k + j)%nat ∧
          ∀ i' s', S_ !! i' = Some s' → get M i i' = trans s a s'.
Proof.
  pose (N := λ idx i i' : nat,
    match S_ !! i, S_ !! i' with
    | Some s, Some s' =>
        match (a ← non_policy_action idx s; trans s a s') with
        | Ok v => v
        | _ => 0%Q
        end
    | _, _ => 0%Q
    end).
  assert (∀ idx i i' s s' a, S_ !! i = Some s → S_ !! i' = Some s' →
    (idx < k - 1)%nat → non_policy_action idx s = Ok a →
    trans s a s' = Ok (N idx i i')) as HN.
  { intros idx i i' s s' a Hi Hi' Hidx Ha. unfold N. rewrite Hi, Hi', Ha.
    simpl. destruct (non_policy_action_Ok idx i s Hi Hidx)
      as (p & a' & _ & Ha' & HA & _).
    assert (a' = a) as -> by congruence.
    destruct (trans_Ok i i' s s' a Hi Hi' HA) as (j & v & _ & -> & _). done. }
  destruct (Tnotpi_tabulate S_ A_ T pi (proj1 Hwf) N) as (Tn & HTn & Hlook).
  { intros idx i i' s s' Hidx Hi Hi'.
    destruct (non_policy_action_Ok idx i s Hi Hidx) as (p & a & _ & Ha & _).
    rewrite Ha. simpl. by apply HN. }
  exists Tn. split_and!; [done| |].
  - intros idx Hidx. rewrite Hlook, decide_False; [done|lia].
  - intros idx Hidx. exists (tabulate (N idx) n n).
    rewrite Hlook, decide_True by done.
    split_and!; [done..|apply tabulate_wf|].
    intros i s a j Hi Ha Hj.
    pose proof (lookup_lt_Some _ _ _ Hi) as Hlt.
    pose proof (lookup_lt_Some _ _ _ Hj) as Hltj.
    destruct Hwf as (_ & _ & HT & HT0 & HT1 & _). split.
    + rewrite tabulate_row by done. symmetry. rewrite <- HT1.
      apply wf_row_eq; [done|rewrite HT0; unfold LpIrl.n, LpIrl.k; nia|].
      intros i' Hi'. rewrite HT1 in Hi'.
      destruct (lookup_lt_is_Some_2 S_ i' Hi') as [s' Hs'].
      rewrite <- (trans_get i i' j s s' a) by done. by apply HN.
    + intros i' s' Hi'. pose proof (lookup_lt_Some _ _ _ Hi').
      rewrite tabulate_get by done. symmetry. by apply HN.
Qed.
End inputs.

(** ** Sums and dot products *)

Local Open Scope Q_scope.

Lemma vsum_app u v : vsum (u ++ v) == vsum u + vsum v.
Proof. induction u as [|a u IH]; simpl; [lra|]. rewrite IH. lra. Qed.

Lemma dot_nil_r u : dot u [] = 0.
Proof. by destruct u. Qed.

Lemma dot_cons a u b v : dot (a :: u) (b :: v) = a * b + dot u v.
Proof. done. Qed.

Lemma dot_replicate_0 m x : dot (replicate m 0) x == 0.
Proof.
  revert x. induction m as [|m IH]; intros [|b x]; simpl; try reflexivity.
  rewrite dot_cons, IH. lra.
Qed.

Lemma dot_pad r m x : dot (r ++ replicate m 0) x == dot r x.
Proof.
  revert x. induction r as [|a r IH]; intros x; simpl.
  - apply dot_replicate_0.
  - destruct x as [|b x]; [reflexivity|]. rewrite !dot_cons, IH. reflexivity.
Qed.

Lemma dot_take r x : dot r (take (length r) x) = dot r x.
Proof.
  revert x. induction r as [|a r IH]; intros [|b x]; simpl; try done.
  by rewrite !dot_cons, IH.
Qed.

Lemma dot_app u u' x :
  dot (u ++ u') x == dot u x + dot u' (drop (length u) x).
Proof.
  revert x. induction u as [|a u IH]; intros x; simpl.
  - rewrite drop_0. unfold dot at 2. simpl. lra.
  - destruct x as [|b x].
    + rewrite !dot_nil_r. lra.
    + rewrite !dot_cons, IH. simpl. lra.
Qed.

Lemma dot_insert u j a x :
  (j < length u)%nat →
  dot (<[j := a]> u) x ==
  dot u x + (a - default 0 (u !! j)) * default 0 (x !! j).
Proof.
  revert j x. induction u as [|c u IH]; intros j x Hj; simpl in Hj; [lia|].
  destruct j as [|j]; simpl.
  - destruct x as [|b x]; simpl; [rewrite !dot_nil_r; lra|].
    rewrite !dot_cons. lra.
  - destruct x as [|b x]; simpl; [rewrite !dot_nil_r; lra|].
    rewrite !dot_cons, IH by lia. lra.
Qed.

Lemma dot_unit_row m i a x :
  (i < m)%nat → dot (unit_row m i a) x == a * default 0 (x !! i).
Proof.
  intros Hi. unfold unit_row.
  rewrite dot_insert by (by rewrite length_replicate).
  rewrite dot_replicate_0, lookup_replicate_2 by done. simpl. lra.
Qed.

Lemma dot_vscale a u x : dot (vscale a u) x == a * dot u x.
Proof.
  revert x. induction u as [|c u IH]; intros [|b x]; simpl;
    rewrite ?dot_nil_r; try (unfold dot; simpl; lra).
  change (vscale a (c :: u)) with (a * c :: vscale a u).
  rewrite !dot_cons, IH. lra.
Qed.

Lemma dot_vadd u v x :
  length u = length v → dot (vadd u v) x == dot u x + dot v x.
Proof.
  revert v x. induction u as [|c u IH]; intros [|d v] [|b x] Hl;
    simpl in *; try lia; rewrite ?dot_nil_r; try (unfold dot; simpl; lra).
  change (vadd (c :: u) (d :: v)) with (c + d :: vadd u v).
  rewrite !dot_cons, IH by lia. lra.
Qed.

Lemma dot_vsub u v x :
  length u = length v → dot (vsub u v) x == dot u x - dot v x.
Proof.
  revert v x. induction u as [|c u IH]; intros [|d v] [|b x] Hl;
    simpl in *; try lia; rewrite ?dot_nil_r; try (unfold dot; simpl; lra).
  change (vsub (c :: u) (d :: v)) with (c - d :: vsub u v).
  rewrite !dot_cons, IH by lia. lra.
Qed.

Lemma vadd_length u v : length u = length v → length (vadd u v) = length u.
Proof. intros H. unfold vadd. rewrite length_zip_with. lia. Qed.

Lemma vscale_length a u : length (vscale a u) = length u.
Proof. apply length_fmap. Qed.

Lemma lincomb_length w r rows :
  Forall (λ b, length b = w) rows → length (lincomb w r rows) = w.
Proof.
  intros H. revert r. induction H as [|b rows Hb _ IH]; intros [|a r]; simpl;
    try (by rewrite length_replicate).
  rewrite vadd_length; rewrite vscale_length; [done|by rewrite IH].
Qed.

(** [(r @ B) . x = r . (B @ x)] *)
Lemma dot_lincomb w r rows x :
  Forall (λ b, length b = w) rows →
  dot (lincomb w r rows) x == dot r ((λ b, dot b x) <$> rows).
Proof.
  intros H. revert r. induction H as [|b rows Hb Hrows IH]; intros [|a r];
    simpl; rewrite ?dot_replicate_0, ?dot_nil_r; try reflexivity.
  rewrite dot_cons, dot_vadd, dot_vscale, IH; [reflexivity|].
  by rewrite vscale_length, lincomb_length.
Qed.

Close Scope Q_scope.

Lemma concat_const_range {A} m h (z : A) :
  concat ((λ _, replicate h z) <$> range m) = replicate (m * h) z.
Proof.
  induction m as [|m IH]; [done|].
  rewrite range_S, fmap_app, concat_app, IH. simpl. rewrite app_nil_r.
  by rewrite <- replicate_add, Nat.add_comm.
Qed.

Lemma concat_singletons {A B} (f : A → B) l :
  concat ((λ i, [f i]) <$> l) = f <$> l.
Proof. induction l as [|x l IH]; simpl; [done|]. by f_equal. Qed.

Lemma length_concat_range {A} (F : nat → list A) m h :
  (∀ i, (i < m)%nat → length (F i) = h) →
  length (concat (F <$> range m)) = (m * h)%nat.
Proof.
  induction m as [|m IH]; intros HF; [done|].
  rewrite range_S, fmap_app, concat_app, length_app, IH by (intros; apply HF; lia).
  simpl. rewrite app_nil_r, HF by lia. lia.
Qed.

Section blocks.
Variables (S_ : list string).
Variables (Tp : ndarray) (Tn : gmap nat ndarray) (Tinv : ndarray).
Local Abbreviation n := (n S_).

Hypothesis Tp_shape0 : shape0 Tp = n.
Hypothesis Tp_shape1 : shape1 Tp = n.
Hypothesis Tp_wf : wf Tp.
Hypothesis Tinv_shape0 : shape0 Tinv = n.
Hypothesis Tinv_shape1 : shape1 Tinv = n.
Hypothesis Tinv_wf : wf Tinv.

Lemma constraint_rows_spec i M :
  Tn !! i = Some M → shape0 M = n → shape1 M = n → wf M →
  ∃ D B, sub Tp M = Ok D ∧ matmul (scale (-1) D) Tinv = Ok B ∧
         constraint_rows Tp Tn Tinv i = Ok B ∧
         shape0 D = n ∧ shape1 D = n ∧ wf D ∧
         shape0 B = n ∧ shape1 B = n ∧ wf B.
Proof.
  intros HM HM0 HM1 [HMlen HMrows].
  destruct Tp_wf as [HTlen HTrows]. destruct Tinv_wf as [HIlen HIrows].
  set (D := mk_ndarray n n (zip_with vsub (data Tp) (data M))).
  set (B := mk_ndarray n n
    ((λ r, lincomb n r (data Tinv)) <$> (vscale (-1) <$> data D))).
  assert (sub Tp M = Ok D) as HD.
  { unfold sub. rewrite decide_True by (split; congruence).
    unfold D. by rewrite Tp_shape0, Tp_shape1. }
  assert (matmul (scale (-1) D) Tinv = Ok B) as HB.
  { unfold matmul. simpl. rewrite decide_True by congruence.
    unfold B. by rewrite Tinv_shape1. }
  exists D, B. split_and!; try done.
  - unfold constraint_rows. rewrite HM. simpl. by rewrite HD.
  - split; simpl; [rewrite length_zip_with; lia|].
    apply Forall_forall. intros r [j Hj]%list_elem_of_lookup_1.
    apply lookup_zip_with_Some in Hj as (u & v & -> & Hu & Hv).
    unfold vsub. rewrite length_zip_with.
    rewrite Forall_forall in HTrows, HMrows.
    rewrite (HTrows u), (HMrows v) by (by eapply list_elem_of_lookup_2). lia.
  - split; simpl; [rewrite !length_fmap, length_zip_with; lia|].
    apply Forall_fmap, Forall_forall. intros r _. simpl.
    rewrite lincomb_length; [done|]. by rewrite <- Tinv_shape1.
Qed.
End blocks.

Section assemble.
Variable linalg_inv : ndarray → result ndarray.
Variable uninit : nat → nat → Q.
Variables (S_ A_ : list string) (T : ndarray) (gamma : Q).
Variable pi : gmap string string.
Variables (l1 Rmax : Q).

Local Abbreviation n := (n S_).
Local Abbreviation k := (k A_).

Hypothesis Hwf : well_formed S_ A_ T pi.

Variables (Tp : ndarray) (Tn : gmap nat ndarray) (Tinv : ndarray).
Hypothesis HTp : Tpi S_ A_ T pi = Ok Tp.
Hypothesis HTn : Tnotpi S_ A_ T pi = Ok Tn.
Hypothesis HTinv : T_disc_inv linalg_inv S_ gamma Tp = Ok Tinv.
Hypothesis Tinv_shape0 : shape0 Tinv = n.
Hypothesis Tinv_shape1 : shape1 Tinv = n.
Hypothesis Tinv_wf : wf Tinv.

(** The deviation blocks the stages compute. *)
Lemma blocks_exist :
  ∃ block : nat → ndarray, ∀ i, (i < k - 1)%nat →
    constraint_rows Tp Tn Tinv i = Ok (block i) ∧
    shape0 (block i) = n ∧ shape1 (block i) = n ∧ wf (block i).
Proof.
  exists (λ i, match constraint_rows Tp Tn Tinv i with
               | Ok B => B
               | Raise _ => zeros 0 0
               end).
  intros i Hi.
  destruct (Tpi_spec S_ A_ T pi Hwf) as (Tp' & HTp' & Hp0 & Hp1 & Hpwf & _).
  assert (Tp' = Tp) as -> by congruence.
  destruct (Tnotpi_spec S_ A_ T pi Hwf) as (Tn' & HTn' & _ & HM).
  assert (Tn' = Tn) as -> by congruence.
  destruct (HM i Hi) as (M & HMi & HM0 & HM1 & HMwf & _).
  destruct (constraint_rows_spec S_ Tp Tn Tinv Hp0 Hp1 Hpwf
    Tinv_shape0 Tinv_shape1 Tinv_wf i M HMi HM0 HM1 HMwf)
    as (D & B & _ & _ & -> & _ & _ & _ & ? & ? & ?).
  done.
Qed.

Lemma assemble_eq (block : nat → ndarray) :
  (∀ i, (i < k - 1)%nat →
     constraint_rows Tp Tn Tinv i = Ok (block i) ∧
     shape0 (block i) = n ∧ shape1 (block i) = n ∧ wf (block i)) →
  assemble linalg_inv uninit S_ A_ T gamma pi l1 Rmax =
  Ok (mk_ndarray 1 (3 * n) [assembled_c uninit S_ l1],
      mk_ndarray ((k - 1) * n + (k - 1) * n + n + 2 * n) (3 * n)
        (assembled_rows S_ A_ block),
      mk_ndarray ((k - 1) * n + (k - 1) * n + n + 2 * n) 1
        ((λ v, [v]) <$> assembled_b S_ A_ Rmax)).
Proof.
  intros Hblock. unfold assemble. rewrite HTp, HTn. cbn [mbind result_bind].
  rewrite HTinv. cbn [mbind result_bind]. unfold compose.
  rewrite (add_optimal_policy_constraints_eq S_ A_ Tp Tn Tinv block);
    [|intros; by apply Hblock..|done|done].
  cbn [mbind result_bind]. unfold empty, tabulate.
  change (range 1) with [0%nat]. change (range 0) with (@nil nat).
  cbn [fmap list_fmap data shape0 shape1 app Nat.add].
  rewrite (add_costly_single_step_constraints_eq S_ A_ Tp Tn Tinv block);
    [|intros; by apply Hblock..|done|done| |done].
  2:{ cbn [data shape0].
      rewrite (length_concat_range _ _ n); [done|].
      intros i Hi. destruct (Hblock i Hi) as (_ & <- & _ & [? _]). done. }
  cbn [mbind result_bind shape0 shape1 data].
  rewrite (add_rmax_constraints_eq S_ (n + n)); [|lia|done..].
  cbn [mbind result_bind shape0 shape1 data].
  assert (length (stage1_rows A_ block) = ((k - 1) * n)%nat) as Hl1.
  { apply length_concat_range. intros i Hi.
    destruct (Hblock i Hi) as (_ & <- & _ & [? _]). done. }
  assert (length (stage2_rows S_ A_ block) = ((k - 1) * n)%nat) as Hl2.
  { apply length_concat_range. intros i Hi. unfold css_rows.
    rewrite length_zip_with, range_length.
    destruct (Hblock i Hi) as (_ & H0 & _ & [-> _]). rewrite H0. lia. }
  fold (stage1_rows A_ block). fold (stage2_rows S_ A_ block).
  rewrite (add_l1norm_constraints_eq S_ (n + n)); [|lia|done| |done].
  2:{ cbn [data shape0]. rewrite !length_app, length_fmap, Hl1, Hl2.
      rewrite (length_concat_range _ _ 1) by done. lia. }
  cbn [shape0 shape1 data]. f_equal. f_equal; [f_equal|]; f_equal.
  - lia.
  - unfold assembled_c. by rewrite <- app_assoc.
  - lia.
  - lia.
  - unfold assembled_rows, pad, stage3_rows, stage4_rows.
    by rewrite concat_singletons, <- !app_assoc.
  - lia.
  - unfold assembled_b. rewrite !fmap_app, !fmap_replicate.
    change (λ _ : nat, [[Rmax]]) with (λ _ : nat, replicate 1 [Rmax]).
    change (λ _ : nat, [[0%Q]; [0%Q]]) with (λ _ : nat, replicate 2 [0%Q]).
    rewrite !concat_const_range.
    rewrite <- !app_assoc. do 3 f_equal; f_equal; lia.
Qed.
End assemble.

Lemma Forall2_replicate_r_inv {A B} (P : A → B → Prop) l m z :
  Forall2 P l (replicate m z) → Forall (λ r, P r z) l.
Proof.
  revert m. induction l as [|a l IH]; intros [|m] H; inversion H; subst;
    constructor; eauto.
Qed.

Lemma Forall_concat_range {A} (P : A → Prop) (F : nat → list A) m i :
  Forall P (concat (F <$> range m)) → (i < m)%nat → Forall P (F i).
Proof.
  intros H Hi. rewrite Forall_concat, Forall_fmap in H.
  rewrite Forall_lookup in H. apply (H i i). by apply range_lookup.
Qed.

Local Open Scope Q_scope.

Section feasible.
Variables (S_ A_ : list string) (Rmax : Q).
Local Abbreviation n := (n S_).
Local Abbreviation k := (k A_).

Variable block : nat → ndarray.
Hypothesis block_shape0 : ∀ i, (i < k - 1)%nat → shape0 (block i) = n.
Hypothesis block_shape1 : ∀ i, (i < k - 1)%nat → shape1 (block i) = n.
Hypothesis block_wf : ∀ i, (i < k - 1)%nat → wf (block i).

Lemma block_row_length idx s row :
  (idx < k - 1)%nat → data (block idx) !! s = Some row →
  length row = n ∧ (s < n)%nat.
Proof.
  intros Hidx Hrow. destruct (block_wf idx Hidx) as [Hlen Hrows].
  rewrite Forall_forall in Hrows. split.
  - rewrite (Hrows row) by (by eapply list_elem_of_lookup_2).
    by apply block_shape1.
  - apply lookup_lt_Some in Hrow. rewrite Hlen, block_shape0 in Hrow; done.
Qed.

Lemma stage1_rows_length :
  length (stage1_rows A_ block) = ((k - 1) * n)%nat.
Proof.
  apply length_concat_range. intros i Hi.
  destruct (block_wf i Hi) as [-> _]. by apply block_shape0.
Qed.

Lemma stage2_rows_length :
  length (stage2_rows S_ A_ block) = ((k - 1) * n)%nat.
Proof.
  apply length_concat_range. intros i Hi. unfold css_rows.
  rewrite length_zip_with, range_length.
  destruct (block_wf i Hi) as [-> _]. rewrite block_shape0 by done. lia.
Qed.

(** What a feasible point of the assembled problem satisfies, group of
    rows by group of rows. *)
Lemma feasible_assembled (x : list Q) :
  feasible
    (mk_ndarray ((k - 1) * n + (k - 1) * n + n + 2 * n) (3 * n)
       (assembled_rows S_ A_ block))
    (assembled_b S_ A_ Rmax) x →
  length x = (3 * n)%nat ∧
  (∀ idx s row, (idx < k - 1)%nat → data (block idx) !! s = Some row →
     dot row (take n x) <= 0) ∧
  (∀ idx s row, (idx < k - 1)%nat → data (block idx) !! s = Some row →
     dot row (take n x) + default 0 (x !! (n + s)%nat) <= 0) ∧
  (∀ i, (i < n)%nat → default 0 (x !! i) <= Rmax) ∧
  (∀ i, (i < n)%nat → 0 <= default 0 (x !! i)) ∧
  (∀ i, (i < n)%nat →
     default 0 (x !! i) <= default 0 (x !! (2 * n + i)%nat)).
Proof.
  intros [Hlen HF]. simpl in Hlen, HF. split; [done|].
  unfold assembled_rows, assembled_b, pad, stage3_rows, stage4_rows in HF.
  rewrite !fmap_app in HF.
  rewrite <- !app_assoc in HF.
  apply Forall2_app_inv in HF as [H1 HF];
    [|by rewrite !length_fmap, stage1_rows_length, length_replicate].
  apply Forall2_app_inv in HF as [H2 HF];
    [|by rewrite !length_fmap, stage2_rows_length, length_replicate].
  apply Forall2_app_inv in HF as [H3 H4];
    [|by rewrite !length_fmap, range_length, length_replicate].
  apply Forall2_replicate_r_inv in H1, H2, H3, H4.
  rewrite 2!Forall_fmap in H1. rewrite Forall_fmap in H2.
  rewrite 2!Forall_fmap in H3.
  assert (∀ i, (i < n)%nat →
    - default 0 (x !! i) <= 0 ∧
    default 0 (x !! i) - default 0 (x !! (2 * n + i)%nat) <= 0) as H4'.
  { intros i Hi. apply (Forall_concat_range _ _ _ i) in H4; [|done].
    unfold l1_rows in H4.
    apply Forall_cons in H4 as [Ha H4]. apply Forall_cons in H4 as [Hb _].
    rewrite dot_unit_row in Ha by lia.
    rewrite dot_insert, dot_unit_row in Hb
      by (rewrite ?unit_row_length; lia).
    unfold unit_row in Hb at 1.
    rewrite list_lookup_insert_ne, lookup_replicate_2 in Hb by lia.
    simpl in Hb. replace (2 * n + i)%nat with (n + n + i)%nat by lia.
    split; lra. }
  split_and!.
  - intros idx s row Hidx Hrow.
    destruct (block_row_length idx s row Hidx Hrow) as [Hr _].
    apply (Forall_concat_range _ _ _ idx) in H1; [|done].
    rewrite Forall_lookup in H1. specialize (H1 s row Hrow). simpl in H1.
    rewrite !dot_pad in H1. by rewrite <- Hr, dot_take.
  - intros idx s row Hidx Hrow.
    destruct (block_row_length idx s row Hidx Hrow) as [Hr Hs].
    apply (Forall_concat_range _ _ _ idx) in H2; [|done].
    rewrite Forall_lookup in H2.
    specialize (H2 s (row ++ replicate (n - n) 0 ++ unit_row n s 1)).
    simpl in H2. rewrite dot_pad, dot_app, dot_app, dot_replicate_0 in H2.
    rewrite dot_unit_row in H2 by done.
    rewrite length_replicate, Nat.sub_diag, drop_0, lookup_drop, Hr in H2.
    rewrite <- Hr at 1. rewrite dot_take.
    assert (dot row x + default 0 (x !! (n + s)%nat) ==
            dot row x + (0 + 1 * default 0 (x !! (n + s)%nat))) as -> by lra.
    apply H2. unfold css_rows. rewrite lookup_zip_with, Hrow. simpl.
    rewrite range_lookup by done. simpl. by rewrite Nat.sub_diag.
  - intros i Hi. rewrite Forall_lookup in H3.
    specialize (H3 i i (range_lookup _ _ Hi)). simpl in H3.
    rewrite dot_pad, dot_unit_row in H3 by lia. lra.
  - intros i Hi. destruct (H4' i Hi). lra.
  - intros i Hi. destruct (H4' i Hi). lra.
Qed.
End feasible.

Close Scope Q_scope.

Local Open Scope Q_scope.

(** ** Minimum and maximum *)

Lemma Qmin_cases x y : Qmin x y = x ∨ Qmin x y = y.
Proof.
  unfold Qmin, GenericMinMax.gmin. destruct (x ?= y); auto.
Qed.

Lemma Qmax_cases x y : Qmax x y = x ∨ Qmax x y = y.
Proof.
  unfold Qmax, GenericMinMax.gmax. destruct (x ?= y); auto.
Qed.

Lemma foldl_Qmin_spec x l :
  foldl Qmin x l <= x ∧ Forall (λ v, foldl Qmin x l <= v) l ∧
  (foldl Qmin x l = x ∨ foldl Qmin x l ∈ l).
Proof.
  revert x. induction l as [|y l IH]; intros x; simpl.
  - split_and!; [lra|constructor|by left].
  - destruct (IH (Qmin x y)) as (H1 & H2 & H3).
    pose proof (Q.le_min_l x y). pose proof (Q.le_min_r x y).
    split_and!; [lra|constructor; [lra|done]|].
    destruct H3 as [H3|H3]; [|right; by right].
    rewrite H3. destruct (Qmin_cases x y) as [->| ->]; [by left|right; by left].
Qed.

Lemma foldl_Qmax_spec x l :
  x <= foldl Qmax x l ∧ Forall (λ v, v <= foldl Qmax x l) l ∧
  (foldl Qmax x l = x ∨ foldl Qmax x l ∈ l).
Proof.
  revert x. induction l as [|y l IH]; intros x; simpl.
  - split_and!; [lra|constructor|by left].
  - destruct (IH (Qmax x y)) as (H1 & H2 & H3).
    pose proof (Q.le_max_l x y). pose proof (Q.le_max_r x y).
    split_and!; [lra|constructor; [lra|done]|].
    destruct H3 as [H3|H3]; [|right; by right].
    rewrite H3. destruct (Qmax_cases x y) as [->| ->]; [by left|right; by left].
Qed.

Lemma min_spec vals m :
  min vals = Ok m → m ∈ vals ∧ Forall (λ v, m <= v) vals.
Proof.
  destruct vals as [|x l]; [done|]. simpl. intros [= <-].
  destruct (foldl_Qmin_spec x l) as (H1 & H2 & H3). split.
  - destruct H3 as [-> |H3]; [by left|by right].
  - by constructor.
Qed.

Lemma max_spec vals m :
  max vals = Ok m → m ∈ vals ∧ Forall (λ v, v <= m) vals.
Proof.
  destruct vals as [|x l]; [done|]. simpl. intros [= <-].
  destruct (foldl_Qmax_spec x l) as (H1 & H2 & H3). split.
  - destruct H3 as [-> |H3]; [by left|by right].
  - by constructor.
Qed.

Lemma min_max_Ok vals :
  vals ≠ [] → ∃ mn mx, min vals = Ok mn ∧ max vals = Ok mx.
Proof. destruct vals; [done|]. simpl. eauto. Qed.

Lemma all_equal_true vals v w :
  all_equal vals = true → v ∈ vals → w ∈ vals → v == w.
Proof.
  destruct vals as [|x l]; [by intros _ ?%elem_of_nil|]. simpl.
  rewrite forallb_forall. intros H.
  assert (∀ u, u ∈ x :: l → x == u) as Hx.
  { intros u [->|Hu]%elem_of_cons; [reflexivity|].
    apply Qeq_bool_iff, H. by apply list_elem_of_In. }
  intros Hv Hw. rewrite <- (Hx v Hv), <- (Hx w Hw). reflexivity.
Qed.

Lemma all_equal_false vals mn mx :
  all_equal vals = false → min vals = Ok mn → max vals = Ok mx → mn < mx.
Proof.
  intros Hne [_ Hmn]%min_spec [_ Hmx]%max_spec.
  destruct vals as [|x l]; [done|]. simpl in Hne.
  destruct (forallb (Qeq_bool x) l) eqn:E; [done|].
  assert (∃ v, v ∈ l ∧ ¬ x == v) as (v & Hv & Hxv).
  { clear -E. induction l as [|y l IH]; [done|]. simpl in E.
    apply andb_false_iff in E as [E|E].
    - exists y. split; [by left|]. intros ?%Qeq_bool_iff. congruence.
    - destruct (IH E) as (v & ? & ?). exists v. split; [by right|done]. }
  rewrite Forall_forall in Hmn, Hmx.
  pose proof (Hmn x (list_elem_of_here _ _)).
  pose proof (Hmx x (list_elem_of_here _ _)).
  pose proof (Hmn v (list_elem_of_further _ _ _ Hv)).
  pose proof (Hmx v (list_elem_of_further _ _ _ Hv)).
  destruct (Qlt_le_dec mn mx) as [|Hle]; [done|].
  exfalso. apply Hxv. lra.
Qed.

(** ** normalize *)

Lemma xdiv_finite a b : ¬ b == 0 → xdiv a b = Fin (a / b).
Proof.
  intros Hb. unfold xdiv. destruct (Qeq_bool b 0) eqn:E; [|done].
  by apply Qeq_bool_iff in E.
Qed.

Lemma xdiv_nan a b : a == 0 → b == 0 → xdiv a b = NaN.
Proof.
  intros Ha Hb. unfold xdiv.
  apply Qeq_bool_iff in Ha, Hb. by rewrite Ha, Hb.
Qed.

Lemma unit_interval_div a d : 0 <= a → a <= d → 0 < d → 0 <= a / d ∧ a / d <= 1.
Proof.
  intros Ha Had Hd. split.
  - apply Qle_shift_div_l; [done|]. lra.
  - apply Qle_shift_div_r; [done|]. lra.
Qed.

Lemma normalize_nondegenerate vals mn mx :
  min vals = Ok mn → max vals = Ok mx → mn < mx →
  normalize vals = Ok (Fin <$> ((λ v, (v - mn) / (mx - mn)) <$> vals)).
Proof.
  intros Hmn Hmx Hlt. unfold normalize. rewrite Hmn, Hmx. simpl. f_equal.
  rewrite <- list_fmap_compose. apply list_fmap_ext. intros _ v _. simpl.
  apply xdiv_finite. lra.
Qed.

Lemma normalize_degenerate vals :
  vals ≠ [] → all_equal vals = true →
  normalize vals = Ok (replicate (length vals) NaN).
Proof.
  intros Hne Heq. destruct (min_max_Ok vals Hne) as (mn & mx & Hmn & Hmx).
  unfold normalize. rewrite Hmn, Hmx. simpl. f_equal.
  apply min_spec in Hmn as [Hmn _]. apply max_spec in Hmx as [Hmx _].
  apply list_eq. intros i. rewrite list_lookup_fmap.
  destruct (vals !! i) as [v|] eqn:Ev; simpl.
  - rewrite lookup_replicate_2 by (by eapply lookup_lt_Some). f_equal.
    apply list_elem_of_lookup_2 in Ev.
    pose proof (all_equal_true vals v mn Heq Ev Hmn).
    pose proof (all_equal_true vals mx mn Heq Hmx Hmn).
    apply xdiv_nan; lra.
  - apply lookup_ge_None in Ev. by rewrite lookup_ge_None_2 by (by rewrite length_replicate).
Qed.

Close Scope Q_scope.

Local Open Scope Q_scope.

Lemma min_fmap_increasing (f : Q → Q) vals mn :
  (∀ u v, u <= v → f u <= f v) →
  min vals = Ok mn → ∃ r0, min (f <$> vals) = Ok r0 ∧ r0 == f mn.
Proof.
  intros Hf Hmn. pose proof (min_spec _ _ Hmn) as [Hin Hle].
  destruct vals as [|x l]; [done|].
  destruct (min_max_Ok (f <$> x :: l)) as (r0 & _ & Hr0 & _); [done|].
  exists r0. split; [done|].
  apply min_spec in Hr0 as [Hr0in Hr0le].
  apply list_elem_of_fmap in Hr0in as (u & -> & Hu).
  rewrite Forall_forall in Hle, Hr0le.
  pose proof (Hf _ _ (Hle u Hu)).
  pose proof (Hr0le (f mn) (list_elem_of_fmap_2 f _ _ Hin)). lra.
Qed.

Lemma max_fmap_increasing (f : Q → Q) vals mx :
  (∀ u v, u <= v → f u <= f v) →
  max vals = Ok mx → ∃ r1, max (f <$> vals) = Ok r1 ∧ r1 == f mx.
Proof.
  intros Hf Hmx. pose proof (max_spec _ _ Hmx) as [Hin Hle].
  destruct vals as [|x l]; [done|].
  destruct (min_max_Ok (f <$> x :: l)) as (_ & r1 & _ & Hr1); [done|].
  exists r1. split; [done|].
  apply max_spec in Hr1 as [Hr1in Hr1le].
  apply list_elem_of_fmap in Hr1in as (u & -> & Hu).
  rewrite Forall_forall in Hle, Hr1le.
  pose proof (Hf _ _ (Hle u Hu)).
  pose proof (Hr1le (f mx) (list_elem_of_fmap_2 f _ _ Hin)). lra.
Qed.

Lemma rescale_monotone Rmax mn mx u v :
  0 <= Rmax → mn < mx → u <= v →
  Rmax * ((u - mn) / (mx - mn)) <= Rmax * ((v - mn) / (mx - mn)).
Proof.
  intros HR Hlt Huv.
  assert ((u - mn) / (mx - mn) <= (v - mn) / (mx - mn)) as Hq.
  { unfold Qdiv. apply Qmult_le_compat_r; [lra|].
    apply Qlt_le_weak, Qinv_lt_0_compat. lra. }
  nra.
Qed.

(** C6. Reward extraction takes the first [n] entries of the solution and
    maps each entry [x_i] to [Rmax * ((x_i - min) / (max - min))]; when the
    first [n] entries are not all equal (and [Rmax] is not negative), every
    returned entry is a finite number in [[0, Rmax]], the least returned
    entry is [0] and the greatest is [Rmax]. *)
Theorem extract_min_max_normalizes (S_ : list string) (Rmax : Q) (x : list Q) :
  0 <= Rmax →
  all_equal (take (n S_) x) = false →
  ∃ mn mx r,
    min (take (n S_) x) = Ok mn ∧ max (take (n S_) x) = Ok mx ∧
    r = (λ xi, Rmax * ((xi - mn) / (mx - mn))) <$> take (n S_) x ∧
    extract S_ Rmax x = Ok (Fin <$> r) ∧
    Forall (λ ri, 0 <= ri ∧ ri <= Rmax) r ∧
    (∃ r0, min r = Ok r0 ∧ r0 == 0) ∧
    (∃ r1, max r = Ok r1 ∧ r1 == Rmax).
Proof.
  intros HR Hne. set (vals := take (n S_) x) in *.
  destruct (min_max_Ok vals) as (mn & mx & Hmn & Hmx).
  { intros E. by rewrite E in Hne. }
  pose proof (all_equal_false vals mn mx Hne Hmn Hmx) as Hlt.
  exists mn, mx, ((λ xi, Rmax * ((xi - mn) / (mx - mn))) <$> vals).
  split_and!; [done..| | | |].
  - unfold extract. fold vals.
    rewrite (normalize_nondegenerate vals mn mx) by done. simpl. f_equal.
    by rewrite <- !list_fmap_compose.
  - apply Forall_fmap, Forall_forall. intros v Hv. simpl.
    destruct (min_spec _ _ Hmn) as [_ Hlo]. destruct (max_spec _ _ Hmx) as [_ Hhi].
    rewrite Forall_forall in Hlo, Hhi.
    pose proof (Hlo v Hv). pose proof (Hhi v Hv).
    destruct (unit_interval_div (v - mn) (mx - mn)); [lra..|]. nra.
  - destruct (min_fmap_increasing (λ xi, Rmax * ((xi - mn) / (mx - mn))) vals mn)
      as (r0 & Hr0 & Er0); [|done|].
    { intros u v Huv. by apply rescale_monotone. }
    exists r0. split; [done|]. rewrite Er0. field. lra.
  - destruct (max_fmap_increasing (λ xi, Rmax * ((xi - mn) / (mx - mn))) vals mx)
      as (r1 & Hr1 & Er1); [|done|].
    { intros u v Huv. by apply rescale_monotone. }
    exists r1. split; [done|]. rewrite Er1. field. lra.
Qed.

Lemma extract_min_max_normalizes_witness :
  ∃ mn mx r,
    min (take 2 [1; 3; 0; 0; 0; 0]) = Ok mn ∧
    max (take 2 [1; 3; 0; 0; 0; 0]) = Ok mx ∧
    r = (λ xi, 2 * ((xi - mn) / (mx - mn))) <$> take 2 [1; 3; 0; 0; 0; 0] ∧
    extract ["s0"; "s1"]%string 2 [1; 3; 0; 0; 0; 0] = Ok (Fin <$> r) ∧
    Forall (λ ri, 0 <= ri ∧ ri <= 2) r ∧
    (∃ r0, min r = Ok r0 ∧ r0 == 0) ∧
    (∃ r1, max r = Ok r1 ∧ r1 == 2).
Proof.
  apply (extract_min_max_normalizes ["s0"; "s1"]%string 2 [1; 3; 0; 0; 0; 0]).
  - vm_compute. discriminate.
  - reflexivity.
Defined.




Close Scope Q_scope.

(** ** The assembly stages *)

Lemma col0_singletons m (l : list Q) :
  col0 (mk_ndarray m 1 ((λ v, [v]) <$> l)) = Ok l.
Proof.
  unfold col0. simpl. f_equal. rewrite <- list_fmap_compose.
  rewrite <- (list_fmap_id l) at 2. by apply list_fmap_ext.
Qed.

Local Open Scope Q_scope.

Section stage_claims.
Variable linalg_inv : ndarray → result ndarray.
Variable uninit : nat → nat → Q.
Variables (S_ A_ : list string) (T : ndarray) (gamma : Q).
Variable pi : gmap string string.
Variables (l1 Rmax : Q).

Local Abbreviation n := (n S_).
Local Abbreviation k := (k A_).
Local Abbreviation trans := (trans S_ A_ T).

Hypothesis Hwf : well_formed S_ A_ T pi.

Variables (Tp : ndarray) (Tn : gmap nat ndarray) (Tinv : ndarray).
Hypothesis HTp : Tpi S_ A_ T pi = Ok Tp.
Hypothesis HTn : Tnotpi S_ A_ T pi = Ok Tn.
Hypothesis HTinv : T_disc_inv linalg_inv S_ gamma Tp = Ok Tinv.
Hypothesis Tinv_shape0 : shape0 Tinv = n.
Hypothesis Tinv_shape1 : shape1 Tinv = n.
Hypothesis Tinv_wf : wf Tinv.

Lemma Tp_facts : shape0 Tp = n ∧ shape1 Tp = n ∧ wf Tp.
Proof.
destruct (Tpi_spec S_ A_ T pi Hwf) as (Tp' & HTp' & ? & ? & ? & _).
by assert (Tp' = Tp) as <- by congruence.
Qed.

Lemma Tn_facts idx :
(idx < k - 1)%nat →
∃ M, Tn !! idx = Some M ∧ shape0 M = n ∧ shape1 M = n ∧ wf M.
Proof.
intros Hidx.
destruct (Tnotpi_spec S_ A_ T pi Hwf) as (Tn' & HTn' & _ & HM).
assert (Tn' = Tn) as -> by congruence.
destruct (HM idx Hidx) as (M & ? & ? & ? & ? & _). eauto.
Qed.

(** The deviation blocks, with the arrays they are computed from. *)
Lemma blocks_spec :
∃ block : nat → ndarray, ∀ idx, (idx < k - 1)%nat →
  constraint_rows Tp Tn Tinv idx = Ok (block idx) ∧
  shape0 (block idx) = n ∧ shape1 (block idx) = n ∧ wf (block idx) ∧
  ∃ M D, Tn !! idx = Some M ∧ sub Tp M = Ok D ∧
         matmul (scale (-1) D) Tinv = Ok (block idx).
Proof.
destruct (blocks_exist S_ A_ T pi Hwf Tp Tn Tinv
  HTp HTn Tinv_shape0 Tinv_shape1 Tinv_wf) as (block & Hblock).
exists block. intros idx Hidx.
destruct (Hblock idx Hidx) as (Hrows & ? & ? & ?). split_and!; [done..|].
destruct (Tn_facts idx Hidx) as (M & HM & HM0 & HM1 & HMwf).
destruct Tp_facts as (Hp0 & Hp1 & Hpwf).
destruct (constraint_rows_spec S_ Tp Tn Tinv Hp0 Hp1 Hpwf
  Tinv_shape0 Tinv_shape1 Tinv_wf idx M HM HM0 HM1 HMwf)
  as (D & B & HD & HB & Hrows' & _).
exists M, D. split_and!; [done..|]. congruence.
Qed.

(** The advantage of the policy action over the [idx]-th deviation, as the
  assembled constraints bound it: at a feasible point it is at least [0],
  and at least the margin variable of the state. *)
Lemma feasible_advantage (block : nat → ndarray) (x : list Q) :
(∀ idx, (idx < k - 1)%nat →
   constraint_rows Tp Tn Tinv idx = Ok (block idx) ∧
   shape0 (block idx) = n ∧ shape1 (block idx) = n ∧ wf (block idx)) →
feasible
  (mk_ndarray ((k - 1) * n + (k - 1) * n + n + 2 * n) (3 * n)
     (assembled_rows S_ A_ block))
  (assembled_b S_ A_ Rmax) x →
∀ idx M D DI, (idx < k - 1)%nat → Tn !! idx = Some M →
  sub Tp M = Ok D → matmul D Tinv = Ok DI →
  ∃ adv, matvec DI (take n x) = Ok adv ∧ length adv = n ∧
    ∀ s, (s < n)%nat →
      0 <= default 0 (adv !! s) ∧
      default 0 (x !! (n + s)%nat) <= default 0 (adv !! s).
Proof.
intros Hblock Hfeas idx M D DI Hidx HM HD HDI.
destruct (feasible_assembled S_ A_ Rmax block) with (x := x)
  as (Hlen & H1 & H2 & _); [intros; by apply Hblock..|done|].
destruct (Hblock idx Hidx) as (Hrows & _).
destruct (Tn_facts idx Hidx) as (M' & HM' & HM0 & HM1 & HMwf).
assert (M' = M) as -> by congruence.
destruct Tp_facts as (Hp0 & Hp1 & Hpwf).
destruct (constraint_rows_spec S_ Tp Tn Tinv Hp0 Hp1 Hpwf
  Tinv_shape0 Tinv_shape1 Tinv_wf idx M HM HM0 HM1 HMwf)
  as (D' & B & HD' & HB & Hrows' & HD0 & HD1 & [HDlen _] & _).
assert (D' = D) as -> by congruence.
assert (B = block idx) as -> by congruence.
unfold matmul in HDI, HB. simpl in HB.
rewrite decide_True in HDI, HB by congruence.
injection HDI as <-. injection HB as HB.
unfold matvec. simpl.
rewrite decide_True by (rewrite length_take; lia).
eexists. split; [done|]. split.
{ rewrite !length_fmap. congruence. }
intros s Hs.
destruct (lookup_lt_is_Some_2 (data D) s) as [d Hd]; [lia|].
rewrite !list_lookup_fmap, Hd. simpl.
assert (data (block idx) !! s =
        Some (lincomb (shape1 Tinv) (vscale (-1) d) (data Tinv))) as Hrow.
{ rewrite <- HB. simpl. by rewrite !list_lookup_fmap, Hd. }
pose proof (H1 idx s _ Hidx Hrow) as Ha.
pose proof (H2 idx s _ Hidx Hrow) as Hb.
destruct Tinv_wf as [_ Hirows].
rewrite dot_lincomb, dot_vscale in Ha, Hb by done.
rewrite dot_lincomb by done. split; lra.
Qed.
End stage_claims.

Close Scope Q_scope.

Lemma filter_all {A} (P : A → Prop) `{∀ x, Decision (P x)} (l : list A) :
  Forall P l → filter P l = l.
Proof.
  induction 1 as [|x l Hx _ IH]; [done|].
  by rewrite filter_cons_True, IH.
Qed.

Lemma list_remove_filter {A} `{EqDecision A} (x : A) (l : list A) :
  NoDup l → x ∈ l → list_remove x l = Ok (filter (λ y, y ≠ x) l).
Proof.
  induction l as [|y l IH]; intros Hnd Hin.
  - by apply elem_of_nil in Hin.
  - apply NoDup_cons in Hnd as [Hy Hnd]. simpl.
    destruct (decide (y = x)) as [->|Hne].
    + rewrite filter_cons_False by (intros ?; auto). f_equal.
      symmetry. apply filter_all, Forall_forall.
      intros z Hz ->. done.
    + apply elem_of_cons in Hin as [->|Hin]; [done|].
      rewrite IH by done. simpl. by rewrite filter_cons_True.
Qed.

Local Open Scope Q_scope.

Section stage_claims.
Variable linalg_inv : ndarray → result ndarray.
Variable uninit : nat → nat → Q.
Variables (S_ A_ : list string) (T : ndarray) (gamma : Q).
Variable pi : gmap string string.
Variables (l1 Rmax : Q).

Local Abbreviation n := (n S_).
Local Abbreviation k := (k A_).
Local Abbreviation trans := (trans S_ A_ T).

Hypothesis Hwf : well_formed S_ A_ T pi.

Variables (Tp : ndarray) (Tn : gmap nat ndarray) (Tinv : ndarray).
Hypothesis HTp : Tpi S_ A_ T pi = Ok Tp.
Hypothesis HTn : Tnotpi S_ A_ T pi = Ok Tn.
Hypothesis HTinv : T_disc_inv linalg_inv S_ gamma Tp = Ok Tinv.
Hypothesis Tinv_shape0 : shape0 Tinv = n.
Hypothesis Tinv_shape1 : shape1 Tinv = n.
Hypothesis Tinv_wf : wf Tinv.

(** The entries of the two kinds of table. *)
Lemma tables_spec :
(∀ i i' s s' a, S_ !! i = Some s → S_ !! i' = Some s' → pi !! s = Some a →
   get Tp i i' = trans s a s') ∧
(∀ idx M i i' s s', (idx < k - 1)%nat → Tn !! idx = Some M →
   S_ !! i = Some s → S_ !! i' = Some s' →
   ∃ p a, pi !! s = Some p ∧ filter (λ y, y ≠ p) A_ !! idx = Some a ∧
          get M i i' = trans s a s').
Proof.
split.
- intros i i' s s' a Hi Hi' Ha.
  destruct (Tpi_spec S_ A_ T pi Hwf) as (Tp' & HTp' & _ & _ & _ & Hrows).
  assert (Tp' = Tp) as -> by congruence.
  destruct (pi_total S_ A_ T pi Hwf i s Hi) as (a' & Ha' & [j Hj]%list_elem_of_lookup_1).
  assert (a' = a) as -> by congruence.
  by apply (Hrows i s a j).
- intros idx M i i' s s' Hidx HM Hi Hi'.
  destruct (Tnotpi_spec S_ A_ T pi Hwf) as (Tn' & HTn' & _ & Hspec).
  assert (Tn' = Tn) as -> by congruence.
  destruct (Hspec idx Hidx) as (M' & HM' & _ & _ & _ & Hrows).
  assert (M' = M) as -> by congruence.
  destruct (non_policy_action_Ok S_ A_ T pi Hwf idx i s Hi Hidx)
    as (p & a & Hp & Ha & [j Hj]%list_elem_of_lookup_1 & _).
  exists p, a. split; [done|]. split.
  + destruct (pi_total S_ A_ T pi Hwf i s Hi) as (p' & Hp' & HpA).
    assert (p' = p) as -> by congruence.
    unfold non_policy_action, pi_lookup in Ha. rewrite Hp in Ha. simpl in Ha.
    rewrite list_remove_filter in Ha by (done || apply Hwf). simpl in Ha.
    destruct (filter _ A_ !! idx) as [a'|]; simpl in Ha; congruence.
  + by apply (Hrows i s a j).
Qed.

(** C2. For every deviation index [idx] below [k - 1],
  [add_optimal_policy_constraints] stacks under [A_ub] the [n x n] block
  [-1 * (Tpi - Tnotpi[idx]) @ T_disc_inv] and under [b_ub] [n] zeros:
  [(k - 1) * n] rows and no column in all.  [Tpi[i, i']] is the transition
  probability from state [i] to state [i'] under the policy action, and
  [Tnotpi[idx][i, i']] the one under the [idx]-th entry of the action list
  without the policy action, in the order of the list.  Hence a feasible
  point [x] of the assembled problem has
  [(Tpi - Tnotpi[idx]) @ T_disc_inv @ x[0:n] >= 0] in every component. *)
Theorem add_optimal_policy_constraints_spec (c A_ub b_ub : ndarray) :
shape1 A_ub = n → shape1 b_ub = 1%nat →
∃ block : nat → ndarray,
  (∀ idx, (idx < k - 1)%nat → ∃ M D,
     Tn !! idx = Some M ∧ sub Tp M = Ok D ∧
     matmul (scale (-1) D) Tinv = Ok (block idx) ∧
     shape0 (block idx) = n ∧ shape1 (block idx) = n ∧ wf (block idx)) ∧
  add_optimal_policy_constraints A_ Tp Tn Tinv (c, A_ub, b_ub) =
    Ok (c,
        mk_ndarray (shape0 A_ub + (k - 1) * n) n
          (data A_ub ++ concat ((λ idx, data (block idx)) <$> range (k - 1))),
        mk_ndarray (shape0 b_ub + (k - 1) * n) 1
          (data b_ub ++ replicate ((k - 1) * n) [0])) ∧
  (∀ i i' s s' a, S_ !! i = Some s → S_ !! i' = Some s' →
     pi !! s = Some a → get Tp i i' = trans s a s') ∧
  (∀ idx M i i' s s', (idx < k - 1)%nat → Tn !! idx = Some M →
     S_ !! i = Some s → S_ !! i' = Some s' →
     ∃ p a, pi !! s = Some p ∧ filter (λ y, y ≠ p) A_ !! idx = Some a ∧
            get M i i' = trans s a s') ∧
  (∀ c' A' b' b0 x,
     assemble linalg_inv uninit S_ A_ T gamma pi l1 Rmax = Ok (c', A', b') →
     col0 b' = Ok b0 → feasible A' b0 x →
     ∀ idx M D DI, (idx < k - 1)%nat → Tn !! idx = Some M →
       sub Tp M = Ok D → matmul D Tinv = Ok DI →
       ∃ adv, matvec DI (take n x) = Ok adv ∧ length adv = n ∧
              Forall (λ e, 0 <= e) adv).
Proof.
intros HA Hb.
destruct (blocks_spec linalg_inv S_ A_ T gamma pi Hwf Tp Tn Tinv
  HTp HTn HTinv Tinv_shape0 Tinv_shape1 Tinv_wf) as (block & Hblock).
exists block. split_and!.
- intros idx Hidx.
  destruct (Hblock idx Hidx) as (_ & ? & ? & ? & M & D & ? & ? & ?).
  exists M, D. done.
- rewrite (add_optimal_policy_constraints_eq S_ A_ Tp Tn Tinv block);
    [|intros; by apply Hblock..|done|done].
  by rewrite concat_const_range.
- apply tables_spec.
- apply tables_spec.
- intros c' A' b' b0 x Hasm Hb0 Hfeas idx M D DI Hidx HM HD HDI.
  rewrite (assemble_eq linalg_inv uninit S_ A_ T gamma pi l1 Rmax Tp Tn Tinv
    HTp HTn HTinv Tinv_shape0 Tinv_shape1 block) in Hasm
    by (intros i Hi; destruct (Hblock i Hi) as (? & ? & ? & ? & _); done).
  injection Hasm as <- <- <-. rewrite col0_singletons in Hb0.
  injection Hb0 as <-.
  destruct (feasible_advantage linalg_inv S_ A_ T gamma pi Rmax Hwf Tp Tn Tinv
    HTp HTn HTinv Tinv_shape0 Tinv_shape1 Tinv_wf block x) with
    (idx := idx) (M := M) (D := D) (DI := DI) as (adv & Hadv & Hlen & Hge);
    [|done..|].
  { intros i Hi. destruct (Hblock i Hi) as (? & ? & ? & ? & _). done. }
  exists adv. split_and!; [done..|].
  apply Forall_lookup. intros s e He.
  pose proof (lookup_lt_Some _ _ _ He) as Hs. rewrite Hlen in Hs.
  destruct (Hge s Hs) as [H0 _]. by rewrite He in H0.
Qed.

(** C3. [add_costly_single_step_constraints] appends [n] objective
  coefficients [-1], pads the rows of [A_ub] with [n] zero columns, and
  for every deviation index stacks [n] rows: row [s] has the block row in
  its first [n] columns and the [s]-th unit vector in columns [n] to
  [2n - 1]; the bounds are [0].  Hence at a feasible point of the assembled
  problem the margin variable of every state is at most the advantage of
  the policy action over every deviation there. *)
Theorem add_costly_single_step_constraints_spec
  (crow : list Q) (A_ub b_ub : ndarray) :
shape1 A_ub = n → length (data A_ub) = shape0 A_ub → shape1 b_ub = 1%nat →
∃ block : nat → ndarray,
  (∀ idx, (idx < k - 1)%nat → ∃ M D,
     Tn !! idx = Some M ∧ sub Tp M = Ok D ∧
     matmul (scale (-1) D) Tinv = Ok (block idx) ∧
     shape0 (block idx) = n ∧ shape1 (block idx) = n ∧ wf (block idx)) ∧
  add_costly_single_step_constraints S_ A_ Tp Tn Tinv
    (mk_ndarray 1 n [crow], A_ub, b_ub) =
    Ok (mk_ndarray 1 (n + n) [crow ++ replicate n (-1)],
        mk_ndarray (shape0 A_ub + (k - 1) * n) (n + n)
          (((λ r, r ++ replicate n 0) <$> data A_ub) ++
           concat ((λ idx,
             zip_with (λ r s, r ++ unit_row n s 1)
               (data (block idx)) (range n)) <$> range (k - 1))),
        mk_ndarray (shape0 b_ub + (k - 1) * n) 1
          (data b_ub ++ replicate ((k - 1) * n) [0])) ∧
  (∀ c' A' b' b0 x,
     assemble linalg_inv uninit S_ A_ T gamma pi l1 Rmax = Ok (c', A', b') →
     col0 b' = Ok b0 → feasible A' b0 x →
     ∀ idx M D DI, (idx < k - 1)%nat → Tn !! idx = Some M →
       sub Tp M = Ok D → matmul D Tinv = Ok DI →
       ∃ adv, matvec DI (take n x) = Ok adv ∧ length adv = n ∧
         ∀ s margin a, x !! (n + s)%nat = Some margin → adv !! s = Some a →
           margin <= a).
Proof.
intros HA Hlen Hb.
destruct (blocks_spec linalg_inv S_ A_ T gamma pi Hwf Tp Tn Tinv
  HTp HTn HTinv Tinv_shape0 Tinv_shape1 Tinv_wf) as (block & Hblock).
exists block. split_and!.
- intros idx Hidx.
  destruct (Hblock idx Hidx) as (_ & ? & ? & ? & M & D & ? & ? & ?).
  exists M, D. done.
- rewrite (add_costly_single_step_constraints_eq S_ A_ Tp Tn Tinv block);
    [|intros; by apply Hblock..|done|done|done|done].
  rewrite concat_const_range. unfold css_rows.
  rewrite Nat.sub_diag. done.
- intros c' A' b' b0 x Hasm Hb0 Hfeas idx M D DI Hidx HM HD HDI.
  rewrite (assemble_eq linalg_inv uninit S_ A_ T gamma pi l1 Rmax Tp Tn Tinv
    HTp HTn HTinv Tinv_shape0 Tinv_shape1 block) in Hasm
    by (intros i Hi; destruct (Hblock i Hi) as (? & ? & ? & ? & _); done).
  injection Hasm as <- <- <-. rewrite col0_singletons in Hb0.
  injection Hb0 as <-.
  destruct (feasible_advantage linalg_inv S_ A_ T gamma pi Rmax Hwf Tp Tn Tinv
    HTp HTn HTinv Tinv_shape0 Tinv_shape1 Tinv_wf block x) with
    (idx := idx) (M := M) (D := D) (DI := DI) as (adv & Hadv & Hadvlen & Hge);
    [|done..|].
  { intros i Hi. destruct (Hblock i Hi) as (? & ? & ? & ? & _). done. }
  exists adv. split_and!; [done..|].
  intros s margin a Hm Ha.
  pose proof (lookup_lt_Some _ _ _ Ha) as Hs. rewrite Hadvlen in Hs.
  destruct (Hge s Hs) as [_ H1]. by rewrite Hm, Ha in H1.
Qed.

(** C4. [add_l1norm_constraints] appends [n] objective coefficients [l1],
  pads the rows of [A_ub] with [n] zero columns, and for every reward
  variable [i] stacks the two rows [-R_i <= 0] and [R_i - z_i <= 0], where
  [z_i] is the [i]-th of the new columns.  Hence a feasible point of the
  assembled problem has [R_i >= 0] for every [i]. *)
Theorem add_l1norm_constraints_spec
  (w : nat) (crow : list Q) (A_ub b_ub : ndarray) (l1' : Q) :
(n ≤ w)%nat →
shape1 A_ub = w → length (data A_ub) = shape0 A_ub → shape1 b_ub = 1%nat →
add_l1norm_constraints S_ (mk_ndarray 1 w [crow], A_ub, b_ub) l1' =
  Ok (mk_ndarray 1 (w + n) [crow ++ replicate n l1'],
      mk_ndarray (shape0 A_ub + n * 2) (w + n)
        (((λ r, r ++ replicate n 0) <$> data A_ub) ++
         concat ((λ i,
           [unit_row (w + n) i (-1);
            <[(w + i)%nat := -1]> (unit_row (w + n) i 1)]) <$> range n)),
      mk_ndarray (shape0 b_ub + n * 2) 1
        (data b_ub ++ replicate (n * 2) [0])) ∧
(∀ i (x : list Q), (i < n)%nat →
   dot (unit_row (w + n) i (-1)) x == - default 0 (x !! i) ∧
   dot (<[(w + i)%nat := -1]> (unit_row (w + n) i 1)) x ==
     default 0 (x !! i) - default 0 (x !! (w + i)%nat)) ∧
(∀ c' A' b' b0 x,
   assemble linalg_inv uninit S_ A_ T gamma pi l1 Rmax = Ok (c', A', b') →
   col0 b' = Ok b0 → feasible A' b0 x →
   ∀ i xi, (i < n)%nat → x !! i = Some xi → 0 <= xi).
Proof.
intros Hw HA Hlen Hb. split_and!.
- rewrite (add_l1norm_constraints_eq S_ w) by done.
  change (λ _ : nat, [[0]; [0]]) with (λ _ : nat, replicate 2 [0]).
  by rewrite concat_const_range.
- intros i x Hi. split.
  + rewrite dot_unit_row by lia. lra.
  + rewrite dot_insert, dot_unit_row by (rewrite ?unit_row_length; lia).
    unfold unit_row.
    rewrite list_lookup_insert_ne, lookup_replicate_2 by lia. simpl. lra.
- intros c' A' b' b0 x Hasm Hb0 Hfeas i xi Hi Hxi.
  destruct (blocks_spec linalg_inv S_ A_ T gamma pi Hwf Tp Tn Tinv
    HTp HTn HTinv Tinv_shape0 Tinv_shape1 Tinv_wf) as (block & Hblock).
  rewrite (assemble_eq linalg_inv uninit S_ A_ T gamma pi l1 Rmax Tp Tn Tinv
    HTp HTn HTinv Tinv_shape0 Tinv_shape1 block) in Hasm
    by (intros j Hj; destruct (Hblock j Hj) as (? & ? & ? & ? & _); done).
  injection Hasm as <- <- <-. rewrite col0_singletons in Hb0.
  injection Hb0 as <-.
  destruct (feasible_assembled S_ A_ Rmax block) with (x := x)
    as (_ & _ & _ & _ & H0 & _); [intros j Hj; by apply Hblock..|done|].
  specialize (H0 i Hi). by rewrite Hxi in H0.
Qed.

Lemma assembled_rows_wf (block : nat → ndarray) :
(∀ idx, (idx < k - 1)%nat →
   shape0 (block idx) = n ∧ shape1 (block idx) = n ∧ wf (block idx)) →
length (assembled_rows S_ A_ block) =
  ((k - 1) * n + (k - 1) * n + n + 2 * n)%nat ∧
Forall (λ r, length r = (3 * n)%nat) (assembled_rows S_ A_ block).
Proof.
intros Hblock. unfold assembled_rows, pad, stage3_rows, stage4_rows. split.
- rewrite !length_app, !length_fmap, !length_app, !length_fmap.
  rewrite (stage1_rows_length S_ A_ block), (stage2_rows_length S_ A_ block)
    by (intros; by apply Hblock).
  rewrite range_length, (length_concat_range _ _ 2) by done. lia.
- rewrite !Forall_app, !Forall_fmap, !Forall_app, !Forall_fmap.
  split_and!.
  + apply Forall_concat, Forall_fmap, Forall_forall.
    intros idx [? Hidx]%list_elem_of_lookup_1.
    apply range_lookup_Some in Hidx as [-> Hidx]. simpl.
    destruct (Hblock idx Hidx) as (_ & H1 & [_ Hrows]).
    eapply Forall_impl; [exact Hrows|]. intros r Hr. simpl in *.
    rewrite !length_app, !length_replicate. lia.
  + apply Forall_concat, Forall_fmap, Forall_forall.
    intros idx [? Hidx]%list_elem_of_lookup_1.
    apply range_lookup_Some in Hidx as [-> Hidx]. simpl.
    destruct (Hblock idx Hidx) as (_ & H1 & [_ Hrows]).
    unfold css_rows. apply Forall_forall.
    intros r [s Hs]%list_elem_of_lookup_1.
    apply lookup_zip_with_Some in Hs as (r0 & s' & -> & Hr0 & _).
    rewrite Forall_forall in Hrows. simpl.
    rewrite !length_app, !length_replicate, unit_row_length.
    rewrite (Hrows r0) by (by eapply list_elem_of_lookup_2). lia.
  + apply Forall_forall. intros i _. simpl.
    rewrite length_app, unit_row_length, length_replicate. lia.
  + apply Forall_concat, Forall_fmap, Forall_forall. intros i _. simpl.
    unfold l1_rows. repeat constructor;
      rewrite ?length_insert, unit_row_length; lia.
Qed.

(** C5. The problem [lp_irl] assembles has
  [(k-1)*n + (k-1)*n + n + 2*n] constraint rows and [3*n] columns, as many
  bounds as rows, and [3*n] objective coefficients.  Columns [0..n-1]
  carry the reward variables, columns [n..2n-1] the margin variables of
  stage 2 and columns [2n..3n-1] the absolute-value surrogates of stage 4:
  that is how the rows, written out in [assembled_rows], read a point. *)
Theorem assemble_shape :
∃ (c A_ub b_ub : ndarray) (block : nat → ndarray),
  assemble linalg_inv uninit S_ A_ T gamma pi l1 Rmax = Ok (c, A_ub, b_ub) ∧
  shape0 A_ub = ((k - 1) * n + (k - 1) * n + n + 2 * n)%nat ∧
  shape1 A_ub = (3 * n)%nat ∧ wf A_ub ∧
  shape0 b_ub = shape0 A_ub ∧ shape1 b_ub = 1%nat ∧ wf b_ub ∧
  shape0 c = 1%nat ∧ shape1 c = (3 * n)%nat ∧ wf c ∧
  row0 c = Ok ((uninit 0%nat <$> range n) ++ replicate n (-1)
               ++ replicate n l1) ∧
  col0 b_ub = Ok (assembled_b S_ A_ Rmax) ∧
  (∀ idx, (idx < k - 1)%nat →
     constraint_rows Tp Tn Tinv idx = Ok (block idx)) ∧
  data A_ub = assembled_rows S_ A_ block ∧
  ∀ x, feasible A_ub (assembled_b S_ A_ Rmax) x →
    length x = (3 * n)%nat ∧
    (∀ idx s row, (idx < k - 1)%nat → data (block idx) !! s = Some row →
       dot row (take n x) <= 0 ∧
       dot row (take n x) + default 0 (x !! (n + s)%nat) <= 0) ∧
    (∀ i, (i < n)%nat →
       0 <= default 0 (x !! i) ∧ default 0 (x !! i) <= Rmax ∧
       default 0 (x !! i) <= default 0 (x !! (2 * n + i)%nat)).
Proof.
destruct (blocks_spec linalg_inv S_ A_ T gamma pi Hwf Tp Tn Tinv
  HTp HTn HTinv Tinv_shape0 Tinv_shape1 Tinv_wf) as (block & Hblock).
assert (∀ idx, (idx < k - 1)%nat →
  constraint_rows Tp Tn Tinv idx = Ok (block idx) ∧
  shape0 (block idx) = n ∧ shape1 (block idx) = n ∧ wf (block idx))
  as Hblock'.
{ intros i Hi. destruct (Hblock i Hi) as (? & ? & ? & ? & _). done. }
destruct (assembled_rows_wf block) as [Hlen Hrows].
{ intros i Hi. destruct (Hblock' i Hi) as (? & ? & ? & ?). done. }
do 3 eexists. exists block. split.
{ apply (assemble_eq linalg_inv uninit S_ A_ T gamma pi l1 Rmax Tp Tn Tinv
    HTp HTn HTinv Tinv_shape0 Tinv_shape1 block Hblock'). }
cbn [shape0 shape1 data]. split_and!; try done.
- split; cbn [shape0 shape1 data]; [|apply Forall_fmap, Forall_forall; done].
  rewrite length_fmap. unfold assembled_b.
  rewrite !length_app, !length_replicate. lia.
- split; cbn [shape0 shape1 data]; [done|]. repeat constructor.
  unfold assembled_c.
  rewrite !length_app, length_fmap, range_length, !length_replicate. lia.
- apply col0_singletons.
- intros idx Hidx. by apply Hblock'.
- intros x Hfeas.
  destruct (feasible_assembled S_ A_ Rmax block) with (x := x)
    as (Hx & H1 & H2 & H3 & H4 & H5);
    [intros j Hj; by apply Hblock'..|done|].
  split_and!; [done| |].
  + intros idx s row Hidx Hrow. split; eauto.
  + intros i Hi. split_and!; eauto.
Qed.
End stage_claims.

Close Scope Q_scope.

(** ** The example of [__main__] *)

Local Open Scope Q_scope.

Section demo.
Local Abbreviation linalg_inv := Demo.inv2.
Local Abbreviation uninit := Demo.zero_mem.
Local Abbreviation S_ := Demo.S_.
Local Abbreviation A_ := Demo.A_.
Local Abbreviation T := Demo.T.
Local Abbreviation gamma := Demo.gamma.
Local Abbreviation pi := Demo.pi.
Local Abbreviation l1 := Demo.l1.
Local Abbreviation Rmax := Demo.Rmax.
Local Abbreviation Tp := Demo.Tp.
Local Abbreviation Tn := Demo.Tn.
Local Abbreviation Tinv := Demo.Tinv.
Local Abbreviation n := (n Demo.S_).
Local Abbreviation k := (k Demo.A_).
Local Abbreviation trans := (trans Demo.S_ Demo.A_ Demo.T).

Lemma demo_well_formed : well_formed S_ A_ T pi.
Proof.
split_and!; try compute_done.
repeat constructor; eexists; (split; [by vm_compute|set_solver]).
Defined.

Lemma demo_Tpi : Tpi S_ A_ T pi = Ok Tp.
Proof. vm_compute. reflexivity. Defined.

Lemma demo_Tnotpi : Tnotpi S_ A_ T pi = Ok Tn.
Proof. vm_compute. reflexivity. Defined.

Lemma demo_T_disc_inv : T_disc_inv linalg_inv S_ gamma Tp = Ok Tinv.
Proof. vm_compute. reflexivity. Defined.

Lemma demo_Tinv_wf : wf Tinv.
Proof. compute_done. Defined.

Lemma add_optimal_policy_constraints_spec_witness :
let c := empty uninit 1 n in
let A_ub := empty uninit 0 n in
let b_ub := empty uninit 0 1 in
∃ block : nat → ndarray,
  (∀ idx, (idx < k - 1)%nat → ∃ M D,
     Tn !! idx = Some M ∧ sub Tp M = Ok D ∧
     matmul (scale (-1) D) Tinv = Ok (block idx) ∧
     shape0 (block idx) = n ∧ shape1 (block idx) = n ∧ wf (block idx)) ∧
  add_optimal_policy_constraints A_ Tp Tn Tinv (c, A_ub, b_ub) =
    Ok (c,
        mk_ndarray (shape0 A_ub + (k - 1) * n) n
          (data A_ub ++ concat ((λ idx, data (block idx)) <$> range (k - 1))),
        mk_ndarray (shape0 b_ub + (k - 1) * n) 1
          (data b_ub ++ replicate ((k - 1) * n) [0])) ∧
  (∀ i i' s s' a, S_ !! i = Some s → S_ !! i' = Some s' →
     pi !! s = Some a → get Tp i i' = trans s a s') ∧
  (∀ idx M i i' s s', (idx < k - 1)%nat → Tn !! idx = Some M →
     S_ !! i = Some s → S_ !! i' = Some s' →
     ∃ p a, pi !! s = Some p ∧ filter (λ y, y ≠ p) A_ !! idx = Some a ∧
            get M i i' = trans s a s') ∧
  (∀ c' A' b' b0 x,
     assemble linalg_inv uninit S_ A_ T gamma pi l1 Rmax = Ok (c', A', b') →
     col0 b' = Ok b0 → feasible A' b0 x →
     ∀ idx M D DI, (idx < k - 1)%nat → Tn !! idx = Some M →
       sub Tp M = Ok D → matmul D Tinv = Ok DI →
       ∃ adv, matvec DI (take n x) = Ok adv ∧ length adv = n ∧
              Forall (λ e, 0 <= e) adv).
Proof.
apply (add_optimal_policy_constraints_spec linalg_inv uninit S_ A_ T gamma pi l1 Rmax
  demo_well_formed Tp Tn Tinv demo_Tpi demo_Tnotpi demo_T_disc_inv
  eq_refl eq_refl demo_Tinv_wf); reflexivity.
Defined.

Lemma add_costly_single_step_constraints_spec_witness :
let crow := [0; 0] in
let A_ub := mk_ndarray 2 2 [[1; -1]; [0; 0]] in
let b_ub := mk_ndarray 2 1 [[0]; [0]] in
∃ block : nat → ndarray,
  (∀ idx, (idx < k - 1)%nat → ∃ M D,
     Tn !! idx = Some M ∧ sub Tp M = Ok D ∧
     matmul (scale (-1) D) Tinv = Ok (block idx) ∧
     shape0 (block idx) = n ∧ shape1 (block idx) = n ∧ wf (block idx)) ∧
  add_costly_single_step_constraints S_ A_ Tp Tn Tinv
    (mk_ndarray 1 n [crow], A_ub, b_ub) =
    Ok (mk_ndarray 1 (n + n) [crow ++ replicate n (-1)],
        mk_ndarray (shape0 A_ub + (k - 1) * n) (n + n)
          (((λ r, r ++ replicate n 0) <$> data A_ub) ++
           concat ((λ idx,
             zip_with (λ r s, r ++ unit_row n s 1)
               (data (block idx)) (range n)) <$> range (k - 1))),
        mk_ndarray (shape0 b_ub + (k - 1) * n) 1
          (data b_ub ++ replicate ((k - 1) * n) [0])) ∧
  (∀ c' A' b' b0 x,
     assemble linalg_inv uninit S_ A_ T gamma pi l1 Rmax = Ok (c', A', b') →
     col0 b' = Ok b0 → feasible A' b0 x →
     ∀ idx M D DI, (idx < k - 1)%nat → Tn !! idx = Some M →
       sub Tp M = Ok D → matmul D Tinv = Ok DI →
       ∃ adv, matvec DI (take n x) = Ok adv ∧ length adv = n ∧
         ∀ s margin a, x !! (n + s)%nat = Some margin → adv !! s = Some a →
           margin <= a).
Proof.
apply (add_costly_single_step_constraints_spec linalg_inv uninit S_ A_ T gamma pi l1 Rmax
  demo_well_formed Tp Tn Tinv demo_Tpi demo_Tnotpi demo_T_disc_inv
  eq_refl eq_refl demo_Tinv_wf); reflexivity.
Defined.

Lemma add_l1norm_constraints_spec_witness :
let w := 4%nat in
let crow := [0; 0; -1; -1] in
let A_ub := mk_ndarray 1 4 [[1; 0; 0; 0]] in
let b_ub := mk_ndarray 1 1 [[2]] in
let l1' := 10 in
add_l1norm_constraints S_ (mk_ndarray 1 w [crow], A_ub, b_ub) l1' =
  Ok (mk_ndarray 1 (w + n) [crow ++ replicate n l1'],
      mk_ndarray (shape0 A_ub + n * 2) (w + n)
        (((λ r, r ++ replicate n 0) <$> data A_ub) ++
         concat ((λ i,
           [unit_row (w + n) i (-1);
            <[(w + i)%nat := -1]> (unit_row (w + n) i 1)]) <$> range n)),
      mk_ndarray (shape0 b_ub + n * 2) 1
        (data b_ub ++ replicate (n * 2) [0])) ∧
(∀ i (x : list Q), (i < n)%nat →
   dot (unit_row (w + n) i (-1)) x == - default 0 (x !! i) ∧
   dot (<[(w + i)%nat := -1]> (unit_row (w + n) i 1)) x ==
     default 0 (x !! i) - default 0 (x !! (w + i)%nat)) ∧
(∀ c' A' b' b0 x,
   assemble linalg_inv uninit S_ A_ T gamma pi l1 Rmax = Ok (c', A', b') →
   col0 b' = Ok b0 → feasible A' b0 x →
   ∀ i xi, (i < n)%nat → x !! i = Some xi → 0 <= xi).
Proof.
apply (add_l1norm_constraints_spec linalg_inv uninit S_ A_ T gamma pi l1 Rmax
  demo_well_formed Tp Tn Tinv demo_Tpi demo_Tnotpi demo_T_disc_inv
  eq_refl eq_refl demo_Tinv_wf); solve [reflexivity | vm_compute; lia].
Defined.

Lemma assemble_shape_witness :
∃ (c A_ub b_ub : ndarray) (block : nat → ndarray),
  assemble linalg_inv uninit S_ A_ T gamma pi l1 Rmax = Ok (c, A_ub, b_ub) ∧
  shape0 A_ub = ((k - 1) * n + (k - 1) * n + n + 2 * n)%nat ∧
  shape1 A_ub = (3 * n)%nat ∧ wf A_ub ∧
  shape0 b_ub = shape0 A_ub ∧ shape1 b_ub = 1%nat ∧ wf b_ub ∧
  shape0 c = 1%nat ∧ shape1 c = (3 * n)%nat ∧ wf c ∧
  row0 c = Ok ((uninit 0%nat <$> range n) ++ replicate n (-1)
               ++ replicate n l1) ∧
  col0 b_ub = Ok (assembled_b S_ A_ Rmax) ∧
  (∀ idx, (idx < k - 1)%nat →
     constraint_rows Tp Tn Tinv idx = Ok (block idx)) ∧
  data A_ub = assembled_rows S_ A_ block ∧
  ∀ x, feasible A_ub (assembled_b S_ A_ Rmax) x →
    length x = (3 * n)%nat ∧
    (∀ idx s row, (idx < k - 1)%nat → data (block idx) !! s = Some row →
       dot row (take n x) <= 0 ∧
       dot row (take n x) + default 0 (x !! (n + s)%nat) <= 0) ∧
    (∀ i, (i < n)%nat →
       0 <= default 0 (x !! i) ∧ default 0 (x !! i) <= Rmax ∧
       default 0 (x !! i) <= default 0 (x !! (2 * n + i)%nat)).
Proof.
apply (assemble_shape linalg_inv uninit S_ A_ T gamma pi l1 Rmax
  demo_well_formed Tp Tn Tinv demo_Tpi demo_Tnotpi demo_T_disc_inv
  eq_refl eq_refl demo_Tinv_wf).
Defined.

End demo.

Close Scope Q_scope.

(** ** The solver call *)

Local Open Scope Q_scope.

Lemma extract_length (S_ : list string) (Rmax : Q) (x : list Q) rewards :
  extract S_ Rmax x = Ok rewards → length rewards = length (take (n S_) x).
Proof.
  unfold extract, normalize.
  destruct (min _) as [mn|]; [|done]. destruct (max _) as [mx|]; [|done].
  simpl. intros [= <-]. by rewrite !length_fmap.
Qed.

Lemma extract_Ok (S_ : list string) (Rmax : Q) (x : list Q) :
  take (n S_) x ≠ [] → ∃ rewards, extract S_ Rmax x = Ok rewards.
Proof.
  intros Hne. unfold extract, normalize.
  destruct (min_max_Ok _ Hne) as (mn & mx & -> & ->). simpl. eauto.
Qed.

Section solve.
Variable linalg_inv : ndarray → result ndarray.
Variable linprog : list Q → ndarray → list Q → OptimizeResult.
Variable uninit : nat → nat → Q.
Variables (S_ A_ : list string) (T : ndarray) (gamma : Q).
Variable pi : gmap string string.
Variables (l1 Rmax : Q).

Local Abbreviation n := (n S_).
Local Abbreviation k := (k A_).

Hypothesis Hwf : well_formed S_ A_ T pi.

Variables (Tp : ndarray) (Tn : gmap nat ndarray) (Tinv : ndarray).
Hypothesis HTp : Tpi S_ A_ T pi = Ok Tp.
Hypothesis HTn : Tnotpi S_ A_ T pi = Ok Tn.
Hypothesis HTinv : T_disc_inv linalg_inv S_ gamma Tp = Ok Tinv.
Hypothesis Tinv_shape0 : shape0 Tinv = n.
Hypothesis Tinv_shape1 : shape1 Tinv = n.
Hypothesis Tinv_wf : wf Tinv.

(** What [lp_irl] does once the problem is assembled: it asks the solver
  and extracts the rewards from the point it reports. *)
Lemma lp_irl_eq (block : nat → ndarray) :
(∀ idx, (idx < k - 1)%nat →
   constraint_rows Tp Tn Tinv idx = Ok (block idx) ∧
   shape0 (block idx) = n ∧ shape1 (block idx) = n ∧ wf (block idx)) →
lp_irl linalg_inv linprog uninit S_ A_ T gamma pi l1 Rmax =
(let res :=
   linprog (assembled_c uninit S_ l1)
     (mk_ndarray ((k - 1) * n + (k - 1) * n + n + 2 * n) (3 * n)
        (assembled_rows S_ A_ block))
     (assembled_b S_ A_ Rmax) in
 rewards ← extract S_ Rmax (res_x res); Ok (rewards, res)).
Proof.
intros Hblock. unfold lp_irl.
rewrite (assemble_eq linalg_inv uninit S_ A_ T gamma pi l1 Rmax Tp Tn Tinv
  HTp HTn HTinv Tinv_shape0 Tinv_shape1 block Hblock).
cbn [mbind result_bind]. unfold solve.
change (row0 _) with (Ok (assembled_c uninit S_ l1)).
cbn [mbind result_bind]. rewrite col0_singletons. done.
Qed.

(** C8, as the program has it. [lp_irl] does not look at what the solver
  reports about the solve: whatever the status and the success flag of
  the result, as long as the reported point has an entry among its first
  [n], [lp_irl] raises nothing and returns the rewards extracted from
  that point together with the result object, which is the only place
  where a failed solve shows. *)
Theorem lp_irl_returns_whatever_the_solver_reports :
∃ (c A_ub b_ub : ndarray) (c0 b0 : list Q),
  assemble linalg_inv uninit S_ A_ T gamma pi l1 Rmax = Ok (c, A_ub, b_ub) ∧
  row0 c = Ok c0 ∧ col0 b_ub = Ok b0 ∧
  (take n (res_x (linprog c0 A_ub b0)) ≠ [] →
   ∃ rewards,
     lp_irl linalg_inv linprog uninit S_ A_ T gamma pi l1 Rmax =
       Ok (rewards, linprog c0 A_ub b0) ∧
     extract S_ Rmax (res_x (linprog c0 A_ub b0)) = Ok rewards ∧
     length rewards = length (take n (res_x (linprog c0 A_ub b0)))).
Proof.
destruct (blocks_exist S_ A_ T pi Hwf Tp Tn Tinv
  HTp HTn Tinv_shape0 Tinv_shape1 Tinv_wf) as (block & Hblock).
do 5 eexists. split.
{ apply (assemble_eq linalg_inv uninit S_ A_ T gamma pi l1 Rmax Tp Tn Tinv
    HTp HTn HTinv Tinv_shape0 Tinv_shape1 block Hblock). }
split; [reflexivity|]. split; [apply col0_singletons|].
intros Hne. destruct (extract_Ok S_ Rmax _ Hne) as [rewards Hrew].
exists rewards. split_and!; [|done|by eapply extract_length].
rewrite (lp_irl_eq block Hblock). cbn zeta. by rewrite Hrew.
Qed.
End solve.

Close Scope Q_scope.

Local Open Scope Q_scope.

Section demo_solve.
Local Abbreviation linalg_inv := Demo.inv2.
Local Abbreviation S_ := Demo.S_.
Local Abbreviation A_ := Demo.A_.
Local Abbreviation T := Demo.T.
Local Abbreviation gamma := Demo.gamma.
Local Abbreviation pi := Demo.pi.
Local Abbreviation l1 := Demo.l1.
Local Abbreviation Rmax := Demo.Rmax.
Local Abbreviation Tp := Demo.Tp.
Local Abbreviation Tn := Demo.Tn.
Local Abbreviation Tinv := Demo.Tinv.
Local Abbreviation n := (n Demo.S_).

Lemma lp_irl_returns_whatever_the_solver_reports_witness :
let linprog := Demo.solver_returning Demo.infeasible_res in
let uninit := Demo.zero_mem in
∃ (c A_ub b_ub : ndarray) (c0 b0 : list Q),
  assemble linalg_inv uninit S_ A_ T gamma pi l1 Rmax = Ok (c, A_ub, b_ub) ∧
  row0 c = Ok c0 ∧ col0 b_ub = Ok b0 ∧
  (take n (res_x (linprog c0 A_ub b0)) ≠ [] →
   ∃ rewards,
     lp_irl linalg_inv linprog uninit S_ A_ T gamma pi l1 Rmax =
       Ok (rewards, linprog c0 A_ub b0) ∧
     extract S_ Rmax (res_x (linprog c0 A_ub b0)) = Ok rewards ∧
     length rewards = length (take n (res_x (linprog c0 A_ub b0)))).
Proof.
apply (lp_irl_returns_whatever_the_solver_reports linalg_inv
  (Demo.solver_returning Demo.infeasible_res) Demo.zero_mem
  S_ A_ T gamma pi l1 Rmax
  demo_well_formed Tp Tn Tinv demo_Tpi demo_Tnotpi demo_T_disc_inv
  eq_refl eq_refl demo_Tinv_wf).
Defined.

(** C8, as stated, fails. With a negative reward bound the assembled
  system has no feasible point ([R_0 <= -1] and [-R_0 <= 0]); a solver
  that reports this (status 2, no success) is not listened to: [lp_irl]
  returns normally, with a reward vector made from the point the solver
  stopped at. *)
Lemma lp_irl_infeasible_counterexample :
∃ (c A_ub b_ub : ndarray) (c0 b0 : list Q),
  assemble linalg_inv Demo.zero_mem S_ A_ T gamma pi l1 (-1) =
    Ok (c, A_ub, b_ub) ∧
  row0 c = Ok c0 ∧ col0 b_ub = Ok b0 ∧
  (∀ x, ¬ feasible A_ub b0 x) ∧
  Demo.solver_returning Demo.infeasible_res c0 A_ub b0 =
    Demo.infeasible_res ∧
  res_success Demo.infeasible_res = false ∧
  res_status Demo.infeasible_res = 2%nat ∧
  lp_irl linalg_inv (Demo.solver_returning Demo.infeasible_res)
    Demo.zero_mem S_ A_ T gamma pi l1 (-1) =
    Ok ([Fin 0; Fin (-1)], Demo.infeasible_res).
Proof.
destruct (blocks_exist S_ A_ T pi demo_well_formed Tp Tn Tinv
  demo_Tpi demo_Tnotpi eq_refl eq_refl demo_Tinv_wf) as (block & Hblock).
do 5 eexists. split.
{ apply (assemble_eq linalg_inv Demo.zero_mem S_ A_ T gamma pi l1 (-1)
    Tp Tn Tinv demo_Tpi demo_Tnotpi demo_T_disc_inv eq_refl eq_refl
    block Hblock). }
split; [reflexivity|]. split; [apply col0_singletons|].
split_and!; try reflexivity.
intros x Hfeas.
destruct (feasible_assembled S_ A_ (-1) block) with (x := x)
  as (_ & _ & _ & Hhi & Hlo & _);
  [intros j Hj; by apply Hblock..|done|].
assert (0 < n)%nat as H0 by (vm_compute; lia).
pose proof (Hhi 0%nat H0). pose proof (Hlo 0%nat H0). lra.
Qed.

End demo_solve.

Close Scope Q_scope.

(** ** Row sums and the discounted inverse *)

Local Open Scope Q_scope.

Lemma dot_proper_l u u' x : Forall2 Qeq u u' → dot u x == dot u' x.
Proof.
  intros H. revert x. induction H as [|a a' u u' Ha _ IH]; intros x.
  - reflexivity.
  - destruct x as [|b x]; [by rewrite !dot_nil_r|].
    rewrite !dot_cons, IH, Ha. reflexivity.
Qed.

Lemma vsum_vscale a u : vsum (vscale a u) == a * vsum u.
Proof. induction u as [|c u IH]; simpl; [lra|]. rewrite IH. lra. Qed.

Lemma vsum_vsub u v :
  length u = length v → vsum (vsub u v) == vsum u - vsum v.
Proof.
  revert v. induction u as [|c u IH]; intros [|d v] Hl; simpl in *;
    try lia; [lra|].
  rewrite IH by lia. lra.
Qed.

Lemma vsum_replicate_0 m : vsum (replicate m 0) == 0.
Proof. induction m as [|m IH]; simpl; [lra|]. rewrite IH. lra. Qed.

Lemma vsum_insert u j a :
  (j < length u)%nat →
  vsum (<[j := a]> u) == vsum u + (a - default 0 (u !! j)).
Proof.
  revert j. induction u as [|c u IH]; intros j Hj; simpl in Hj; [lia|].
  destruct j as [|j]; simpl; [lra|]. rewrite IH by lia. lra.
Qed.

Lemma vsum_unit_row m i a : (i < m)%nat → vsum (unit_row m i a) == a.
Proof.
  intros Hi. unfold unit_row.
  rewrite vsum_insert by (by rewrite length_replicate).
  rewrite vsum_replicate_0, lookup_replicate_2 by done. simpl. lra.
Qed.

(** [u . (c, ..., c) = c * sum u] *)
Lemma dot_const {A} (f : A → Q) (c : Q) u (rows : list A) :
  length u = length rows → Forall (λ d, f d == c) rows →
  dot u (f <$> rows) == c * vsum u.
Proof.
  intros Hl H. revert u Hl. induction H as [|d rows Hd _ IH]; intros u Hl.
  - destruct u; [|done]. unfold dot. simpl. lra.
  - destruct u as [|a u]; [done|]. simpl in Hl.
    change (f <$> d :: rows) with (f d :: (f <$> rows)).
    rewrite dot_cons, IH, Hd by lia. simpl. lra.
Qed.

(** [u . (alpha * w + c) = alpha * (u . w) + c * sum u] *)
Lemma dot_affine alpha c u v w :
  length u = length v →
  Forall2 (λ vj wj, vj == alpha * wj + c) v w →
  dot u v == alpha * dot u w + c * vsum u.
Proof.
  intros Hl H. revert u Hl. induction H as [|vj wj v w Hj _ IH]; intros u Hl.
  - destruct u; [|done]. unfold dot. simpl. lra.
  - destruct u as [|a u]; [done|]. simpl in Hl.
    rewrite !dot_cons, IH, Hj by lia. simpl. lra.
Qed.

Lemma dot_take_S u v m a b :
  u !! m = Some a → v !! m = Some b →
  dot (take (S m) u) v == dot (take m u) v + a * b.
Proof.
  revert v m. induction u as [|c u IH]; intros v m Ha Hb; [done|].
  destruct v as [|d v]; [done|]. destruct m as [|m]; simpl in *.
  - injection Ha as ->. injection Hb as ->. unfold dot. simpl. lra.
  - rewrite !dot_cons, (IH v m) by done. lra.
Qed.
Import Np LpIrl Mrp RoundTrip.

(** ** Solving the Bellman equation *)

Lemma list_to_map_zip_lookup (keys : list string) (vals : list Q) i s r :
  NoDup keys → keys !! i = Some s → vals !! i = Some r →
  (list_to_map (zip keys vals) : gmap string Q) !! s = Some r.
Proof.
  revert vals i. induction keys as [|s0 keys IH]; intros vals i Hnd Hs Hr.
  - done.
  - destruct vals as [|r0 vals]; [done|]. simpl.
    apply NoDup_cons in Hnd as [Hs0 Hnd]. destruct i as [|i]; simpl in *.
    + injection Hs as ->. injection Hr as ->. apply lookup_insert_eq.
    + rewrite lookup_insert_ne; [by eapply IH|].
      intros ->. apply Hs0. by eapply list_elem_of_lookup_2.
Qed.

Local Open Scope Q_scope.

Section bellman.
Variable linalg_inv : ndarray → result ndarray.
Variables (S_ A_ : list string) (T : ndarray) (gamma : Q).
Variable pi : gmap string string.

Local Abbreviation n := (n S_).
Local Abbreviation k := (k A_).
Local Abbreviation trans := (trans S_ A_ T).
Local Abbreviation reward_map := (reward_map S_).

Hypothesis Hwf : well_formed S_ A_ T pi.

Lemma get_reward_vector_eq (Tp : ndarray) (reward : list Q) :
length reward = n →
get_reward_vector (policy_mrp S_ gamma Tp reward) = Ok reward.
Proof.
intros Hlen. unfold get_reward_vector, policy_mrp, RoundTrip.reward_map.
simpl.
edestruct (for_in_inv (λ m (rv : list Q), rv = take m reward) S_)
  as (rv & -> & ->); last first.
{ f_equal. apply take_ge. unfold LpIrl.n in *. lia. }
- intros i s rv Hs ->.
  destruct (lookup_lt_is_Some_2 reward i) as [r Hr].
  { apply lookup_lt_Some in Hs. unfold LpIrl.n in *. lia. }
  rewrite (list_to_map_zip_lookup S_ reward i s r) by (done || apply Hwf).
  simpl. eexists; split; [done|]. by erewrite take_S_r.
- done.
Qed.

(** The value map [solve_bellman_equation] builds from the value vector. *)
Lemma value_map_loop (vv : list Q) :
length vv = n →
∃ vm : gmap string Q,
  for_in (range (length S_)) (λ i value_map,
    s ← of_option IndexError (S_ !! i);
    v ← of_option IndexError (vv !! i);
    Ok (<[s := v]> value_map)) ∅ = Ok vm ∧
  ∀ i s, S_ !! i = Some s → vm !! s = vv !! i.
Proof.
intros Hlen. destruct Hwf as (HS & _).
edestruct (for_in_inv (λ m (vm : gmap string Q),
    ∀ i s, S_ !! i = Some s →
      vm !! s = if decide (i < m)%nat then vv !! i else None)
  (range (length S_))) as (vm & Hvm & Hlook); last first.
{ exists vm. split; [exact Hvm|]. intros i s Hs.
  rewrite (Hlook i s Hs), range_length, decide_True; [done|].
  by eapply lookup_lt_Some. }
- intros m ? vm [<- Hm]%range_lookup_Some Hvm.
  destruct (lookup_lt_is_Some_2 S_ m Hm) as [sm Hsm].
  destruct (lookup_lt_is_Some_2 vv m) as [v Hv].
  { unfold LpIrl.n in *. lia. }
  rewrite Hsm, Hv. simpl. eexists; split; [done|].
  intros i s Hs. destruct (decide (i = m)) as [->|Hne].
  + assert (s = sm) as -> by congruence.
    by rewrite lookup_insert_eq, decide_True by lia.
  + rewrite lookup_insert_ne.
    * rewrite (Hvm i s Hs). destruct (decide (i < m)%nat).
      -- by rewrite decide_True by lia.
      -- by rewrite decide_False by lia.
    * intros ->. apply Hne. symmetry. by eapply NoDup_lookup.
- intros i s _. by rewrite lookup_empty, decide_False by lia.
Qed.

(** [solve_bellman_equation] on the process the policy induces: the value
  of state [i] is row [i] of the inverse times the reward vector. *)
Lemma solve_bellman_equation_eq (Tp D Tinv : ndarray) (reward : list Q) :
¬ gamma == 1 →
sub (identity n) (scale gamma Tp) = Ok D →
linalg_inv D = Ok Tinv →
shape0 Tinv = n → shape1 Tinv = n → wf Tinv →
length reward = n →
∃ vm : gmap string Q,
  solve_bellman_equation linalg_inv (policy_mrp S_ gamma Tp reward) = Ok vm ∧
  ∀ i s, S_ !! i = Some s →
    vm !! s = ((λ r, dot r reward) <$> data Tinv) !! i.
Proof.
intros Hg HD Hinv H0 H1 [Hlen _] Hr.
destruct (value_map_loop ((λ r, dot r reward) <$> data Tinv))
  as (vm & Hvm & Hlook).
{ rewrite length_fmap. congruence. }
exists vm. split; [|done].
unfold solve_bellman_equation.
change (discount_factor (policy_mrp S_ gamma Tp reward)) with gamma.
change (transition_matrix (policy_mrp S_ gamma Tp reward)) with Tp.
change (state_set (policy_mrp S_ gamma Tp reward)) with S_.
destruct (Qeq_bool gamma 1) eqn:E; [by apply Qeq_bool_iff in E|].
fold n. rewrite HD. simpl. rewrite Hinv. simpl.
rewrite get_reward_vector_eq by done. simpl.
unfold matvec. rewrite decide_True by congruence. simpl. exact Hvm.
Qed.

(** The expected value of the next state is the dot product of the
  transition row with the value vector. *)
Lemma action_value_eq (reward vv : list Q) (vm : gmap string Q) i s a j r row :
S_ !! i = Some s → A_ !! j = Some a → reward !! i = Some r →
data T !! (i * k + j)%nat = Some row →
length vv = n →
(∀ i' s', S_ !! i' = Some s' → vm !! s' = vv !! i') →
∃ q, action_value S_ A_ T gamma (reward_map reward) vm s a = Ok q ∧
     q == r + gamma * dot row vv.
Proof.
intros Hs Ha Hr Hrow Hvv Hvm. unfold action_value, RoundTrip.reward_map.
rewrite (list_to_map_zip_lookup S_ reward i s r) by (done || apply Hwf).
simpl.
assert (length row = n) as Hrowlen.
{ destruct Hwf as (_ & _ & [_ HT] & _ & <- & _).
  rewrite Forall_forall in HT. apply HT. by eapply list_elem_of_lookup_2. }
edestruct (for_in_inv (λ m (acc : Q), acc == dot (take m row) vv) S_)
  as (ev & -> & Hev); last first.
{ simpl. eexists; split; [done|]. rewrite Hev.
  rewrite take_ge by (unfold LpIrl.n in *; lia). reflexivity. }
- intros i' s' acc Hs' Hacc.
  pose proof (lookup_lt_Some _ _ _ Hs') as Hi'.
  destruct (lookup_lt_is_Some_2 row i') as [p Hp].
  { unfold LpIrl.n in *. lia. }
  destruct (lookup_lt_is_Some_2 vv i') as [v Hv].
  { unfold LpIrl.n in *. lia. }
  rewrite (trans_get S_ A_ T pi Hwf i i' j s s' a) by done.
  unfold get. rewrite Hrow. simpl. rewrite Hp. simpl.
  rewrite (Hvm i' s' Hs'), Hv. simpl.
  eexists; split; [done|].
  rewrite (dot_take_S row vv i' p v) by done. rewrite Hacc. reflexivity.
- unfold dot. simpl. reflexivity.
Qed.
End bellman.

Close Scope Q_scope.
Import Np LpIrl Mrp RoundTrip.

(** ** The round trip *)

Local Open Scope Q_scope.

Lemma dot_ones u : dot u (replicate (length u) 1) == vsum u.
Proof.
  induction u as [|a u IH]; simpl; [reflexivity|].
  rewrite dot_cons, IH. lra.
Qed.

Section round_trip.
Variable linalg_inv : ndarray → result ndarray.
Variables (S_ A_ : list string) (T : ndarray) (gamma : Q).
Variable pi : gmap string string.

Local Abbreviation n := (n S_).
Local Abbreviation k := (k A_).

Hypothesis Hwf : well_formed S_ A_ T pi.
Hypothesis Hstoch : stochastic T.
Hypothesis Hgamma : gamma < 1.

Variables (Tp D Tinv P : ndarray).
Hypothesis HTp : Tpi S_ A_ T pi = Ok Tp.
Hypothesis HD : sub (identity n) (scale gamma Tp) = Ok D.
Hypothesis Tinv_shape0 : shape0 Tinv = n.
Hypothesis Tinv_shape1 : shape1 Tinv = n.
Hypothesis Tinv_wf : wf Tinv.
Hypothesis HP : matmul Tinv D = Ok P.
Hypothesis Hinverse : rows_eq (data P) (data (identity n)).

Lemma T_row_sum r row : data T !! r = Some row → vsum row == 1.
Proof.
intros Hr. unfold stochastic in Hstoch. rewrite Forall_forall in Hstoch.
apply Hstoch. by eapply list_elem_of_lookup_2.
Qed.

Lemma Tp_row i row :
data Tp !! i = Some row → length row = n ∧ vsum row == 1.
Proof.
intros Hrow.
destruct (Tpi_spec S_ A_ T pi Hwf) as (Tp' & HTp' & H0 & H1 & Hpwf & Hrows).
assert (Tp' = Tp) as -> by congruence.
pose proof (lookup_lt_Some _ _ _ Hrow) as Hi.
destruct Hpwf as [Hlen Hall]. rewrite Hlen, H0 in Hi. split.
- rewrite Forall_forall in Hall. rewrite <- H1. apply Hall.
  by eapply list_elem_of_lookup_2.
- destruct (lookup_lt_is_Some_2 S_ i Hi) as [s Hs].
  destruct (pi_total S_ A_ T pi Hwf i s Hs)
    as (a & Ha & [j Hj]%list_elem_of_lookup_1).
  destruct (Hrows i s a j Hs Ha Hj) as [Heq _].
  rewrite Hrow in Heq. by eapply T_row_sum.
Qed.

Lemma D_data :
data D = zip_with vsub (data (identity n)) (data (scale gamma Tp)).
Proof.
pose proof HD as HD'. unfold sub in HD'.
destruct (decide (shape0 (identity n) = shape0 (scale gamma Tp) ∧ _))
  as [_|]; [|done].
injection HD' as HD'. by rewrite <- HD'.
Qed.

Lemma D_row d :
d ∈ data D → length d = n ∧ dot d (replicate n 1) == 1 - gamma.
Proof.
intros [i Hd]%list_elem_of_lookup_1. rewrite D_data in Hd.
cbn [data identity scale] in Hd.
apply lookup_zip_with_Some in Hd as (u & v & -> & Hu & Hv).
rewrite list_lookup_fmap in Hu. rewrite list_lookup_fmap in Hv.
destruct (range n !! i) as [i'|] eqn:Ei; [|done].
apply range_lookup_Some in Ei as [<- Hi]. injection Hu as <-.
destruct (data Tp !! i) as [row|] eqn:Erow; [|done].
injection Hv as <-. destruct (Tp_row i row Erow) as [Hlen Hsum].
assert (length (vsub (unit_row n i 1) (vscale gamma row)) = n) as Hl.
{ unfold vsub. rewrite length_zip_with, unit_row_length, vscale_length. lia. }
split; [done|].
replace (replicate n 1)
  with (replicate (length (vsub (unit_row n i 1) (vscale gamma row))) 1)
  by (by rewrite Hl).
rewrite dot_ones.
rewrite vsum_vsub by (by rewrite unit_row_length, vscale_length).
rewrite vsum_unit_row, vsum_vscale, Hsum by done. lra.
Qed.

Lemma D_length : length (data D) = n.
Proof.
destruct (Tpi_spec S_ A_ T pi Hwf) as (Tp' & HTp' & H0 & H1 & [Hlen _] & _).
assert (Tp' = Tp) as Heq by congruence. rewrite Heq in *.
rewrite D_data. cbn [data identity scale].
rewrite length_zip_with, !length_fmap, range_length. lia.
Qed.

(** Every row of the discounted inverse sums to [1 / (1 - gamma)]. *)
Lemma Tinv_row_sum j r :
data Tinv !! j = Some r → length r = n ∧ (1 - gamma) * vsum r == 1.
Proof.
intros Hr. destruct Tinv_wf as [Hlen Hrows].
pose proof (lookup_lt_Some _ _ _ Hr) as Hj. rewrite Hlen, Tinv_shape0 in Hj.
assert (length r = n) as Hrl.
{ rewrite Forall_forall in Hrows. rewrite <- Tinv_shape1. apply Hrows.
  by eapply list_elem_of_lookup_2. }
split; [done|].
assert (data P = (λ r, lincomb (shape1 D) r (data D)) <$> data Tinv) as HPd.
{ pose proof HP as HP'. unfold matmul in HP'.
  destruct (decide (shape1 Tinv = shape0 D)) as [_|]; [|done].
  injection HP' as HP'. by rewrite <- HP'. }
pose proof Hinverse as Hinv. unfold rows_eq in Hinv.
rewrite HPd in Hinv. cbn [data identity] in Hinv.
rewrite Forall2_lookup in Hinv.
specialize (Hinv j). rewrite !list_lookup_fmap, Hr in Hinv.
rewrite range_lookup in Hinv by done. simpl in Hinv.
inversion Hinv as [? ? Hrow| ]; subst.
pose proof (dot_proper_l _ _ (replicate n 1) Hrow) as Hdot.
rewrite dot_unit_row, lookup_replicate_2 in Hdot by done. simpl in Hdot.
assert (shape1 D = n) as HD1.
{ pose proof HD as HD'. unfold sub in HD'.
  destruct (decide (shape0 (identity n) = shape0 (scale gamma Tp) ∧ _))
    as [_|]; [|done].
  injection HD' as HD'. by rewrite <- HD'. }
rewrite dot_lincomb in Hdot.
- rewrite (dot_const _ (1 - gamma)) in Hdot; [lra|by rewrite D_length|].
  apply Forall_forall. intros d Hd. by apply D_row.
- apply Forall_forall. intros d Hd. rewrite HD1. by apply D_row.
Qed.
End round_trip.

Close Scope Q_scope.
Import Np LpIrl Mrp RoundTrip.

Local Open Scope Q_scope.

Section lp_irl_round_trip.
Variable linalg_inv : ndarray → result ndarray.
Variable linprog : list Q → ndarray → list Q → OptimizeResult.
Variable uninit : nat → nat → Q.
Variables (S_ A_ : list string) (T : ndarray) (gamma : Q).
Variable pi : gmap string string.
Variables (l1 Rmax : Q).

Local Abbreviation n := (n S_).
Local Abbreviation k := (k A_).

Hypothesis Hvalid : valid S_ A_ T gamma pi l1 Rmax.

Variables (Tp : ndarray) (Tn : gmap nat ndarray) (D Tinv P : ndarray).
Hypothesis HTp : Tpi S_ A_ T pi = Ok Tp.
Hypothesis HTn : Tnotpi S_ A_ T pi = Ok Tn.
Hypothesis HD : sub (identity n) (scale gamma Tp) = Ok D.
Hypothesis Hinv : linalg_inv D = Ok Tinv.
Hypothesis Tinv_shape0 : shape0 Tinv = n.
Hypothesis Tinv_shape1 : shape1 Tinv = n.
Hypothesis Tinv_wf : wf Tinv.
Hypothesis HP : matmul Tinv D = Ok P.
Hypothesis Hinverse : rows_eq (data P) (data (identity n)).

Lemma valid_well_formed : well_formed S_ A_ T pi.
Proof. apply Hvalid. Qed.

Lemma T_disc_inv_eq : T_disc_inv linalg_inv S_ gamma Tp = Ok Tinv.
Proof. unfold T_disc_inv. by rewrite HD. Qed.

(** The values [w = T_disc_inv @ x[0:n]] of the unnormalised rewards: at a
  feasible point, the policy row is worth at least the deviation row. *)
Lemma feasible_rows (block : nat → ndarray) (x : list Q) :
(∀ idx, (idx < k - 1)%nat →
   constraint_rows Tp Tn Tinv idx = Ok (block idx) ∧
   shape0 (block idx) = n ∧ shape1 (block idx) = n ∧ wf (block idx)) →
feasible
  (mk_ndarray ((k - 1) * n + (k - 1) * n + n + 2 * n) (3 * n)
     (assembled_rows S_ A_ block))
  (assembled_b S_ A_ Rmax) x →
∀ idx M i rp rm, (idx < k - 1)%nat → Tn !! idx = Some M →
  data Tp !! i = Some rp → data M !! i = Some rm →
  length rp = length rm →
  dot rm ((λ b, dot b (take n x)) <$> data Tinv) <=
  dot rp ((λ b, dot b (take n x)) <$> data Tinv).
Proof.
intros Hblock Hfeas idx M i rp rm Hidx HM Hrp Hrm Hlen.
destruct (feasible_assembled S_ A_ Rmax block) with (x := x)
  as (_ & H1 & _); [intros; by apply Hblock..|done|].
destruct (Hblock idx Hidx) as (Hrows & _).
unfold constraint_rows in Hrows. rewrite HM in Hrows. simpl in Hrows.
unfold sub in Hrows. destruct (decide _) as [_|]; [|done]. simpl in Hrows.
unfold matmul in Hrows. destruct (decide _) as [_|]; [|done].
injection Hrows as Hrows.
assert (data (block idx) !! i =
        Some (lincomb (shape1 Tinv) (vscale (-1) (vsub rp rm)) (data Tinv)))
  as Hrow.
{ rewrite <- Hrows. simpl. rewrite !list_lookup_fmap, lookup_zip_with.
  by rewrite Hrp, Hrm. }
pose proof (H1 idx i _ Hidx Hrow) as Ha.
destruct Tinv_wf as [_ Hirows].
rewrite dot_lincomb, dot_vscale, dot_vsub in Ha by done. lra.
Qed.

(** The rewards [lp_irl] returns are an increasing affine image of the
  unnormalised rewards, so the values they induce are one of the values
  [w]: the order between rows is kept. *)
Lemma normalized_values (xr : list Q) (mn mx : Q) rp rm :
mn < mx → length xr = n → length rp = n → length rm = n →
vsum rp == 1 → vsum rm == 1 →
dot rm ((λ b, dot b xr) <$> data Tinv) <=
dot rp ((λ b, dot b xr) <$> data Tinv) →
dot rm ((λ b, dot b ((λ xi, Rmax * ((xi - mn) / (mx - mn))) <$> xr))
          <$> data Tinv) <=
dot rp ((λ b, dot b ((λ xi, Rmax * ((xi - mn) / (mx - mn))) <$> xr))
          <$> data Tinv).
Proof.
intros Hlt Hxr Hrp Hrm Hsp Hsm Hle.
destruct Hvalid as (Hwf & Hstoch & _ & _ & Hg0 & Hg1 & _ & HR).
set (alpha := Rmax / (mx - mn)).
set (beta := - alpha * mn).
set (c := beta / (1 - gamma)).
assert (0 < alpha) as Halpha.
{ unfold alpha, Qdiv. apply Qmult_lt_0_compat; [done|].
  apply Qinv_lt_0_compat. lra. }
assert (Forall2 (λ vj wj, vj == alpha * wj + c)
          ((λ b, dot b ((λ xi, Rmax * ((xi - mn) / (mx - mn))) <$> xr))
             <$> data Tinv)
          ((λ b, dot b xr) <$> data Tinv)) as Hvw.
{ apply Forall2_fmap, Forall2_lookup. intros j.
  destruct (data Tinv !! j) as [r|] eqn:Er; constructor.
  destruct (Tinv_row_sum S_ A_ T gamma pi Hwf Hstoch Tp D Tinv P
    HTp HD Tinv_shape0 Tinv_shape1 Tinv_wf HP Hinverse j r Er) as [Hrl Hsum].
  rewrite (dot_affine alpha beta r _ xr).
  - unfold c. assert (vsum r == / (1 - gamma)) as ->.
    { apply (Qmult_inj_l _ _ (1 - gamma)); [lra|].
      rewrite Hsum. field. lra. }
    field. lra.
  - rewrite length_fmap. congruence.
  - apply Forall2_fmap_l, Forall_Forall2_diag, Forall_forall.
    intros xi _. simpl. unfold beta, alpha. field. lra. }
assert (length (data Tinv) = n) as Hil.
{ destruct Tinv_wf as [-> _]. done. }
pose proof (λ H, dot_affine alpha c rp _ _ H Hvw) as Ep.
pose proof (λ H, dot_affine alpha c rm _ _ H Hvw) as Em.
rewrite Ep, Em by (rewrite length_fmap; congruence).
rewrite Hsp, Hsm. nra.
Qed.

Lemma T_row_exists i j :
(i < n)%nat → (j < k)%nat →
∃ row, data T !! (i * k + j)%nat = Some row ∧ length row = n ∧
       vsum row == 1.
Proof.
intros Hi Hj.
destruct Hvalid as ((_ & _ & [HTl HTr] & HT0 & HT1 & _) & Hstoch & _).
destruct (lookup_lt_is_Some_2 (data T) (i * k + j)) as [row Hrow].
{ rewrite HTl, HT0. unfold LpIrl.n, LpIrl.k in *. nia. }
exists row. split; [done|]. split.
- rewrite Forall_forall in HTr. rewrite <- HT1. apply HTr.
  by eapply list_elem_of_lookup_2.
- unfold stochastic in Hstoch. rewrite Forall_forall in Hstoch.
  apply Hstoch. by eapply list_elem_of_lookup_2.
Qed.

(** Where the round trip holds. For valid inputs, when [numpy.linalg.inv]
  has returned an inverse of [I - gamma * Tpi], when the point the
  solver reports satisfies the assembled rows [A_ub @ x <= b_ub], and when
  the first [n] entries of that point are not all equal, [lp_irl] returns
  a reward vector for which the policy is optimal: with the values
  [solve_bellman_equation] finds for it, the policy action is at every
  state worth at least as much as every action. *)
Theorem lp_irl_round_trip :
∃ (c A_ub b_ub : ndarray) (c0 b0 : list Q),
  assemble linalg_inv uninit S_ A_ T gamma pi l1 Rmax = Ok (c, A_ub, b_ub) ∧
  row0 c = Ok c0 ∧ col0 b_ub = Ok b0 ∧
  (feasible A_ub b0 (res_x (linprog c0 A_ub b0)) →
   all_equal (take n (res_x (linprog c0 A_ub b0))) = false →
   ∃ rewards,
     lp_irl linalg_inv linprog uninit S_ A_ T gamma pi l1 Rmax =
       Ok (rewards, linprog c0 A_ub b0) ∧
     rewards_make_policy_optimal linalg_inv S_ A_ T gamma pi rewards).
Proof.
pose proof valid_well_formed as Hwf.
pose proof T_disc_inv_eq as HTinv.
destruct (blocks_exist S_ A_ T pi Hwf Tp Tn Tinv
  HTp HTn Tinv_shape0 Tinv_shape1 Tinv_wf) as (block & Hblock).
do 5 eexists. split.
{ apply (assemble_eq linalg_inv uninit S_ A_ T gamma pi l1 Rmax Tp Tn Tinv
    HTp HTn HTinv Tinv_shape0 Tinv_shape1 block Hblock). }
split; [reflexivity|]. split; [apply col0_singletons|].
set (res := linprog _ _ _). intros Hfeas Hne.
set (xr := take n (res_x res)) in *.
destruct Hvalid as (_ & Hstoch & _ & _ & Hg0 & Hg1 & _ & HR).
assert (length xr = n) as Hxr.
{ destruct Hfeas as [Hlen _]. simpl in Hlen. unfold xr.
  rewrite length_take. lia. }
destruct (min_max_Ok xr) as (mn & mx & Hmn & Hmx).
{ intros E. by rewrite E in Hne. }
pose proof (all_equal_false xr mn mx Hne Hmn Hmx) as Hlt.
set (reward := (λ xi, Rmax * ((xi - mn) / (mx - mn))) <$> xr).
assert (length reward = n) as Hrl by (unfold reward; by rewrite length_fmap).
exists (Fin <$> reward). split.
{ rewrite (lp_irl_eq linalg_inv linprog uninit S_ A_ T gamma pi l1 Rmax
    Tp Tn Tinv HTp HTn HTinv Tinv_shape0 Tinv_shape1 block Hblock).
  cbn zeta. fold res. unfold extract. fold xr.
  rewrite (normalize_nondegenerate xr mn mx) by done. simpl.
  unfold reward. rewrite <- !list_fmap_compose. reflexivity. }
exists reward. split; [done|].
destruct (solve_bellman_equation_eq linalg_inv S_ A_ T gamma pi Hwf
  Tp D Tinv reward) as (vm & Hvm & Hlook); try done.
{ intros E. lra. }
exists Tp, vm. split; [done|]. split; [done|].
intros s a [i Hs]%list_elem_of_lookup_1 [j Ha]%list_elem_of_lookup_1.
destruct (pi_total S_ A_ T pi Hwf i s Hs)
  as (p & Hp & [jp Hjp]%list_elem_of_lookup_1).
pose proof (lookup_lt_Some _ _ _ Hs) as Hi.
pose proof (lookup_lt_Some _ _ _ Ha) as Hj.
pose proof (lookup_lt_Some _ _ _ Hjp) as Hjp'.
destruct (T_row_exists i jp Hi Hjp') as (rp & Hrp & Hrpl & Hrps).
destruct (T_row_exists i j Hi Hj) as (ra & Hra & Hral & Hras).
destruct (lookup_lt_is_Some_2 reward i) as [r Hr];
  [rewrite Hrl; exact Hi|].
set (vv := (λ b, dot b reward) <$> data Tinv) in *.
assert (length vv = n) as Hvv.
{ unfold vv. rewrite length_fmap. destruct Tinv_wf as [-> _]. done. }
destruct (action_value_eq S_ A_ T gamma pi Hwf reward vv vm i s p jp r rp)
  as (qp & Hqp & Eqp); try done.
destruct (action_value_eq S_ A_ T gamma pi Hwf reward vv vm i s a j r ra)
  as (qa & Hqa & Eqa); try done.
exists p, qp, qa. split_and!; [done..|].
rewrite Eqp, Eqa.
assert (dot ra vv <= dot rp vv) as Hle; [|nra].
destruct (decide (a = p)) as [->|Hap].
{ assert (j = jp) as -> by (eapply NoDup_lookup; [apply Hwf|done..]).
  assert (ra = rp) as -> by congruence. lra. }
destruct (non_policy_action_cover S_ A_ T pi Hwf i s p a Hs Hp)
  as (idx & Hidx & Hnpa); [by eapply list_elem_of_lookup_2|done|].
destruct (Tpi_spec S_ A_ T pi Hwf) as (Tp' & HTp' & _ & _ & _ & Hprows).
assert (Tp' = Tp) as Heq by congruence. rewrite Heq in *. clear Heq HTp'.
destruct (Hprows i s p jp Hs Hp Hjp) as [HTprow _].
destruct (Tnotpi_spec S_ A_ T pi Hwf) as (Tn' & HTn' & _ & HM).
assert (Tn' = Tn) as Heq by congruence. rewrite Heq in *. clear Heq HTn'.
destruct (HM idx Hidx) as (M & HMi & _ & _ & _ & Hmrows).
destruct (Hmrows i s a j Hs Hnpa Ha) as [HMrow _].
rewrite Hrp in HTprow. rewrite Hra in HMrow.
unfold vv, reward.
apply (normalized_values xr mn mx rp ra); try done.
apply (feasible_rows block (res_x res) Hblock Hfeas idx M i rp ra);
  try done. congruence.
Qed.
End lp_irl_round_trip.

Close Scope Q_scope.
Import Np LpIrl Mrp RoundTrip.

Local Open Scope Q_scope.

Section demo_round_trip.
Local Abbreviation linalg_inv := Demo.inv2.
Local Abbreviation uninit := Demo.zero_mem.
Local Abbreviation S_ := Demo.S_.
Local Abbreviation A_ := Demo.A_.
Local Abbreviation T := Demo.T.
Local Abbreviation gamma := Demo.gamma.
Local Abbreviation pi := Demo.pi.
Local Abbreviation l1 := Demo.l1.
Local Abbreviation Rmax := Demo.Rmax.
Local Abbreviation Tp := Demo.Tp.
Local Abbreviation Tn := Demo.Tn.
Local Abbreviation Tinv := Demo.Tinv.
Local Abbreviation n := (n Demo.S_).

Lemma demo_valid : valid S_ A_ T gamma pi l1 Rmax.
Proof.
split; [exact demo_well_formed|]. split.
- repeat constructor; by vm_compute.
- split_and!; by vm_compute.
Defined.

Lemma lp_irl_round_trip_witness :
∃ rewards,
  lp_irl linalg_inv (Demo.solver_returning Demo.feasible_res) uninit
    S_ A_ T gamma pi l1 Rmax = Ok (rewards, Demo.feasible_res) ∧
  rewards_make_policy_optimal linalg_inv S_ A_ T gamma pi rewards.
Proof.
edestruct (lp_irl_round_trip linalg_inv
  (Demo.solver_returning Demo.feasible_res) uninit
  S_ A_ T gamma pi l1 Rmax demo_valid Tp Tn Demo.D Tinv Demo.P
  demo_Tpi demo_Tnotpi)
  as (c & A_ub & b_ub & c0 & b0 & Hasm & Hc0 & Hb0 & H).
- vm_compute. reflexivity.
- vm_compute. reflexivity.
- reflexivity.
- reflexivity.
- exact demo_Tinv_wf.
- vm_compute. reflexivity.
- repeat constructor; by vm_compute.
- vm_compute in Hasm. injection Hasm as <- <- <-.
  vm_compute in Hb0. injection Hb0 as <-.
  apply H.
  + split; [reflexivity|]. repeat constructor; by vm_compute.
  + reflexivity.
Defined.

Lemma demo_assemble :
assemble linalg_inv uninit S_ A_ T gamma pi l1 Rmax =
Ok (mk_ndarray 1 6 [[0; 0; -1; -1; 10; 10]],
    mk_ndarray 10 6
      [[19250000 # 59290000; -19250000 # 59290000; 0; 0; 0; 0];
       [0 # 5929; 0 # 5929; 0; 0; 0; 0];
       [19250000 # 59290000; -19250000 # 59290000; 1; 0; 0; 0];
       [0 # 5929; 0 # 5929; 0; 1; 0; 0];
       [1; 0; 0; 0; 0; 0];
       [0; 1; 0; 0; 0; 0];
       [-1; 0; 0; 0; 0; 0];
       [1; 0; 0; 0; -1; 0];
       [0; -1; 0; 0; 0; 0];
       [0; 1; 0; 0; 0; -1]],
    mk_ndarray 10 1 [[0]; [0]; [0]; [0]; [2]; [2]; [0]; [0]; [0]; [0]]).
Proof. vm_compute. reflexivity. Qed.

(** What feasibility says for the example's problem, inequality by
  inequality. *)
Lemma demo_feasible (y : list Q) :
feasible
  (mk_ndarray 10 6
     [[19250000 # 59290000; -19250000 # 59290000; 0; 0; 0; 0];
      [0 # 5929; 0 # 5929; 0; 0; 0; 0];
      [19250000 # 59290000; -19250000 # 59290000; 1; 0; 0; 0];
      [0 # 5929; 0 # 5929; 0; 1; 0; 0];
      [1; 0; 0; 0; 0; 0];
      [0; 1; 0; 0; 0; 0];
      [-1; 0; 0; 0; 0; 0];
      [1; 0; 0; 0; -1; 0];
      [0; -1; 0; 0; 0; 0];
      [0; 1; 0; 0; 0; -1]])
  [0; 0; 0; 0; 2; 2; 0; 0; 0; 0] y →
∃ r0 r1 m0 m1 z0 z1, y = [r0; r1; m0; m1; z0; z1] ∧
  (19250000 # 59290000) * (r0 - r1) + m0 <= 0 ∧ m1 <= 0 ∧
  0 <= r0 ∧ 0 <= r1 ∧ r0 <= z0 ∧ r1 <= z1 ∧ r0 <= 2 ∧ r1 <= 2.
Proof.
intros [Hlen HF]. simpl in Hlen.
destruct y as [|r0 [|r1 [|m0 [|m1 [|z0 [|z1 [|]]]]]]]; try done.
exists r0, r1, m0, m1, z0, z1. split; [done|].
do 10 (apply Forall2_cons_1 in HF as [? HF]).
unfold dot in *. simpl in *. split_and!; lra.
Qed.

(** C9, checked on the example. The first [n] objective coefficients are
  whatever [np.empty] found in memory. Two calls on the one input, one on
  memory holding zeros and one on memory holding a stale [-100.0], hand
  the solver the same constraints and bounds and two objectives; a
  deterministic solver that is exact on both answers with two optima, and
  [lp_irl] returns [[nan, nan]] from the one call and [[0, 2]] from the
  other. *)
Theorem lp_irl_depends_on_uninitialised_memory :
(∃ (c c' A_ub b_ub : ndarray) (c0 c0' b0 : list Q),
   assemble linalg_inv Demo.zero_mem S_ A_ T gamma pi l1 Rmax =
     Ok (c, A_ub, b_ub) ∧
   assemble linalg_inv Demo.stale_mem S_ A_ T gamma pi l1 Rmax =
     Ok (c', A_ub, b_ub) ∧
   row0 c = Ok c0 ∧ row0 c' = Ok c0' ∧ col0 b_ub = Ok b0 ∧
   c0 = [0; 0; -1; -1; 10; 10] ∧ c0' = [0; -100; -1; -1; 10; 10] ∧
   optimal c0 A_ub b0 (res_x (Demo.exact_solver c0 A_ub b0)) ∧
   optimal c0' A_ub b0 (res_x (Demo.exact_solver c0' A_ub b0))) ∧
lp_irl linalg_inv Demo.exact_solver Demo.zero_mem
  S_ A_ T gamma pi l1 Rmax = Ok ([NaN; NaN], Demo.zero_res) ∧
lp_irl linalg_inv Demo.exact_solver Demo.stale_mem
  S_ A_ T gamma pi l1 Rmax =
  Ok ([Fin (0 # 2); Fin (4 # 2)], Demo.stale_res).
Proof.
split; [|split; by vm_compute].
do 7 eexists. split; [exact demo_assemble|].
split; [by vm_compute|].
split; [reflexivity|]. split; [reflexivity|]. split; [reflexivity|].
split; [reflexivity|]. split; [reflexivity|]. split.
- split.
  + split; [reflexivity|]. repeat constructor; by vm_compute.
  + intros y Hy.
    destruct (demo_feasible y Hy)
      as (r0 & r1 & m0 & m1 & z0 & z1 & -> & H1 & H2 & H3 & H4 & H5 & H6 & _).
    unfold dot. simpl. lra.
- split.
  + split; [reflexivity|]. repeat constructor; by vm_compute.
  + intros y Hy.
    destruct (demo_feasible y Hy)
      as (r0 & r1 & m0 & m1 & z0 & z1 & -> &
          H1 & H2 & H3 & H4 & H5 & H6 & H7 & H8).
    unfold dot. simpl. lra.
Qed.
End demo_round_trip.

Close Scope Q_scope.

(** ** What a call leaves in the store *)

Module StoreFacts.
Import Store.

Lemma preserves_refl base h : preserves base h h.
Proof. by split. Qed.

Lemma preserves_trans base h1 h2 h3 :
preserves base h1 h2 → preserves base h2 h3 → preserves base h1 h3.
Proof. intros [E1 L1] [E2 L2]. split; [congruence|lia]. Qed.

Lemma local_ret base {A} (a : A) (Q : A → Prop) :
Q a → local base (mret a) Q.
Proof.
intros HQ h Hh r h' [= <- <-]. split; [apply preserves_refl|].
by intros ? [= <-].
Qed.

Lemma local_bind base {A B} (m : M A) (f : A → M B) (Q : A → Prop)
  (R : B → Prop) :
local base m Q → (∀ a, Q a → local base (f a) R) →
local base (m ≫= f) R.
Proof.
intros Hm Hf h Hh r h' Hrun. unfold mbind, M_bind in Hrun.
destruct (m h) as [[a|e] h1] eqn:E1.
- destruct (Hm h Hh _ _ E1) as [Hp1 HQ].
  destruct (Hf a (HQ a eq_refl) h1) with (r := r) (h' := h') as [Hp2 HR];
    [destruct Hp1; lia|done|].
  split; [by eapply preserves_trans|done].
- injection Hrun as <- <-. destruct (Hm h Hh _ _ E1) as [Hp1 _].
  split; [done|]. intros ? [=].
Qed.

Lemma local_conseq base {A} (m : M A) (Q R : A → Prop) :
local base m Q → (∀ a, Q a → R a) → local base m R.
Proof.
intros Hm HQR h Hh r h' Hrun. destruct (Hm h Hh r h' Hrun) as [? HQ].
split; [done|]. intros a Ha. by apply HQR, HQ.
Qed.

Lemma local_lift base {A} (r : result A) (Q : A → Prop) :
(∀ a, r = Ok a → Q a) → local base (lift r) Q.
Proof.
intros HQ h Hh r' h' [= <- <-]. split; [apply preserves_refl|done].
Qed.

Lemma local_lift_True base {A} (r : result A) :
local base (lift r) (λ _, True).
Proof. by apply local_lift. Qed.

Lemma local_for_in base {A B} (l : list A) (body : A → B → M B)
  (Q : B → Prop) acc :
Q acc → (∀ x b, Q b → local base (body x b) Q) →
local base (for_in l body acc) Q.
Proof.
intros Hacc Hbody. revert acc Hacc.
induction l as [|x l IH]; intros acc Hacc; simpl.
- by apply local_ret.
- eapply local_bind; [by apply Hbody|]. intros b Hb. by apply IH.
Qed.

(** A new object never touches an old one, and its reference is new. *)
Lemma local_alloc base o : local base (alloc o) (λ l, base ≤ l).
Proof.
intros h Hh r h' [= <- <-]. split.
- split; [by rewrite take_app_le|rewrite length_app; lia].
- by intros ? [= <-].
Qed.

Lemma local_load base l : local base (load l) (λ _, True).
Proof.
intros h Hh r h' [= <- <-]. split; [apply preserves_refl|done].
Qed.

(** Writing in place is harmless above [base]. *)
Lemma local_store_at base l o :
base ≤ l → local base (store_at l o) (λ _, True).
Proof.
intros Hl h Hh r h' Hrun. unfold store_at in Hrun.
destruct (decide (l < length h)); injection Hrun as <- <-.
- split; [|done]. split; [by apply take_insert_ge|by apply Nat.eq_le_incl; symmetry; apply length_insert].
- split; [apply preserves_refl|done].
Qed.

Lemma local_load_array base l : local base (load_array l) (λ _, True).
Proof.
eapply local_bind; [apply local_load|]. intros [] _;
  (by apply local_ret) || apply local_lift_True.
Qed.

Lemma local_load_strings base l : local base (load_strings l) (λ _, True).
Proof.
eapply local_bind; [apply local_load|]. intros [] _;
  (by apply local_ret) || apply local_lift_True.
Qed.

Lemma local_load_dict base l : local base (load_dict l) (λ _, True).
Proof.
eapply local_bind; [apply local_load|]. intros [] _;
  (by apply local_ret) || apply local_lift_True.
Qed.

Lemma local_load_arrays base l : local base (load_arrays l) (λ _, True).
Proof.
induction l as [|a l IH]; simpl; [by apply local_ret|].
eapply local_bind; [apply local_load_array|]. intros x _.
eapply local_bind; [apply IH|]. intros xs _. by apply local_ret.
Qed.

Create HintDb local discriminated.

#[local] Hint Resolve local_alloc local_load local_load_array
local_load_strings local_load_dict local_load_arrays local_lift_True
: local.

(** One step of a computation: the first action by a known fact, the rest
  to be shown. *)
Ltac step :=
lazymatch goal with
| |- local _ (mret _) _ => apply local_ret
| |- local _ (_ ≫= _) _ =>
    eapply local_bind; [solve [eauto with local]|intros ? ?]
| |- local _ _ _ => solve [eauto with local]
end.

Ltac steps := repeat step.

Lemma local_tolist base a : local base (tolist a) (λ l, base ≤ l).
Proof. unfold tolist. steps. Qed.
Lemma local_index base l x : local base (index l x) (λ _, True).
Proof. unfold index. steps. Qed.
Lemma local_item base l i : local base (item l i) (λ _, True).
Proof. unfold item. steps. Qed.
#[local] Hint Resolve local_tolist local_index local_item : local.

Lemma local_remove base l x :
base ≤ l → local base (remove l x) (λ _, True).
Proof.
intros Hl. unfold remove. do 2 step. by apply local_store_at.
Qed.

Lemma local_new_array base a : local base (new_array a) (λ l, base ≤ l).
Proof. apply local_alloc. Qed.
#[local] Hint Resolve local_new_array : local.

Lemma local_zeros base r c : local base (zeros r c) (λ l, base ≤ l).
Proof. apply local_alloc. Qed.
Lemma local_ones base r c : local base (ones r c) (λ l, base ≤ l).
Proof. apply local_alloc. Qed.
Lemma local_identity base n : local base (identity n) (λ l, base ≤ l).
Proof. apply local_alloc. Qed.
Lemma local_empty base mem r c : local base (empty mem r c) (λ l, base ≤ l).
Proof. apply local_alloc. Qed.
#[local] Hint Resolve local_zeros local_ones local_identity local_empty
: local.

Lemma local_shape0 base a : local base (shape0 a) (λ _, True).
Proof. unfold shape0. steps. done. Qed.
Lemma local_shape1 base a : local base (shape1 a) (λ _, True).
Proof. unfold shape1. steps. done. Qed.
Lemma local_get base a i j : local base (get a i j) (λ _, True).
Proof. unfold get. steps. Qed.
Lemma local_row0 base a : local base (row0 a) (λ _, True).
Proof. unfold row0. steps. Qed.
Lemma local_col0 base a : local base (col0 a) (λ _, True).
Proof. unfold col0. steps. Qed.
#[local] Hint Resolve local_shape0 local_shape1 local_get local_row0
local_col0 : local.

Lemma local_set base a i j v :
base ≤ a → local base (set a i j v) (λ _, True).
Proof.
intros Ha. unfold set. do 2 step. by apply local_store_at.
Qed.

Lemma local_sub base a b : local base (sub a b) (λ l, base ≤ l).
Proof. unfold sub. steps. Qed.
Lemma local_scale base s a : local base (scale s a) (λ l, base ≤ l).
Proof. unfold scale. steps. Qed.
Lemma local_matmul base a b : local base (matmul a b) (λ l, base ≤ l).
Proof. unfold matmul. steps. Qed.
Lemma local_vstack base a b : local base (vstack a b) (λ l, base ≤ l).
Proof. unfold vstack. steps. Qed.
Lemma local_vstack_value base a v :
local base (vstack_value a v) (λ l, base ≤ l).
Proof. unfold vstack_value. steps. Qed.
Lemma local_hstack base l : local base (hstack l) (λ l, base ≤ l).
Proof. unfold hstack. steps. Qed.
#[local] Hint Resolve local_sub local_scale local_matmul local_vstack
local_vstack_value local_hstack : local.


(** *** The helpers of [lp_irl] *)

Section lp_irl.
Variable linalg_inv : ndarray → result ndarray.
Variable linprog : list Q → ndarray → list Q → OptimizeResult.
Variable uninit : nat → nat → Q.
Variables (S_ A_ T : loc) (gamma : Q) (pi : loc) (l1 Rmax : Q).
Variable base : nat.

Lemma local_len a : local base (len a) (λ _, True).
Proof. unfold len. steps. done. Qed.

Lemma local_si s : local base (si S_ s) (λ _, True).
Proof. unfold si. steps. Qed.

Lemma local_ai a : local base (ai A_ a) (λ _, True).
Proof. unfold ai. steps. Qed.

Hint Resolve local_len local_si local_ai : local.

Lemma local_trans k s1 a s2 : local base (trans S_ A_ T k s1 a s2) (λ _, True).
Proof. unfold trans. steps. Qed.

Lemma local_pi_lookup s : local base (pi_lookup pi s) (λ _, True).
Proof. unfold pi_lookup. steps. Qed.

Hint Resolve local_trans local_pi_lookup : local.

(** [trans_mat] writes into the matrix it has just made, whatever the
policy function reads. *)
Lemma local_trans_mat n k (p : string → M string) :
(∀ s, local base (p s) (λ _, True)) →
local base (trans_mat S_ A_ T n k p) (λ l, base ≤ l).
Proof.
intros Hp. unfold trans_mat.
eapply local_bind; [apply local_zeros|]. intros Tm HTm. step.
eapply local_bind with (Q := λ _, True); [|intros; by apply local_ret].
apply local_for_in; [done|]. intros from_state [] _. step.
apply local_for_in; [done|]. intros to_state [] _.
eapply local_bind; [apply Hp|]. intros ? _. do 3 step.
by apply local_set.
Qed.

Lemma local_Tnotpi n k :
local base (Tnotpi S_ A_ T pi n k) (map_Forall (λ _ l, base ≤ l)).
Proof.
unfold Tnotpi. apply local_for_in; [apply map_Forall_empty|].
intros i Tn HTn.
eapply local_bind; [apply local_zeros|]. intros m Hm.
assert (HTn' : map_Forall (λ _ l, base ≤ l) (<[i:=m]> Tn))
by by apply map_Forall_insert_2.
step.
eapply local_bind with (Q := λ _, True); [|intros; by apply local_ret].
apply local_for_in; [done|]. intros from_state [] _.
eapply local_bind; [apply local_tolist|]. intros Atmp HAtmp. step.
eapply local_bind; [by apply local_remove|]. intros _ _. do 2 step.
apply local_for_in; [done|]. intros to_state [] _. step.
eapply local_bind with (Q := λ l, base ≤ l).
{ apply local_lift. intros l Hl. destruct (_ !! i) as [l'|] eqn:E;
  [|done]. injection Hl as <-. by apply (HTn' i). }
intros m' Hm'. do 2 step. by apply local_set.
Qed.

Lemma local_T_disc_inv n Tp :
local base (T_disc_inv linalg_inv gamma n Tp) (λ l, base ≤ l).
Proof. unfold T_disc_inv. steps. Qed.

Hint Resolve local_Tnotpi local_T_disc_inv : local.

(** *** The stages *)

Section stages.
Variables (n k : nat).
Variable Tp : loc.
Variable Tn : gmap nat loc.
Variable Tinv : loc.

Lemma local_constraint_rows i :
local base (constraint_rows Tp Tn Tinv i) (λ l, base ≤ l).
Proof. unfold constraint_rows. steps. Qed.

Hint Resolve local_constraint_rows : local.

Lemma local_add_optimal_policy_constraints p :
above base p →
local base (add_optimal_policy_constraints k Tp Tn Tinv p) (above base).
Proof.
intros Hp. unfold add_optimal_policy_constraints.
apply local_for_in; [done|]. intros i [[c A] b] (Hc & HA & Hb).
steps. unfold above; simpl in *. lia.
Qed.

Lemma local_add_costly_single_step_constraints p :
above base p →
local base (add_costly_single_step_constraints n k Tp Tn Tinv p) (above base).
Proof.
destruct p as [[c A] b]. intros (Hc & HA & Hb).
unfold add_costly_single_step_constraints. simpl in *. do 7 step.
apply local_for_in; [unfold above; simpl in *; lia|].
intros i [[c' A'] b'] (Hc' & HA' & Hb'). simpl in *. do 2 step.
case_decide; [|by apply local_lift].
steps. unfold above; simpl in *; lia.
Qed.

Lemma local_add_l1norm_constraints p l :
above base p → local base (add_l1norm_constraints n p l) (above base).
Proof.
destruct p as [[c A] b]. intros (Hc & HA & Hb).
unfold add_l1norm_constraints. simpl in *. do 7 step.
apply local_for_in; [unfold above; simpl in *; lia|].
intros i [[c' A'] b'] (Hc' & HA' & Hb'). simpl in *.
steps. unfold above; simpl in *; lia.
Qed.

Lemma local_add_rmax_constraints p r :
above base p → local base (add_rmax_constraints n p r) (above base).
Proof.
intros Hp. unfold add_rmax_constraints.
apply local_for_in; [done|]. intros i [[c A] b] (Hc & HA & Hb).
steps. unfold above; simpl in *. lia.
Qed.

End stages.

(** *** The whole call *)

Lemma local_lp_irl :
local base (Store.lp_irl linalg_inv linprog uninit S_ A_ T gamma pi l1 Rmax)
(frame_fresh base).
Proof.
unfold Store.lp_irl. do 2 step.
eapply local_bind; [apply local_trans_mat, local_pi_lookup|].
intros Tp HTp. do 5 step.
eapply local_bind;
[apply local_add_optimal_policy_constraints; unfold above; simpl in *; lia|].
intros p1 Hp1.
eapply local_bind;
[by apply local_add_costly_single_step_constraints|].
intros p2 Hp2.
eapply local_bind; [by apply local_add_rmax_constraints|].
intros p3 Hp3.
eapply local_bind; [by apply local_add_l1norm_constraints|].
intros [[c A] b] (Hc & HA & Hb). simpl in *. do 5 step.
eapply local_bind with (Q := λ _, True).
{ match goal with
| |- local _ (match ?o with OArray _ => _ | _ => _ end) _ => destruct o
end; (by apply local_ret) || apply local_lift_True. }
intros x _. do 3 step. unfold frame_fresh; simpl. by repeat split.
Qed.

End lp_irl.

(** Two calls in a row: the second leaves everything the first one made,
  and makes its own objects. *)
Lemma lp_irl_calls_share_nothing linalg_inv linprog uninit S_ A_ T gamma pi
  l1 Rmax h0 r1 h1 r2 h2 :
Store.lp_irl linalg_inv linprog uninit S_ A_ T gamma pi l1 Rmax h0
  = (r1, h1) →
Store.lp_irl linalg_inv linprog uninit S_ A_ T gamma pi l1 Rmax h1
  = (r2, h2) →
take (length h1) h2 = h1 ∧
∀ fr2, r2 = Ok fr2 → frame_fresh (length h1) fr2.
Proof.
intros _ H2. destruct (local_lp_irl linalg_inv linprog uninit S_ A_ T gamma pi l1 Rmax
  (length h1) h1 (le_n _) _ _ H2)
  as [[Ht _] Hfr].
by rewrite firstn_all in Ht.
Qed.

End StoreFacts.

(** The example's call on a store gives the rewards and the solver's
    result that the value-level [lp_irl] gives. *)
Lemma demo_store_run_agrees :
  ∃ fr rewards res,
    Demo.store_run.1 = Ok fr ∧
    lp_irl Demo.inv2 Demo.exact_solver Demo.zero_mem Demo.S_ Demo.A_ Demo.T
      Demo.gamma Demo.pi Demo.l1 Demo.Rmax = Ok (rewards, res) ∧
    Demo.store_run.2 !! Store.f_rewards fr = Some (Store.ORewards rewards) ∧
    Demo.store_run.2 !! Store.f_res fr = Some (Store.OResult res).
Proof. vm_compute. eexists _, _, _. by split_and!. Qed.



(** ** The feasible set of the assembled problem *)

Lemma Forall2_replicate_r {A B} (P : A → B → Prop) l m z :
  length l = m → Forall (λ r, P r z) l → Forall2 P l (replicate m z).
Proof.
  intros <- H. induction H; simpl; constructor; auto.
Qed.

Lemma Forall_concat_range_2 {A} (P : A → Prop) (F : nat → list A) m :
  (∀ i, (i < m)%nat → Forall P (F i)) → Forall P (concat (F <$> range m)).
Proof.
  intros H. rewrite Forall_concat, Forall_fmap, Forall_lookup.
  intros i j Hj. apply range_lookup_Some in Hj as [<- Hj]. by apply H.
Qed.

Local Open Scope Q_scope.

Section feasible_set.
Variables (S_ A_ : list string) (Rmax : Q).
Local Abbreviation n := (n S_).
Local Abbreviation k := (k A_).

Variable block : nat → ndarray.
Hypothesis block_shape0 : ∀ i, (i < k - 1)%nat → shape0 (block i) = n.
Hypothesis block_shape1 : ∀ i, (i < k - 1)%nat → shape1 (block i) = n.
Hypothesis block_wf : ∀ i, (i < k - 1)%nat → wf (block i).

(** The converse of [feasible_assembled]: the five groups of inequalities
    are all the problem asks. *)
Lemma assembled_feasible (x : list Q) :
  length x = (3 * n)%nat →
  (∀ idx s row, (idx < k - 1)%nat → data (block idx) !! s = Some row →
     dot row (take n x) <= 0) →
  (∀ idx s row, (idx < k - 1)%nat → data (block idx) !! s = Some row →
     dot row (take n x) + default 0 (x !! (n + s)%nat) <= 0) →
  (∀ i, (i < n)%nat → default 0 (x !! i) <= Rmax) →
  (∀ i, (i < n)%nat → 0 <= default 0 (x !! i)) →
  (∀ i, (i < n)%nat →
     default 0 (x !! i) <= default 0 (x !! (2 * n + i)%nat)) →
  feasible
    (mk_ndarray ((k - 1) * n + (k - 1) * n + n + 2 * n) (3 * n)
       (assembled_rows S_ A_ block))
    (assembled_b S_ A_ Rmax) x.
Proof.
  intros Hlen Ha Hb Hc Hd He. split; [done|]. simpl.
  unfold assembled_rows, assembled_b, pad, stage3_rows, stage4_rows.
  rewrite !fmap_app, <- !app_assoc.
  repeat apply Forall2_app.
  - apply Forall2_replicate_r;
      [by rewrite !length_fmap, (stage1_rows_length S_)|].
    rewrite 2!Forall_fmap. apply Forall_concat_range_2. intros idx Hidx.
    apply Forall_lookup. intros s row Hrow. simpl.
    destruct (block_row_length S_ A_ block block_shape0 block_shape1
      block_wf idx s row Hidx Hrow) as [Hr _].
    rewrite !dot_pad. rewrite <- dot_take, Hr. by eapply Ha.
  - apply Forall2_replicate_r;
      [by rewrite !length_fmap, (stage2_rows_length S_)|].
    rewrite Forall_fmap. apply Forall_concat_range_2. intros idx Hidx.
    apply Forall_lookup. intros s r Hr. simpl.
    unfold css_rows in Hr. rewrite lookup_zip_with in Hr.
    destruct (data (block idx) !! s) as [row|] eqn:Hrow; [|done].
    simpl in Hr. destruct (range n !! s) as [s'|] eqn:Hs; [|done].
    apply range_lookup_Some in Hs as [<- Hs]. simpl in Hr.
    injection Hr as <-.
    destruct (block_row_length S_ A_ block block_shape0 block_shape1
      block_wf idx s row Hidx Hrow) as [Hlr _].
    rewrite dot_pad, dot_app, dot_app, dot_replicate_0.
    rewrite dot_unit_row by done.
    rewrite length_replicate, Nat.sub_diag, drop_0, lookup_drop, Hlr.
    specialize (Hb idx s row Hidx Hrow).
    rewrite <- Hlr in Hb at 1. rewrite dot_take in Hb. lra.
  - apply Forall2_replicate_r; [by rewrite !length_fmap, range_length|].
    rewrite 2!Forall_fmap. apply Forall_lookup. intros i j Hj.
    apply range_lookup_Some in Hj as [<- Hi]. simpl.
    rewrite dot_pad, dot_unit_row by lia. specialize (Hc i Hi). lra.
  - apply Forall2_replicate_r.
    { rewrite (length_concat_range _ n 2) by done. lia. }
    apply Forall_concat_range_2. intros i Hi. unfold l1_rows.
    repeat constructor.
    + rewrite dot_unit_row by lia. specialize (Hd i Hi). lra.
    + rewrite dot_insert, dot_unit_row by (rewrite ?unit_row_length; lia).
      unfold unit_row at 1.
      rewrite list_lookup_insert_ne, lookup_replicate_2 by lia. simpl.
      specialize (He i Hi).
      replace (n + n + i)%nat with (2 * n + i)%nat by lia. lra.
Qed.
End feasible_set.

Lemma dot_replicate_0_r u m : dot u (replicate m 0) == 0.
Proof.
  revert m. induction u as [|a u IH]; intros [|m]; simpl; try done.
  rewrite dot_cons, IH. lra.
Qed.

Section feasibility.
Variable linalg_inv : ndarray → result ndarray.
Variable uninit : nat → nat → Q.
Variables (S_ A_ : list string) (T : ndarray) (gamma : Q).
Variable pi : gmap string string.
Variables (l1 Rmax : Q).

Local Abbreviation n := (n S_).
Local Abbreviation k := (k A_).

Hypothesis Hwf : well_formed S_ A_ T pi.

Variables (Tp : ndarray) (Tn : gmap nat ndarray) (Tinv : ndarray).
Hypothesis HTp : Tpi S_ A_ T pi = Ok Tp.
Hypothesis HTn : Tnotpi S_ A_ T pi = Ok Tn.
Hypothesis HTinv : T_disc_inv linalg_inv S_ gamma Tp = Ok Tinv.
Hypothesis Tinv_shape0 : shape0 Tinv = n.
Hypothesis Tinv_shape1 : shape1 Tinv = n.
Hypothesis Tinv_wf : wf Tinv.

(** The problem [lp_irl] assembles, with the blocks it was made from. *)
Lemma assembled_problem :
  ∃ block : nat → ndarray,
    (∀ idx, (idx < k - 1)%nat →
       constraint_rows Tp Tn Tinv idx = Ok (block idx) ∧
       shape0 (block idx) = n ∧ shape1 (block idx) = n ∧ wf (block idx)) ∧
    assemble linalg_inv uninit S_ A_ T gamma pi l1 Rmax =
    Ok (mk_ndarray 1 (3 * n) [assembled_c uninit S_ l1],
        mk_ndarray ((k - 1) * n + (k - 1) * n + n + 2 * n) (3 * n)
          (assembled_rows S_ A_ block),
        mk_ndarray ((k - 1) * n + (k - 1) * n + n + 2 * n) 1
          ((λ v, [v]) <$> assembled_b S_ A_ Rmax)).
Proof.
  destruct (blocks_exist S_ A_ T pi Hwf Tp Tn Tinv HTp HTn Tinv_shape0
    Tinv_shape1 Tinv_wf) as (block & Hblock).
  exists block. split; [done|].
  apply (assemble_eq linalg_inv uninit S_ A_ T gamma pi l1 Rmax Tp Tn Tinv
    HTp HTn HTinv Tinv_shape0 Tinv_shape1 block Hblock).
Qed.

(** The set [linprog] searches for the problem [lp_irl] hands it.  A point
    satisfies the assembled rows [A_ub @ x <= b_ub] exactly when it has
    [3 n] entries, every deviation block row is non-positive on the
    rewards, also after its margin variable is added, every reward lies
    between [0] and [Rmax], and every reward is at most its l1 variable.
    The call gives no [bounds], so scipy adds [x >= 0] for every
    variable: a point is feasible for [linprog] exactly when, besides,
    none of its entries is negative, the margin and the l1 variables
    included. *)
Theorem assembled_problem_feasible_iff :
  ∃ (c A_ub b_ub : ndarray) (b0 : list Q) (block : nat → ndarray),
    assemble linalg_inv uninit S_ A_ T gamma pi l1 Rmax = Ok (c, A_ub, b_ub) ∧
    col0 b_ub = Ok b0 ∧
    (∀ idx, (idx < k - 1)%nat →
       constraint_rows Tp Tn Tinv idx = Ok (block idx)) ∧
    (∀ x, feasible A_ub b0 x ↔
      length x = (3 * n)%nat ∧
      (∀ idx s row, (idx < k - 1)%nat → data (block idx) !! s = Some row →
         dot row (take n x) <= 0 ∧
         dot row (take n x) + default 0 (x !! (n + s)%nat) <= 0) ∧
      (∀ i, (i < n)%nat →
         0 <= default 0 (x !! i) ∧ default 0 (x !! i) <= Rmax ∧
         default 0 (x !! i) <= default 0 (x !! (2 * n + i)%nat))) ∧
    (∀ x, linprog_feasible A_ub b0 x ↔
      length x = (3 * n)%nat ∧
      Forall (λ v, 0 <= v) x ∧
      (∀ idx s row, (idx < k - 1)%nat → data (block idx) !! s = Some row →
         dot row (take n x) <= 0 ∧
         dot row (take n x) + default 0 (x !! (n + s)%nat) <= 0) ∧
      (∀ i, (i < n)%nat →
         default 0 (x !! i) <= Rmax ∧
         default 0 (x !! i) <= default 0 (x !! (2 * n + i)%nat))).
Proof.
  destruct assembled_problem as (block & Hblock & Hasm).
  do 3 eexists. exists (assembled_b S_ A_ Rmax), block.
  split; [exact Hasm|]. split; [apply col0_singletons|].
  split; [intros idx Hidx; by apply Hblock|].
  assert (Hrows : ∀ x,
    feasible
      (mk_ndarray ((k - 1) * n + (k - 1) * n + n + 2 * n) (3 * n)
         (assembled_rows S_ A_ block))
      (assembled_b S_ A_ Rmax) x ↔
    length x = (3 * n)%nat ∧
    (∀ idx s row, (idx < k - 1)%nat → data (block idx) !! s = Some row →
       dot row (take n x) <= 0 ∧
       dot row (take n x) + default 0 (x !! (n + s)%nat) <= 0) ∧
    (∀ i, (i < n)%nat →
       0 <= default 0 (x !! i) ∧ default 0 (x !! i) <= Rmax ∧
       default 0 (x !! i) <= default 0 (x !! (2 * n + i)%nat))).
  { intros x. split.
    - intros Hfeas.
      destruct (feasible_assembled S_ A_ Rmax block) with (x := x)
        as (Hx & H1 & H2 & H3 & H4 & H5);
        [intros j Hj; by apply Hblock..|done|].
      split_and!; [done| |].
      + intros idx s row Hidx Hrow. split; eauto.
      + intros i Hi. split_and!; eauto.
    - intros (Hx & Hrows & Hbox).
      apply assembled_feasible; try done;
        try (intros j Hj; by apply Hblock).
      + intros idx s row Hidx Hrow. by apply (Hrows idx s row).
      + intros idx s row Hidx Hrow. by apply (Hrows idx s row).
      + intros i Hi. by apply Hbox.
      + intros i Hi. by apply Hbox.
      + intros i Hi. by apply Hbox. }
  split; [exact Hrows|].
  intros x. unfold linprog_feasible. rewrite Hrows. split.
  - intros [(Hx & Hr & Hbox) Hpos]. split_and!; [done..|].
    intros i Hi. split; by apply Hbox.
  - intros (Hx & Hpos & Hr & Hbox). split; [|done].
    split_and!; [done..|]. intros i Hi.
    split_and!; [|by apply Hbox..].
    destruct (x !! i) as [v|] eqn:E; simpl; [|done].
    rewrite Forall_forall in Hpos. apply Hpos.
    by eapply list_elem_of_lookup_2.
Qed.

(** When [Rmax] is not negative the assembled problem has a feasible
    point, the origin: an answer "infeasible" from the solver is an
    artefact of the solver, not of the problem. *)
Theorem origin_is_feasible :
  0 <= Rmax →
  ∃ (c A_ub b_ub : ndarray) (b0 : list Q),
    assemble linalg_inv uninit S_ A_ T gamma pi l1 Rmax = Ok (c, A_ub, b_ub) ∧
    col0 b_ub = Ok b0 ∧
    feasible A_ub b0 (replicate (shape1 A_ub) 0).
Proof.
  intros HR. destruct assembled_problem as (block & Hblock & Hasm).
  do 3 eexists. exists (assembled_b S_ A_ Rmax).
  split; [exact Hasm|]. split; [apply col0_singletons|].
  cbn [shape1].
  assert (Hz : ∀ i, default 0 (replicate (3 * n) 0 !! i) == 0).
  { intros i. destruct (replicate (3 * n) 0 !! i) as [q|] eqn:E; [|done].
    apply lookup_replicate in E as [-> _]. done. }
  apply assembled_feasible; try (intros j Hj; by apply Hblock).
  - by rewrite length_replicate.
  - intros idx s row _ _. rewrite take_replicate, dot_replicate_0_r. lra.
  - intros idx s row _ _. rewrite take_replicate, dot_replicate_0_r, Hz. lra.
  - intros i _. by rewrite Hz.
  - intros i _. rewrite Hz. lra.
  - intros i _. rewrite !Hz. lra.
Qed.

(** With a negative [Rmax] and at least one state the assembled problem
    has no feasible point at all: the first reward would have to be at
    least [0] and at most [Rmax]. *)
Theorem negative_Rmax_is_infeasible :
  Rmax < 0 → S_ ≠ [] →
  ∃ (c A_ub b_ub : ndarray) (b0 : list Q),
    assemble linalg_inv uninit S_ A_ T gamma pi l1 Rmax = Ok (c, A_ub, b_ub) ∧
    col0 b_ub = Ok b0 ∧
    ∀ x, ¬ feasible A_ub b0 x.
Proof.
  intros HR HS. destruct assembled_problem as (block & Hblock & Hasm).
  do 3 eexists. exists (assembled_b S_ A_ Rmax).
  split; [exact Hasm|]. split; [apply col0_singletons|].
  intros x Hfeas.
  destruct (feasible_assembled S_ A_ Rmax block) with (x := x)
    as (_ & _ & _ & H3 & H4 & _);
    [intros j Hj; by apply Hblock..|done|].
  assert (Hn : (0 < n)%nat) by (unfold LpIrl.n; destruct S_; simpl; [done|lia]).
  specialize (H3 0%nat Hn). specialize (H4 0%nat Hn). lra.
Qed.
End feasibility.

Section feasibility_demo.
Local Abbreviation linalg_inv := Demo.inv2.
Local Abbreviation uninit := Demo.zero_mem.
Local Abbreviation S_ := Demo.S_.
Local Abbreviation A_ := Demo.A_.
Local Abbreviation T := Demo.T.
Local Abbreviation gamma := Demo.gamma.
Local Abbreviation pi := Demo.pi.
Local Abbreviation l1 := Demo.l1.
Local Abbreviation Rmax := Demo.Rmax.
Local Abbreviation Tp := Demo.Tp.
Local Abbreviation Tn := Demo.Tn.
Local Abbreviation Tinv := Demo.Tinv.

Lemma assembled_problem_feasible_iff_witness :
  ∃ (c A_ub b_ub : ndarray) (b0 : list Q) (block : nat → ndarray),
    assemble linalg_inv uninit S_ A_ T gamma pi l1 Rmax = Ok (c, A_ub, b_ub) ∧
    col0 b_ub = Ok b0 ∧
    (∀ idx, (idx < 1)%nat →
       constraint_rows Tp Tn Tinv idx = Ok (block idx)) ∧
    (∀ x, feasible A_ub b0 x ↔
      length x = 6%nat ∧
      (∀ idx s row, (idx < 1)%nat → data (block idx) !! s = Some row →
         dot row (take 2 x) <= 0 ∧
         dot row (take 2 x) + default 0 (x !! (2 + s)%nat) <= 0) ∧
      (∀ i, (i < 2)%nat →
         0 <= default 0 (x !! i) ∧ default 0 (x !! i) <= 2 ∧
         default 0 (x !! i) <= default 0 (x !! (4 + i)%nat))) ∧
    (∀ x, linprog_feasible A_ub b0 x ↔
      length x = 6%nat ∧
      Forall (λ v, 0 <= v) x ∧
      (∀ idx s row, (idx < 1)%nat → data (block idx) !! s = Some row →
         dot row (take 2 x) <= 0 ∧
         dot row (take 2 x) + default 0 (x !! (2 + s)%nat) <= 0) ∧
      (∀ i, (i < 2)%nat →
         default 0 (x !! i) <= 2 ∧
         default 0 (x !! i) <= default 0 (x !! (4 + i)%nat))).
Proof.
  apply (assembled_problem_feasible_iff linalg_inv uninit S_ A_ T gamma pi l1
    Rmax demo_well_formed Tp Tn Tinv demo_Tpi demo_Tnotpi demo_T_disc_inv
    eq_refl eq_refl demo_Tinv_wf).
Defined.

Lemma origin_is_feasible_witness :
  ∃ (c A_ub b_ub : ndarray) (b0 : list Q),
    assemble linalg_inv uninit S_ A_ T gamma pi l1 Rmax = Ok (c, A_ub, b_ub) ∧
    col0 b_ub = Ok b0 ∧
    feasible A_ub b0 (replicate (shape1 A_ub) 0).
Proof.
  apply (origin_is_feasible linalg_inv uninit S_ A_ T gamma pi l1
    Rmax demo_well_formed Tp Tn Tinv demo_Tpi demo_Tnotpi demo_T_disc_inv
    eq_refl eq_refl demo_Tinv_wf). by vm_compute.
Defined.

Lemma negative_Rmax_is_infeasible_witness :
  ∃ (c A_ub b_ub : ndarray) (b0 : list Q),
    assemble linalg_inv uninit S_ A_ T gamma pi l1 (-1) = Ok (c, A_ub, b_ub) ∧
    col0 b_ub = Ok b0 ∧
    ∀ x, ¬ feasible A_ub b0 x.
Proof.
  apply (negative_Rmax_is_infeasible linalg_inv uninit S_ A_ T gamma pi l1
    (-1) demo_well_formed Tp Tn Tinv demo_Tpi demo_Tnotpi demo_T_disc_inv
    eq_refl eq_refl demo_Tinv_wf); by vm_compute.
Defined.
End feasibility_demo.

Close Scope Q_scope.

(** ** Inputs that make [lp_irl] raise *)

Lemma for_in_raise_at {A B} (l1 l2 : list A) x (body : A → B → result B)
    acc acc1 e :
  for_in l1 body acc = Ok acc1 → body x acc1 = Raise e →
  for_in (l1 ++ x :: l2) body acc = Raise e.
Proof.
  intros H1 Hx. rewrite for_in_app, H1. simpl. by rewrite Hx.
Qed.

Lemma list_index_elem_of {A} `{EqDecision A} (x : A) (l : list A) :
  x ∈ l → ∃ i, list_index x l = Ok i ∧ (i < length l)%nat.
Proof.
  intros Hx. unfold list_index.
  destruct (list_find_elem_of (λ y, y = x) l x Hx eq_refl) as [[i y] Hf].
  rewrite Hf. exists i. split; [done|].
  apply list_find_Some in Hf as (Hi & _). by eapply lookup_lt_Some.
Qed.

Lemma list_index_not_elem_of {A} `{EqDecision A} (x : A) (l : list A) :
  x ∉ l → list_index x l = Raise ValueError.
Proof.
  intros Hx. unfold list_index.
  destruct (list_find (λ y, y = x) l) as [[i y]|] eqn:Hf; [|done].
  apply list_find_Some in Hf as (Hi & -> & _).
  destruct Hx. by eapply list_elem_of_lookup_2.
Qed.

Lemma set_wf a i j v :
  wf a → (i < shape0 a)%nat → (j < shape1 a)%nat →
  ∃ a', set a i j v = Ok a' ∧ wf a' ∧
        shape0 a' = shape0 a ∧ shape1 a' = shape1 a.
Proof.
  intros [Hlen Hrows] Hi Hj. unfold set.
  destruct (data a !! i) as [row|] eqn:Hrow.
  2:{ apply lookup_ge_None in Hrow. lia. }
  cbn [of_option mbind result_bind].
  assert (length row = shape1 a) as Hr.
  { rewrite Forall_forall in Hrows. apply Hrows.
    by eapply list_elem_of_lookup_2. }
  rewrite decide_True by lia. eexists. split; [done|].
  split; [|done]. split; cbn [data shape0 shape1].
  - by rewrite length_insert.
  - apply Forall_insert; [done|]. by rewrite length_insert.
Qed.

Section raising.
Variables (S_ A_ : list string) (T : ndarray).

Local Abbreviation n := (n S_).
Local Abbreviation k := (k A_).
Local Abbreviation si := (si S_).
Local Abbreviation ai := (ai A_).
Local Abbreviation trans := (trans S_ A_ T).

Hypothesis T_wf : wf T.
Hypothesis T_shape0 : shape0 T = (n * k)%nat.
Hypothesis T_shape1 : shape1 T = n.

(** Inside the table every lookup succeeds, with or without repeated
    names. *)
Lemma trans_elem_of s a s' :
  s ∈ S_ → a ∈ A_ → s' ∈ S_ → ∃ v, trans s a s' = Ok v.
Proof.
  intros Hs Ha Hs'. unfold LpIrl.trans, LpIrl.si, LpIrl.ai.
  destruct (list_index_elem_of s S_ Hs) as (i & -> & Hi).
  destruct (list_index_elem_of a A_ Ha) as (j & -> & Hj).
  destruct (list_index_elem_of s' S_ Hs') as (i' & -> & Hi').
  cbn [mbind result_bind]. apply wf_get; [done|..].
  - rewrite T_shape0. unfold LpIrl.n, LpIrl.k. nia.
  - by rewrite T_shape1.
Qed.

(** The inner loop of [trans_mat], and the shape it keeps. *)
Local Abbreviation fill_row f from_state Tm :=
  (for_in S_ (λ to_state Tm',
    a ← f from_state%string;
    t ← trans from_state a to_state;
    i ← si from_state;
    j ← si to_state;
    set Tm' i j t) Tm).

Local Abbreviation square Tm :=
  (wf Tm ∧ shape0 Tm = n ∧ shape1 Tm = n).

Lemma fill_row_Ok f s a Tm :
  s ∈ S_ → f s = Ok a → a ∈ A_ → square Tm →
  ∃ Tm', fill_row f s Tm = Ok Tm' ∧ square Tm'.
Proof.
  intros Hs Hf Ha HTm.
  destruct (for_in_inv (λ _ Tm, square Tm) S_
    (λ to_state Tm,
      a ← f s; t ← trans s a to_state; i ← si s; j ← si to_state;
      set Tm i j t) Tm) as (Tm' & -> & HTm'); [done| |by eauto].
  intros i' s' Tm0 Hs' (Hwf0 & H0 & H1). rewrite Hf.
  cbn [mbind result_bind].
  assert (s' ∈ S_) as Hs'in by (by eapply list_elem_of_lookup_2).
  destruct (trans_elem_of s a s' Hs Ha Hs'in) as (v & ->).
  cbn [mbind result_bind]. unfold LpIrl.si.
  destruct (list_index_elem_of s S_ Hs) as (i & -> & Hi).
  destruct (list_index_elem_of s' S_ Hs'in) as (j & -> & Hj).
  cbn [mbind result_bind].
  destruct (set_wf Tm0 i j v Hwf0) as (Tm1 & -> & ? & ? & ?);
    [by rewrite H0|by rewrite H1|].
  eexists. split; [done|]. split_and!; congruence.
Qed.

Lemma fill_rows_Ok f pre Tm :
  Forall (λ s, s ∈ S_ ∧ ∃ a, f s = Ok a ∧ a ∈ A_) pre → square Tm →
  ∃ Tm', for_in pre (λ s Tm, fill_row f s Tm) Tm = Ok Tm' ∧ square Tm'.
Proof.
  intros Hpre. revert Tm. induction Hpre as [|s pre (Hs & a & Hf & Ha) _ IH];
    intros Tm HTm; simpl; [by eauto|].
  destruct (fill_row_Ok f s a Tm Hs Hf Ha HTm) as (Tm1 & -> & HTm1).
  cbn [mbind result_bind]. by apply IH.
Qed.

(** [trans_mat] raises what the first state raises whose row cannot be
    filled. *)
Lemma trans_mat_raises f m s e :
  S_ !! m = Some s →
  Forall (λ s, ∃ a, f s = Ok a ∧ a ∈ A_) (take m S_) →
  (∀ Tm, fill_row f s Tm = Raise e) →
  trans_mat S_ A_ T f = Raise e.
Proof.
  intros Hs Hpre Hraise. unfold trans_mat.
  rewrite <- (take_drop_middle S_ m s Hs) at 1.
  destruct (fill_rows_Ok f (take m S_) (zeros n n)) as (Tm1 & HTm1 & _).
  - apply Forall_forall. intros s' Hs'. split.
    + apply elem_of_take in Hs' as (i & Hi & _).
      by eapply list_elem_of_lookup_2.
    + rewrite Forall_forall in Hpre. by apply Hpre.
  - split_and!; [|done..]. rewrite zeros_tabulate. apply tabulate_wf.
  - by eapply for_in_raise_at.
Qed.
End raising.

Section raising_lp_irl.
Variable linalg_inv : ndarray → result ndarray.
Variable linprog : list Q → ndarray → list Q → OptimizeResult.
Variable uninit : nat → nat → Q.
Variables (S_ A_ : list string) (T : ndarray) (gamma : Q).
Variable pi : gmap string string.
Variables (l1 Rmax : Q).

Local Abbreviation n := (n S_).
Local Abbreviation k := (k A_).

Hypothesis T_wf : wf T.
Hypothesis T_shape0 : shape0 T = (n * k)%nat.
Hypothesis T_shape1 : shape1 T = n.

Lemma lp_irl_raises_with_Tpi e :
  Tpi S_ A_ T pi = Raise e →
  lp_irl linalg_inv linprog uninit S_ A_ T gamma pi l1 Rmax = Raise e.
Proof. intros H. unfold lp_irl, assemble. by rewrite H. Qed.

(** A state without an entry in the policy: [pi[s]] raises [KeyError]
    when the row of [s] in [Tpi] is about to be filled, and that is what
    [lp_irl] raises, when the states before [s] have a policy action among
    the actions and the transition table has its [n * k] rows of [n]
    entries. *)
Theorem missing_policy_entry_raises_KeyError (m : nat) (s : string) :
  S_ !! m = Some s → pi !! s = None →
  Forall (λ s', ∃ a, pi !! s' = Some a ∧ a ∈ A_) (take m S_) →
  lp_irl linalg_inv linprog uninit S_ A_ T gamma pi l1 Rmax = Raise KeyError.
Proof.
  intros Hs Hpi Hpre. apply lp_irl_raises_with_Tpi. unfold Tpi.
  apply (trans_mat_raises S_ A_ T T_wf T_shape0 T_shape1 _ m s); [done| |].
  - eapply Forall_impl; [exact Hpre|]. intros s' (a & Ha & HaA).
    exists a. unfold pi_lookup. by rewrite Ha.
  - intros Tm. destruct S_ as [|s0 rest]; [done|]. simpl.
    unfold pi_lookup. by rewrite Hpi.
Qed.

(** A policy action that is not among the actions: [A.tolist().index]
    raises [ValueError] at the first transition probability looked up for
    it, and that is what [lp_irl] raises, under the same conditions on the
    states before and on the table. *)
Theorem unknown_policy_action_raises_ValueError (m : nat) (s a : string) :
  S_ !! m = Some s → pi !! s = Some a → a ∉ A_ →
  Forall (λ s', ∃ a, pi !! s' = Some a ∧ a ∈ A_) (take m S_) →
  lp_irl linalg_inv linprog uninit S_ A_ T gamma pi l1 Rmax
    = Raise ValueError.
Proof.
  intros Hs Hpi Ha Hpre. apply lp_irl_raises_with_Tpi. unfold Tpi.
  apply (trans_mat_raises S_ A_ T T_wf T_shape0 T_shape1 _ m s); [done| |].
  - eapply Forall_impl; [exact Hpre|]. intros s' (a' & Ha' & HaA).
    exists a'. unfold pi_lookup. by rewrite Ha'.
  - intros Tm.
    assert (s ∈ S_) as Hin by (by eapply list_elem_of_lookup_2).
    destruct S_ as [|s0 rest] eqn:ES; [done|]. rewrite <- ES in *.
    rewrite ES at 1. simpl. unfold pi_lookup. rewrite Hpi.
    cbn [of_option mbind result_bind]. unfold trans, si, ai.
    destruct (list_index_elem_of s S_ Hin) as (i & -> & _).
    cbn [mbind result_bind]. by rewrite list_index_not_elem_of.
Qed.
End raising_lp_irl.

Lemma missing_policy_entry_raises_KeyError_witness :
  lp_irl Demo.inv2 Demo.exact_solver Demo.zero_mem Demo.S_ Demo.A_ Demo.T
    Demo.gamma {[ "s0" := "b" ]} Demo.l1 Demo.Rmax = Raise KeyError.
Proof.
  apply (missing_policy_entry_raises_KeyError Demo.inv2 Demo.exact_solver
    Demo.zero_mem Demo.S_ Demo.A_ Demo.T Demo.gamma {[ "s0" := "b" ]}
    Demo.l1 Demo.Rmax) with (m := 1%nat) (s := "s1");
    try compute_done.
  repeat constructor. exists "b". split; [by vm_compute|set_solver].
Defined.

Lemma unknown_policy_action_raises_ValueError_witness :
  lp_irl Demo.inv2 Demo.exact_solver Demo.zero_mem Demo.S_ Demo.A_ Demo.T
    Demo.gamma {[ "s0" := "b"; "s1" := "x" ]} Demo.l1 Demo.Rmax
  = Raise ValueError.
Proof.
  apply (unknown_policy_action_raises_ValueError Demo.inv2 Demo.exact_solver
    Demo.zero_mem Demo.S_ Demo.A_ Demo.T Demo.gamma
    {[ "s0" := "b"; "s1" := "x" ]} Demo.l1 Demo.Rmax)
    with (m := 1%nat) (s := "s1") (a := "x");
    try compute_done.
  repeat constructor. exists "b". split; [by vm_compute|set_solver].
Defined.

(** ** The transition tables of the policy and of its deviations *)

Local Open Scope Q_scope.

Section tables_stochastic.
Variables (S_ A_ : list string) (T : ndarray).
Variable pi : gmap string string.

Local Abbreviation n := (n S_).
Local Abbreviation k := (k A_).

Hypothesis Hwf : well_formed S_ A_ T pi.
Hypothesis Hstoch : stochastic T.

(** A table whose rows are rows of [T] is stochastic. *)
Lemma rows_of_T_stochastic (M : ndarray) :
  (∀ i row, data M !! i = Some row → ∃ r, data T !! r = Some row) →
  stochastic M.
Proof.
  intros HM. unfold stochastic in *. apply Forall_lookup. intros i row Hrow.
  destruct (HM i row Hrow) as (r & Hr).
  rewrite Forall_lookup in Hstoch. by apply (Hstoch r).
Qed.

(** Row-stochastic transition probabilities give row-stochastic tables:
    every row of [Tpi] and of each [Tnotpi[idx]] is the row of [T] for
    one state and one action, so its entries lie in [[0, 1]] and sum to
    one; and there is a table for each of [0, ..., k - 2] and for nothing
    else. *)
Theorem policy_tables_are_stochastic :
  ∃ (Tp : ndarray) (Tn : gmap nat ndarray),
    Tpi S_ A_ T pi = Ok Tp ∧ Tnotpi S_ A_ T pi = Ok Tn ∧
    stochastic Tp ∧
    (∀ idx, is_Some (Tn !! idx) ↔ (idx < k - 1)%nat) ∧
    (∀ idx M, Tn !! idx = Some M → stochastic M).
Proof.
  destruct (Tpi_spec S_ A_ T pi Hwf) as (Tp & HTp & Hp0 & Hp1 & Hpwf & Hprow).
  destruct (Tnotpi_spec S_ A_ T pi Hwf) as (Tn & HTn & Hnone & Hsome).
  exists Tp, Tn. split; [done|]. split; [done|].
  assert (∀ i, (i < n)%nat → ∃ s, S_ !! i = Some s) as HS.
  { intros i Hi. by apply lookup_lt_is_Some_2. }
  split_and!.
  - apply rows_of_T_stochastic. intros i row Hrow.
    assert (i < n)%nat as Hi.
    { apply lookup_lt_Some in Hrow. destruct Hpwf as [Hl _]. lia. }
    destruct (HS i Hi) as (s & Hs).
    destruct (pi_total S_ A_ T pi Hwf i s Hs) as (a & Ha & HaA).
    apply list_elem_of_lookup_1 in HaA as (j & Hj).
    destruct (Hprow i s a j Hs Ha Hj) as [Heq _].
    exists (i * k + j)%nat. by rewrite <- Heq.
  - intros idx. split.
    + intros [M HM]. destruct (decide (idx < k - 1)%nat); [done|].
      rewrite Hnone in HM by lia. done.
    + intros Hidx. destruct (Hsome idx Hidx) as (M & -> & _). by eexists.
  - intros idx M HM.
    destruct (decide (idx < k - 1)%nat) as [Hidx|];
      [|rewrite Hnone in HM by lia; done].
    destruct (Hsome idx Hidx) as (M' & HM' & H0 & H1 & HMwf & HMrow).
    assert (M' = M) as -> by congruence.
    apply rows_of_T_stochastic. intros i row Hrow.
    assert (i < n)%nat as Hi.
    { apply lookup_lt_Some in Hrow. destruct HMwf as [Hl _]. lia. }
    destruct (HS i Hi) as (s & Hs).
    destruct (non_policy_action_Ok S_ A_ T pi Hwf idx i s Hs Hidx)
      as (p & a & Hp & Ha & HaA & _).
    apply list_elem_of_lookup_1 in HaA as (j & Hj).
    destruct (HMrow i s a j Hs Ha Hj) as [Heq _].
    exists (i * k + j)%nat. by rewrite <- Heq.
Qed.
End tables_stochastic.

Lemma demo_stochastic : stochastic Demo.T.
Proof.
  repeat constructor; try (by vm_compute); simpl;
    intros H; by vm_compute in H.
Defined.

Lemma policy_tables_are_stochastic_witness :
  ∃ (Tp : ndarray) (Tn : gmap nat ndarray),
    Tpi Demo.S_ Demo.A_ Demo.T Demo.pi = Ok Tp ∧
    Tnotpi Demo.S_ Demo.A_ Demo.T Demo.pi = Ok Tn ∧
    stochastic Tp ∧
    (∀ idx, is_Some (Tn !! idx) ↔ (idx < 1)%nat) ∧
    (∀ idx M, Tn !! idx = Some M → stochastic M).
Proof.
  apply (policy_tables_are_stochastic Demo.S_ Demo.A_ Demo.T Demo.pi
    demo_well_formed demo_stochastic).
Defined.

Close Scope Q_scope.

(** ** What the extracted rewards keep of the solver's point *)

Local Open Scope Q_scope.

(** For a positive [Rmax] the rewards never reverse the order of the
    solver's entries, when the first [n] of them are not all equal: an
    entry that is at most another gets a reward that is at most the
    other's, so a smaller reward always stands for a smaller entry. *)
Theorem extract_never_reverses_order (S_ : list string) (Rmax : Q)
    (x : list Q) :
  0 < Rmax → all_equal (take (n S_) x) = false →
  ∃ r, extract S_ Rmax x = Ok (Fin <$> r) ∧
    length r = length (take (n S_) x) ∧
    ∀ i j xi xj ri rj,
      x !! i = Some xi → x !! j = Some xj →
      r !! i = Some ri → r !! j = Some rj →
      (xi <= xj → ri <= rj) ∧ (ri < rj → xi < xj).
Proof.
  intros HR Hne. set (vals := take (n S_) x) in *.
  destruct (min_max_Ok vals) as (mn & mx & Hmn & Hmx).
  { intros E. by rewrite E in Hne. }
  pose proof (all_equal_false vals mn mx Hne Hmn Hmx) as Hlt.
  exists ((λ v, Rmax * ((v - mn) / (mx - mn))) <$> vals).
  split_and!.
  - unfold extract. fold vals.
    rewrite (normalize_nondegenerate vals mn mx Hmn Hmx Hlt).
    cbn [mbind result_bind]. f_equal.
    rewrite <- !list_fmap_compose. done.
  - by rewrite length_fmap.
  - intros i j xi xj ri rj Hxi Hxj Hri Hrj.
    rewrite list_lookup_fmap in Hri, Hrj.
    destruct (vals !! i) as [vi|] eqn:Hvi; [|done].
    destruct (vals !! j) as [vj|] eqn:Hvj; [|done].
    simpl in Hri, Hrj. injection Hri as <-. injection Hrj as <-.
    unfold vals in Hvi, Hvj.
    apply lookup_take_Some in Hvi as [Hvi _].
    apply lookup_take_Some in Hvj as [Hvj _].
    assert (vi = xi) as -> by congruence.
    assert (vj = xj) as -> by congruence.
    assert (0 < / (mx - mn)) as Hinv by (apply Qinv_lt_0_compat; lra).
    unfold Qdiv. set (d := / (mx - mn)) in *.
    assert (0 < Rmax * d) as Hc by nra.
    assert (∀ v, Rmax * ((v - mn) * d) == Rmax * d * v - Rmax * d * mn)
      as E by (intros; ring).
    rewrite !E. set (c := Rmax * d) in *. split; intros H; nra.
Qed.

Lemma extract_never_reverses_order_witness :
  ∃ r, extract Demo.S_ 2 [1; 3; 0; 0; 0; 0] = Ok (Fin <$> r) ∧
    length r = length (take 2 [1; 3; 0; 0; 0; 0]) ∧
    ∀ i j xi xj ri rj,
      [1; 3; 0; 0; 0; 0] !! i = Some xi → [1; 3; 0; 0; 0; 0] !! j = Some xj →
      r !! i = Some ri → r !! j = Some rj →
      (xi <= xj → ri <= rj) ∧ (ri < rj → xi < xj).
Proof. apply (extract_never_reverses_order Demo.S_ 2); by vm_compute. Defined.

(** [extract] raises exactly when there is nothing to normalise, no state
    or an empty point, and then [ValueError], from [np.min]; a point with
    fewer than [n] entries is not an error: the slice [x[0:n]] is as long
    as it can be, and so are the rewards. *)
Theorem extract_raises_iff (S_ : list string) (Rmax : Q) (x : list Q) :
  (∀ e, extract S_ Rmax x = Raise e ↔ e = ValueError ∧ (S_ = [] ∨ x = [])) ∧
  (∀ rewards, extract S_ Rmax x = Ok rewards →
     length rewards = Nat.min (n S_) (length x)).
Proof.
  split.
  - intros e. unfold extract, normalize.
    destruct (take (n S_) x) as [|v vals] eqn:E.
    + simpl. split.
      * intros [= <-]. split; [done|].
        destruct S_; [by left|]. destruct x; [by right|]. done.
      * by intros [-> _].
    + simpl. split; [done|]. intros [_ [->| ->]]; simpl in E; [done|].
      by rewrite take_nil in E.
  - intros rewards H. rewrite (extract_length S_ Rmax x rewards H).
    by rewrite length_take.
Qed.

Close Scope Q_scope.
Import Np LpIrl Mrp.

(** ** Any Markov reward process *)

Local Open Scope Q_scope.

Lemma dot_proper_r u x x' : Forall2 Qeq x x' → dot u x == dot u x'.
Proof.
  intros H. revert u. induction H as [|b b' x x' Hb _ IH]; intros u.
  - reflexivity.
  - destruct u as [|a u]; [reflexivity|].
    rewrite !dot_cons, IH, Hb. reflexivity.
Qed.

Section reward_vector.
Variable self : MarkovRewardProcess.

Local Abbreviation body :=
  (λ (state : string) (reward_vector : list Q),
     r ← of_option KeyError (reward_mapping self !! state);
     Ok (reward_vector ++ [r])).

Lemma reward_loop_Ok l acc out :
  for_in l body acc = Ok out ↔
  ∃ rv, out = acc ++ rv ∧
        Forall2 (λ s r, reward_mapping self !! s = Some r) l rv.
Proof.
  revert acc. induction l as [|s l IH]; intros acc; simpl.
  - split.
    + intros [= <-]. exists []. by rewrite app_nil_r.
    + intros (rv & -> & H). inversion H. by rewrite app_nil_r.
  - destruct (reward_mapping self !! s) as [r|] eqn:Hs; simpl.
    + rewrite IH. split.
      * intros (rv & -> & H). exists (r :: rv).
        rewrite <- app_assoc. split; [done|]. by constructor.
      * intros (rv & -> & H). inversion H as [|? r' ? rv' Hr Hrv]; subst.
        assert (r' = r) as -> by congruence.
        exists rv'. by rewrite <- app_assoc.
    + split; [done|]. intros (rv & _ & H).
      inversion H as [|? r' ? rv' Hr Hrv]; subst. congruence.
Qed.

Lemma reward_loop_Raise l acc e :
  for_in l body acc = Raise e ↔
  e = KeyError ∧ Exists (λ s, reward_mapping self !! s = None) l.
Proof.
  revert acc. induction l as [|s l IH]; intros acc; simpl.
  - split; [done|]. intros [_ H]. inversion H.
  - destruct (reward_mapping self !! s) as [r|] eqn:Hs; simpl.
    + rewrite IH. split; intros [-> H]; (split; [done|]).
      * by apply Exists_cons_tl.
      * inversion H; subst; [congruence|done].
    + split.
      * intros [= <-]. split; [done|]. by apply Exists_cons_hd.
      * by intros [-> _].
Qed.

(** [get_reward_vector] returns the rewards of the states, in the order of
    [state_set] and one for each entry of it, when every state has a
    reward; and raises [KeyError], and nothing else, when one has none. *)
Theorem get_reward_vector_spec :
  (∀ rv, get_reward_vector self = Ok rv ↔
     Forall2 (λ s r, reward_mapping self !! s = Some r) (state_set self) rv) ∧
  (∀ e, get_reward_vector self = Raise e ↔
     e = KeyError ∧
     ∃ s, s ∈ state_set self ∧ reward_mapping self !! s = None).
Proof.
  unfold get_reward_vector. split.
  - intros rv. rewrite reward_loop_Ok. split.
    + by intros (rv' & -> & H).
    + intros H. by exists rv.
  - intros e. rewrite reward_loop_Raise, Exists_exists. done.
Qed.
End reward_vector.

Close Scope Q_scope.
Import Np LpIrl Mrp.

(** ** The values [solve_bellman_equation] returns *)

Local Open Scope Q_scope.

Section bellman_general.
Variable linalg_inv : ndarray → result ndarray.
Variable self : MarkovRewardProcess.

Local Abbreviation states := (state_set self).
Local Abbreviation P := (transition_matrix self).
Local Abbreviation R := (reward_mapping self).
Local Abbreviation discount := (discount_factor self).
Local Abbreviation n := (length (state_set self)).

Hypothesis states_nodup : NoDup states.
Hypothesis P_wf : wf P.
Hypothesis P_shape0 : shape0 P = n.
Hypothesis P_shape1 : shape1 P = n.
Hypothesis discount_ne_1 : ¬ discount == 1.

Variables (rv : list Q) (D Dinv : ndarray).
Hypothesis Hrv : get_reward_vector self = Ok rv.
Hypothesis HD : sub (identity n) (scale discount P) = Ok D.
Hypothesis HDinv : linalg_inv D = Ok Dinv.
Hypothesis Dinv_wf : wf Dinv.
Hypothesis Dinv_shape0 : shape0 Dinv = n.
Hypothesis Dinv_shape1 : shape1 Dinv = n.

(** The value vector: the inverse times the reward vector. *)
Local Abbreviation vv := ((λ r, dot r rv) <$> data Dinv).

Lemma rv_lookup i s :
  states !! i = Some s → ∃ r, rv !! i = Some r ∧ R !! s = Some r.
Proof.
  intros Hs. apply get_reward_vector_spec in Hrv.
  destruct (Forall2_lookup_l _ _ _ i s Hrv Hs) as (r & ? & ?). by exists r.
Qed.

Lemma rv_length : length rv = n.
Proof.
  apply get_reward_vector_spec in Hrv. symmetry.
  by eapply Forall2_length.
Qed.

Lemma vv_length : length vv = n.
Proof. rewrite length_fmap. destruct Dinv_wf as [-> _]. done. Qed.

Lemma value_map_loop_gen (w : list Q) :
  length w = n →
  ∃ vm : gmap string Q,
    for_in (range n) (λ i value_map,
      s ← of_option IndexError (states !! i);
      v ← of_option IndexError (w !! i);
      Ok (<[s := v]> value_map)) ∅ = Ok vm ∧
    (∀ i s, states !! i = Some s → vm !! s = w !! i) ∧
    (∀ s, s ∉ states → vm !! s = None).
Proof.
  intros Hlen.
  edestruct (for_in_inv (λ m (vm : gmap string Q),
      (∀ i s, states !! i = Some s →
         vm !! s = if decide (i < m)%nat then w !! i else None) ∧
      (∀ s, s ∉ states → vm !! s = None))
    (range n)) as (vm & Hvm & Hlook & Hout); last first.
  { exists vm. split; [exact Hvm|]. split; [|done]. intros i s Hs.
    rewrite (Hlook i s Hs), range_length, decide_True; [done|].
    by eapply lookup_lt_Some. }
  - intros m ? vm [<- Hm]%range_lookup_Some [Hvm Hout].
    destruct (lookup_lt_is_Some_2 states m Hm) as [sm Hsm].
    destruct (lookup_lt_is_Some_2 w m) as [v Hv]; [lia|].
    rewrite Hsm, Hv. simpl. eexists; split; [done|]. split.
    + intros i s Hs. destruct (decide (i = m)) as [->|Hne].
      * assert (s = sm) as -> by congruence.
        by rewrite lookup_insert_eq, decide_True by lia.
      * rewrite lookup_insert_ne.
        -- rewrite (Hvm i s Hs). destruct (decide (i < m)%nat).
           ++ by rewrite decide_True by lia.
           ++ by rewrite decide_False by lia.
        -- intros ->. apply Hne. symmetry. by eapply NoDup_lookup.
    + intros s Hs. rewrite lookup_insert_ne; [by apply Hout|].
      intros ->. apply Hs. by eapply list_elem_of_lookup_2.
  - split; [|done]. intros i s _. by rewrite lookup_empty, decide_False by lia.
Qed.

(** What [solve_bellman_equation] returns: the value of the [i]-th state
    is the [i]-th entry of the value vector, and only states have one. *)
Lemma solve_bellman_equation_gen :
  ∃ vm : gmap string Q,
    solve_bellman_equation linalg_inv self = Ok vm ∧
    (∀ i s, states !! i = Some s → vm !! s = vv !! i) ∧
    (∀ s, is_Some (vm !! s) ↔ s ∈ states).
Proof.
  destruct (value_map_loop_gen vv vv_length) as (vm & Hvm & Hlook & Hout).
  exists vm. split_and!; [|done|].
  - unfold solve_bellman_equation.
    destruct (Qeq_bool discount 1) eqn:E; [by apply Qeq_bool_iff in E|].
    rewrite HD. simpl. rewrite HDinv. simpl. rewrite Hrv. simpl.
    unfold matvec. rewrite decide_True by (rewrite rv_length; congruence).
    simpl. exact Hvm.
  - intros s. split.
    + intros Hs. destruct (decide (s ∈ states)); [done|].
      rewrite Hout in Hs by done. by destruct Hs.
    + intros [i Hi]%list_elem_of_lookup_1. rewrite (Hlook i s Hi).
      apply lookup_lt_is_Some_2. rewrite vv_length.
      by eapply lookup_lt_Some.
Qed.

(** The values of the states, listed in the order of [state_set]. *)
Lemma values_in_order (vm : gmap string Q) (w : list Q) :
  length w = n →
  (∀ i s, states !! i = Some s → vm !! s = w !! i) →
  (λ s, default 0 (vm !! s)) <$> states = w.
Proof.
  intros Hlen Hlook. apply list_eq. intros i. rewrite list_lookup_fmap.
  destruct (states !! i) as [s|] eqn:Hs; simpl.
  - rewrite (Hlook i s Hs).
    destruct (lookup_lt_is_Some_2 w i) as [v ->]; [|done].
    rewrite Hlen. by eapply lookup_lt_Some.
  - symmetry. apply lookup_ge_None. apply lookup_ge_None in Hs. lia.
Qed.

Lemma P_row_length i row : data P !! i = Some row → length row = n.
Proof.
  intros Hrow. destruct P_wf as [_ Hrows]. rewrite Forall_forall in Hrows.
  rewrite <- P_shape1. apply Hrows. by eapply list_elem_of_lookup_2.
Qed.

Lemma D_data_gen :
  data D = zip_with vsub (data (identity n)) (data (scale discount P)) ∧
  shape0 D = n ∧ shape1 D = n.
Proof.
  pose proof HD as HD'. unfold sub in HD'.
  destruct (decide (shape0 (identity n) = shape0 (scale discount P) ∧ _))
    as [_|]; [|done].
  injection HD' as HD'. by rewrite <- HD'.
Qed.

Lemma D_row_gen i row :
  data P !! i = Some row →
  data D !! i = Some (vsub (unit_row n i 1) (vscale discount row)).
Proof.
  intros Hrow. destruct D_data_gen as [-> _]. cbn [data identity scale].
  rewrite lookup_zip_with, !list_lookup_fmap, Hrow.
  rewrite range_lookup; [done|].
  apply lookup_lt_Some in Hrow. destruct P_wf as [Hl _]. lia.
Qed.

Lemma D_rows_length : Forall (λ d, length d = n) (data D).
Proof.
  apply Forall_lookup. intros i d Hd. destruct D_data_gen as [E _].
  rewrite E in Hd. cbn [data identity scale] in Hd.
  apply lookup_zip_with_Some in Hd as (u & v & -> & Hu & Hv).
  rewrite list_lookup_fmap in Hu. rewrite list_lookup_fmap in Hv.
  destruct (range n !! i) as [i'|] eqn:Ei; [|done].
  apply range_lookup_Some in Ei as [<- Hi]. injection Hu as <-.
  destruct (data P !! i) as [row|] eqn:Erow; [|done]. injection Hv as <-.
  unfold vsub. rewrite length_zip_with, unit_row_length, vscale_length.
  rewrite (P_row_length i row Erow). lia.
Qed.

(** Row [i] of [I - gamma P] applied to a vector. *)
Lemma D_row_dot i row (w : list Q) :
  data P !! i = Some row →
  dot (vsub (unit_row n i 1) (vscale discount row)) w ==
  default 0 (w !! i) - discount * dot row w.
Proof.
  intros Hrow. pose proof (P_row_length i row Hrow) as Hl.
  assert (i < n)%nat as Hi.
  { apply lookup_lt_Some in Hrow. destruct P_wf as [Hlen _]. lia. }
  rewrite dot_vsub by (by rewrite unit_row_length, vscale_length).
  rewrite dot_unit_row, dot_vscale by done. lra.
Qed.

(** A row of a product that is the identity picks an entry. *)
Lemma identity_row_dot (A B I' : ndarray) i a (w : list Q) :
  matmul A B = Ok I' → rows_eq (data I') (data (identity n)) →
  Forall (λ b, length b = shape1 B) (data B) →
  data A !! i = Some a → (i < n)%nat →
  dot a ((λ b, dot b w) <$> data B) == default 0 (w !! i).
Proof.
  intros HI Heq HB Ha Hi.
  assert (data I' = (λ r, lincomb (shape1 B) r (data B)) <$> data A) as HId.
  { unfold matmul in HI.
    destruct (decide (shape1 A = shape0 B)) as [_|]; [|done].
    injection HI as HI. by rewrite <- HI. }
  unfold rows_eq in Heq. rewrite HId in Heq. cbn [data identity] in Heq.
  rewrite Forall2_lookup in Heq. specialize (Heq i).
  rewrite !list_lookup_fmap, Ha in Heq.
  rewrite range_lookup in Heq by done. simpl in Heq.
  inversion Heq as [? ? Hrow| ]; subst.
  pose proof (dot_proper_l _ _ w Hrow) as Hdot.
  rewrite dot_unit_row in Hdot by done.
  rewrite dot_lincomb in Hdot by done. rewrite Hdot. lra.
Qed.

(** Any vector that satisfies the Bellman equation is the value vector,
    when the inverse is an inverse on the left. *)
Lemma bellman_unique (I' : ndarray) (w : list Q) :
  matmul Dinv D = Ok I' → rows_eq (data I') (data (identity n)) →
  length w = n →
  (∀ i row r, data P !! i = Some row → rv !! i = Some r →
     default 0 (w !! i) == r + discount * dot row w) →
  ∀ i, (i < n)%nat → default 0 (vv !! i) == default 0 (w !! i).
Proof.
  intros HI Heq Hlen Hw i Hi.
  destruct (lookup_lt_is_Some_2 (data Dinv) i) as [a Ha].
  { destruct Dinv_wf as [-> _]. lia. }
  rewrite list_lookup_fmap, Ha. simpl.
  rewrite <- (identity_row_dot Dinv D I' i a w HI Heq); [|..|done|done].
  2:{ destruct D_data_gen as (_ & _ & ->). apply D_rows_length. }
  apply dot_proper_r. apply Forall2_lookup. intros j.
  rewrite list_lookup_fmap.
  destruct (data D !! j) as [d|] eqn:Hd; simpl.
  - assert (j < n)%nat as Hj.
    { apply lookup_lt_Some in Hd. destruct D_data_gen as [E _].
      rewrite E in Hd. cbn [data identity scale] in Hd.
      rewrite length_zip_with, !length_fmap, range_length in Hd. lia. }
    destruct (lookup_lt_is_Some_2 (data P) j) as [row Hrow].
    { destruct P_wf as [-> _]. lia. }
    destruct (lookup_lt_is_Some_2 rv j) as [r Hr]; [by rewrite rv_length|].
    rewrite Hr. constructor.
    rewrite (D_row_gen j row Hrow) in Hd. injection Hd as <-.
    rewrite (D_row_dot j row w Hrow). rewrite (Hw j row r Hrow Hr). lra.
  - rewrite (proj2 (lookup_ge_None rv j)); [constructor|].
    rewrite rv_length. apply lookup_ge_None in Hd.
    destruct D_data_gen as [E _]. rewrite E in Hd.
    cbn [data identity scale] in Hd.
    rewrite length_zip_with, !length_fmap, range_length in Hd.
    destruct P_wf as [Hl _]. lia.
Qed.
End bellman_general.

Close Scope Q_scope.
Import Np LpIrl Mrp.

Local Open Scope Q_scope.

Lemma dot_replicate_r u m x : length u = m → dot u (replicate m x) == x * vsum u.
Proof.
  intros <-. induction u as [|a u IH]; simpl.
  - unfold dot. simpl. lra.
  - rewrite dot_cons, IH. lra.
Qed.

Lemma for_in_raise_only {A B} (l : list A) (body : A → B → result B) acc e0 e :
  (∀ x b e', body x b = Raise e' → e' = e0) →
  for_in l body acc = Raise e → e = e0.
Proof.
  intros Hbody. revert acc. induction l as [|x l IH]; intros acc; simpl.
  - done.
  - destruct (body x acc) as [b|e'] eqn:E; simpl; [by apply IH|].
    intros [= <-]. by eapply Hbody.
Qed.

(** The rewards of the states, in order, when every state has one. *)
Lemma reward_vector_total (self : MarkovRewardProcess) :
  Forall (λ s, is_Some (reward_mapping self !! s)) (state_set self) →
  ∃ rv, get_reward_vector self = Ok rv.
Proof.
  intros H.
  exists ((λ s, default 0 (reward_mapping self !! s)) <$> state_set self).
  apply get_reward_vector_spec. apply Forall2_fmap_r, Forall_Forall2_diag.
  eapply Forall_impl; [exact H|]. intros s [r Hr]. simpl. by rewrite Hr.
Qed.

Section bellman_claims.
Variable linalg_inv : ndarray → result ndarray.
Variable self : MarkovRewardProcess.

Local Abbreviation states := (state_set self).
Local Abbreviation P := (transition_matrix self).
Local Abbreviation R := (reward_mapping self).
Local Abbreviation discount := (discount_factor self).
Local Abbreviation n := (length (state_set self)).

(** [AssertionError] means that the discount factor is one, and nothing
    else, as long as [np.linalg.inv] does not raise it itself: the
    assertion comes before everything else, and no other step raises
    it. *)
Theorem assertion_error_iff_discount_is_1 :
  (∀ a, linalg_inv a ≠ Raise AssertionError) →
  (solve_bellman_equation linalg_inv self = Raise AssertionError ↔
   discount == 1).
Proof.
  intros Hinv. unfold solve_bellman_equation.
  destruct (Qeq_bool discount 1) eqn:E.
  - apply Qeq_bool_iff in E. done.
  - apply Qeq_bool_neq in E. split; [|done]. intros H. exfalso.
    unfold sub in H. destruct (decide _); [|done]. simpl in H.
    destruct (linalg_inv _) as [inv|e] eqn:Einv; simpl in H.
    2:{ injection H as ->. by eapply Hinv. }
    destruct (get_reward_vector self) as [rv|e] eqn:Erv; simpl in H.
    2:{ apply get_reward_vector_spec in Erv as [-> _]. done. }
    unfold matvec in H. destruct (decide _); [|done]. simpl in H.
    apply for_in_raise_only with (e0 := IndexError) in H; [done|].
    intros i vm e'. destruct (states !! i); simpl; [|congruence].
    destruct (_ !! i); simpl; [done|congruence].
Qed.

Hypothesis states_nodup : NoDup states.
Hypothesis P_wf : wf P.
Hypothesis P_shape0 : shape0 P = n.
Hypothesis P_shape1 : shape1 P = n.
Hypothesis discount_ne_1 : ¬ discount == 1.
Hypothesis rewards_total : Forall (λ s, is_Some (R !! s)) states.

Variables (D Dinv : ndarray).
Hypothesis HD : sub (identity n) (scale discount P) = Ok D.
Hypothesis HDinv : linalg_inv D = Ok Dinv.
Hypothesis Dinv_wf : wf Dinv.
Hypothesis Dinv_shape0 : shape0 Dinv = n.
Hypothesis Dinv_shape1 : shape1 Dinv = n.

(** The Bellman equation, for the values returned. *)
Lemma bellman_equation_holds (I' : ndarray) :
  matmul D Dinv = Ok I' → rows_eq (data I') (data (identity n)) →
  ∃ vm : gmap string Q,
    solve_bellman_equation linalg_inv self = Ok vm ∧
    (∀ s, is_Some (vm !! s) ↔ s ∈ states) ∧
    ∀ i s row, states !! i = Some s → data P !! i = Some row →
      ∃ v r, vm !! s = Some v ∧ R !! s = Some r ∧
        v == r + discount *
               dot row ((λ s', default 0 (vm !! s')) <$> states).
Proof.
  intros HI Heq.
  destruct (reward_vector_total self rewards_total) as (rv & Hrv).
  destruct (solve_bellman_equation_gen linalg_inv self states_nodup P_shape0
    P_shape1 discount_ne_1 rv D Dinv Hrv HD HDinv Dinv_wf Dinv_shape0
    Dinv_shape1) as (vm & Hsolve & Hlook & Hdom).
  exists vm. split; [done|]. split; [done|].
  pose proof (vv_length self rv Dinv Dinv_wf Dinv_shape0) as Hvl.
  rewrite (values_in_order self P_shape0 P_shape1 Dinv Dinv_shape0
    Dinv_shape1 vm _ Hvl Hlook).
  intros i s row Hs Hrow.
  assert (i < n)%nat as Hi by (by eapply lookup_lt_Some).
  destruct (lookup_lt_is_Some_2 ((λ r, dot r rv) <$> data Dinv) i)
    as [v Hv]; [by rewrite Hvl|].
  destruct (rv_lookup self rv Hrv i s Hs) as (r & Hr & HR).
  exists v, r. split; [by rewrite (Hlook i s Hs)|]. split; [done|].
  pose proof (D_row_gen self P_wf P_shape0 P_shape1 D Dinv HD Dinv_shape0
    Dinv_shape1 i row Hrow) as HDi.
  assert (Forall (λ b, length b = shape1 Dinv) (data Dinv)) as Hrows
    by (by destruct Dinv_wf).
  pose proof (identity_row_dot self D Dinv I' i _ rv HI Heq Hrows HDi Hi)
    as Hid.
  rewrite Hr in Hid. simpl in Hid.
  rewrite (D_row_dot self P_wf P_shape0 P_shape1 Dinv Dinv_shape0
    Dinv_shape1 i row _ Hrow) in Hid.
  rewrite Hv in Hid. simpl in Hid. lra.
Qed.

(** The values [solve_bellman_equation] returns satisfy the Bellman
    equation, [v(s) = R(s) + gamma * sum_s' P(s, s') v(s')], at every
    state, and exactly the states have a value: for distinct states, an
    [n x n] transition matrix, a reward for every state, a discount
    factor other than one, and when what [np.linalg.inv] returns is an
    inverse of [I - gamma P] on the right. *)
Theorem solve_bellman_equation_satisfies_bellman (I' : ndarray) :
  matmul D Dinv = Ok I' → rows_eq (data I') (data (identity n)) →
  ∃ vm : gmap string Q,
    solve_bellman_equation linalg_inv self = Ok vm ∧
    (∀ s, is_Some (vm !! s) ↔ s ∈ states) ∧
    ∀ i s row, states !! i = Some s → data P !! i = Some row →
      ∃ v r, vm !! s = Some v ∧ R !! s = Some r ∧
        v == r + discount *
               dot row ((λ s', default 0 (vm !! s')) <$> states).
Proof. apply bellman_equation_holds. Qed.

(** The Bellman equation has no other solution: a vector [w] that
    satisfies it at every state is the vector of the returned values, when
    what [np.linalg.inv] returns is an inverse on the left. *)
Theorem bellman_solution_is_unique (I' : ndarray) (w : list Q) :
  matmul Dinv D = Ok I' → rows_eq (data I') (data (identity n)) →
  length w = n →
  (∀ i s row r, states !! i = Some s → data P !! i = Some row →
     R !! s = Some r →
     ∃ wi, w !! i = Some wi ∧ wi == r + discount * dot row w) →
  ∃ vm : gmap string Q,
    solve_bellman_equation linalg_inv self = Ok vm ∧
    ∀ i s, states !! i = Some s →
      ∃ v wi, vm !! s = Some v ∧ w !! i = Some wi ∧ v == wi.
Proof.
  intros HI Heq Hlen Hw.
  destruct (reward_vector_total self rewards_total) as (rv & Hrv).
  destruct (solve_bellman_equation_gen linalg_inv self states_nodup P_shape0
    P_shape1 discount_ne_1 rv D Dinv Hrv HD HDinv Dinv_wf Dinv_shape0
    Dinv_shape1) as (vm & Hsolve & Hlook & Hdom).
  exists vm. split; [done|]. intros i s Hs.
  assert (i < n)%nat as Hi by (by eapply lookup_lt_Some).
  pose proof (vv_length self rv Dinv Dinv_wf Dinv_shape0) as Hvl.
  destruct (lookup_lt_is_Some_2 ((λ r, dot r rv) <$> data Dinv) i)
    as [v Hv]; [by rewrite Hvl|].
  destruct (lookup_lt_is_Some_2 w i) as [wi Hwi]; [by rewrite Hlen|].
  exists v, wi. split; [by rewrite (Hlook i s Hs)|]. split; [done|].
  assert (∀ j row r, data P !! j = Some row → rv !! j = Some r →
    default 0 (w !! j) == r + discount * dot row w) as Hbell.
  { intros j row r Hrow Hr.
    assert (j < n)%nat as Hj.
    { apply lookup_lt_Some in Hrow. destruct P_wf as [Hl _]. lia. }
    destruct (lookup_lt_is_Some_2 states j Hj) as [sj Hsj].
    destruct (rv_lookup self rv Hrv j sj Hsj) as (r' & Hr' & HR).
    assert (r' = r) as -> by congruence.
    destruct (Hw j sj row r Hsj Hrow HR) as (wj & -> & Hwj). done. }
  pose proof (bellman_unique self P_wf P_shape0 P_shape1 rv D Dinv Hrv HD
    Dinv_wf Dinv_shape0 Dinv_shape1 I' w HI Heq Hlen Hbell i Hi) as Hu.
  rewrite Hv, Hwi in Hu. done.
Qed.

(** One reward [c] in every state of a process whose transition rows sum
    to one gives every state the value [c / (1 - gamma)]. *)
Theorem constant_reward_has_constant_value (I' : ndarray) (c : Q) :
  matmul Dinv D = Ok I' → rows_eq (data I') (data (identity n)) →
  Forall (λ row, vsum row == 1) (data P) →
  Forall (λ s, R !! s = Some c) states →
  ∃ vm : gmap string Q,
    solve_bellman_equation linalg_inv self = Ok vm ∧
    ∀ s, s ∈ states → ∃ v, vm !! s = Some v ∧ v == c / (1 - discount).
Proof.
  intros HI Heq Hsum Hc.
  destruct (reward_vector_total self rewards_total) as (rv & Hrv).
  destruct (solve_bellman_equation_gen linalg_inv self states_nodup P_shape0
    P_shape1 discount_ne_1 rv D Dinv Hrv HD HDinv Dinv_wf Dinv_shape0
    Dinv_shape1) as (vm & Hsolve & Hlook & Hdom).
  exists vm. split; [done|]. intros s [i Hs]%list_elem_of_lookup_1.
  assert (i < n)%nat as Hi by (by eapply lookup_lt_Some).
  pose proof (vv_length self rv Dinv Dinv_wf Dinv_shape0) as Hvl.
  destruct (lookup_lt_is_Some_2 ((λ r, dot r rv) <$> data Dinv) i)
    as [v Hv]; [by rewrite Hvl|].
  exists v. split; [by rewrite (Hlook i s Hs)|].
  set (w := replicate n (c / (1 - discount))).
  assert (∀ j row r, data P !! j = Some row → rv !! j = Some r →
    default 0 (w !! j) == r + discount * dot row w) as Hbell.
  { intros j row r Hrow Hr.
    assert (j < n)%nat as Hj.
    { apply lookup_lt_Some in Hrow. destruct P_wf as [Hl _]. lia. }
    destruct (lookup_lt_is_Some_2 states j Hj) as [sj Hsj].
    destruct (rv_lookup self rv Hrv j sj Hsj) as (r' & Hr' & HR).
    assert (r' = r) as -> by congruence.
    rewrite Forall_lookup in Hc. rewrite (Hc j sj Hsj) in HR.
    injection HR as <-. unfold w.
    rewrite lookup_replicate_2 by done. simpl.
    rewrite dot_replicate_r
      by (by apply (P_row_length self P_wf P_shape1 j row)).
    rewrite Forall_lookup in Hsum. rewrite (Hsum j row Hrow).
    field. lra. }
  pose proof (bellman_unique self P_wf P_shape0 P_shape1 rv D Dinv Hrv HD
    Dinv_wf Dinv_shape0 Dinv_shape1 I' w HI Heq (length_replicate _ _)
    Hbell i Hi) as Hu.
  rewrite Hv in Hu. unfold w in Hu.
  rewrite lookup_replicate_2 in Hu by done. done.
Qed.
End bellman_claims.

Close Scope Q_scope.
Import Np LpIrl Mrp.

(** ** The example process *)

Local Open Scope Q_scope.

Lemma inv2_never_asserts a : Demo.inv2 a ≠ Raise AssertionError.
Proof. unfold Demo.inv2. repeat case_match; done. Defined.

Lemma assertion_error_iff_discount_is_1_witness :
  solve_bellman_equation Demo.inv2
    (mk_mrp Demo.S_ Demo.Tp {[ "s0" := 1; "s1" := 3 ]} 1)
    = Raise AssertionError ↔ 1 == 1.
Proof.
  apply (assertion_error_iff_discount_is_1 Demo.inv2
    (mk_mrp Demo.S_ Demo.Tp {[ "s0" := 1; "s1" := 3 ]} 1)
    inv2_never_asserts).
Defined.

Section mrp_demo.
Local Abbreviation states := (state_set MrpDemo.mrp).
Local Abbreviation P := (transition_matrix MrpDemo.mrp).
Local Abbreviation R := (reward_mapping MrpDemo.mrp).
Local Abbreviation discount := (discount_factor MrpDemo.mrp).

Lemma demo_states_nodup : NoDup Demo.S_.
Proof. compute_done. Defined.

Lemma demo_Tp_wf : wf Demo.Tp.
Proof. compute_done. Defined.

Lemma demo_discount_ne_1 : ¬ Demo.gamma == 1.
Proof. by vm_compute. Defined.

Lemma demo_rewards_total (a b : Q) :
  Forall (λ s, is_Some (({[ "s0" := a; "s1" := b ]} : gmap string Q) !! s))
    Demo.S_.
Proof. repeat constructor; by eexists. Defined.

Lemma demo_D : sub (identity 2) (scale Demo.gamma Demo.Tp) = Ok Demo.D.
Proof. by vm_compute. Defined.

Lemma demo_inv : Demo.inv2 Demo.D = Ok Demo.Tinv.
Proof. by vm_compute. Defined.

Lemma demo_right_inverse :
  ∃ I', matmul Demo.D Demo.Tinv = Ok I' ∧
        rows_eq (data I') (data (identity 2)).
Proof.
  eexists. split; [by vm_compute|]. repeat constructor; by vm_compute.
Defined.

Lemma demo_left_inverse :
  ∃ I', matmul Demo.Tinv Demo.D = Ok I' ∧
        rows_eq (data I') (data (identity 2)).
Proof.
  eexists. split; [by vm_compute|]. repeat constructor; by vm_compute.
Defined.

Lemma solve_bellman_equation_satisfies_bellman_witness :
  ∃ vm : gmap string Q,
    solve_bellman_equation Demo.inv2 MrpDemo.mrp = Ok vm ∧
    (∀ s, is_Some (vm !! s) ↔ s ∈ states) ∧
    ∀ i s row, states !! i = Some s → data P !! i = Some row →
      ∃ v r, vm !! s = Some v ∧ R !! s = Some r ∧
        v == r + discount *
               dot row ((λ s', default 0 (vm !! s')) <$> states).
Proof.
  destruct demo_right_inverse as (I' & HI & Heq).
  apply (solve_bellman_equation_satisfies_bellman Demo.inv2 MrpDemo.mrp
    demo_states_nodup demo_Tp_wf eq_refl eq_refl demo_discount_ne_1
    (demo_rewards_total 1 3) Demo.D Demo.Tinv demo_D demo_inv demo_Tinv_wf
    eq_refl eq_refl I' HI Heq).
Defined.

Lemma bellman_solution_is_unique_witness :
  ∃ vm : gmap string Q,
    solve_bellman_equation Demo.inv2 MrpDemo.flat = Ok vm ∧
    ∀ i s, Demo.S_ !! i = Some s →
      ∃ v wi, vm !! s = Some v ∧ [50; 50] !! i = Some wi ∧ v == wi.
Proof.
  destruct demo_left_inverse as (I' & HI & Heq).
  apply (bellman_solution_is_unique Demo.inv2 MrpDemo.flat
    demo_states_nodup demo_Tp_wf eq_refl eq_refl demo_discount_ne_1
    (demo_rewards_total 5 5) Demo.D Demo.Tinv demo_D demo_inv demo_Tinv_wf
    eq_refl eq_refl I' [50; 50] HI Heq eq_refl).
  intros i s row r Hs Hrow HR.
  destruct i as [|[|i]]; [| |done]; simpl in Hs, Hrow;
    injection Hs as <-; injection Hrow as <-;
    vm_compute in HR; injection HR as <-;
    eexists; (split; [done|]); by vm_compute.
Defined.

Lemma constant_reward_has_constant_value_witness :
  ∃ vm : gmap string Q,
    solve_bellman_equation Demo.inv2 MrpDemo.flat = Ok vm ∧
    ∀ s, s ∈ Demo.S_ → ∃ v, vm !! s = Some v ∧ v == 5 / (1 - Demo.gamma).
Proof.
  destruct demo_left_inverse as (I' & HI & Heq).
  apply (constant_reward_has_constant_value Demo.inv2 MrpDemo.flat
    demo_states_nodup demo_Tp_wf eq_refl eq_refl demo_discount_ne_1
    (demo_rewards_total 5 5) Demo.D Demo.Tinv demo_D demo_inv demo_Tinv_wf
    eq_refl eq_refl I' 5 HI Heq).
  - repeat constructor; by vm_compute.
  - repeat constructor.
Defined.
End mrp_demo.

Close Scope Q_scope.
Import Np Mrp.

(** ** Walks of a Markov reward process *)

Module SimFacts.
Import Sim.

Lemma bind_Returns {G A B} (m : M G A) (f : A → M G B) g b g' :
  (m ≫= f) g = (Returns b, g') ↔
  ∃ a g1, m g = (Returns a, g1) ∧ f a g1 = (Returns b, g').
Proof.
  unfold mbind, M_bind. destruct (m g) as [[a| | |] g1]; split;
    try (intros [=]; fail); try (intros (? & ? & [=] & _); fail).
  - intros H. by exists a, g1.
  - intros (a' & g2 & [= <- <-] & H). done.
Qed.

Lemma bind_run {G A B} (m : M G A) (f : A → M G B) g a g1 :
  m g = (Returns a, g1) → (m ≫= f) g = f a g1.
Proof. intros H. unfold mbind, M_bind. by rewrite H. Qed.

Lemma assert_True {G} (b : bool) (g : G) :
  b = true → assert b g = (Returns (), g).
Proof. by intros ->. Qed.

Lemma assert_False {G} (b : bool) (g : G) :
  b = false → assert b g = (Raises AssertionError, g).
Proof. by intros ->. Qed.

Lemma substring_0_all (s : string) (w : nat) :
  String.length s ≤ w → String.substring 0 w s = s.
Proof.
  revert w. induction s as [|c s IH]; intros [|w] Hw; simpl in *;
    try done; try lia.
  f_equal. apply IH. lia.
Qed.

(** Loops whose body returns keep what the body keeps. *)
Lemma for_in_Returns_inv {G A B} (P : nat → B → Prop) (l : list A)
    (body : A → B → M G B) acc g b g' :
  P 0 acc →
  (∀ i x a g1 a' g2, l !! i = Some x → P i a →
     body x a g1 = (Returns a', g2) → P (S i) a') →
  for_in l body acc g = (Returns b, g') → P (length l) b.
Proof.
  revert P acc g. induction l as [|x l IH]; intros P acc g H0 Hbody Hrun.
  - simpl in Hrun. injection Hrun as <- <-. done.
  - simpl in Hrun. apply bind_Returns in Hrun as (a & g1 & Hx & Hrun).
    apply (IH (λ i, P (S i)) a g1); [| |done].
    + by apply (Hbody 0 x acc g a g1).
    + intros i y a0 g2 a' g3 Hy. by apply (Hbody (S i)).
Qed.

Section sim.
Variable G : Type.
Variable super_transition : string → G → result string * G.
Variable random_choice : list string → G → result string * G.
Variable self : MarkovRewardProcess.
Variable terminal_state_set : list string.

Local Abbreviation states := (state_set self).
Local Abbreviation R := (reward_mapping self).
Local Abbreviation discount := (discount_factor self).
Local Abbreviation get_expected_reward := (get_expected_reward self).
Local Abbreviation transition := (transition G super_transition self).
Local Abbreviation fit := (fit self).
Local Abbreviation rollout_loop :=
  (rollout_loop G super_transition self terminal_state_set).
Local Abbreviation rollout :=
  (rollout G super_transition self terminal_state_set).
Local Abbreviation get_return :=
  (get_return G super_transition self terminal_state_set).
Local Abbreviation get_value :=
  (get_value G super_transition self terminal_state_set).

(** A state of the process keeps its name in the history. *)
Lemma fit_state s : s ∈ states → fit s = s.
Proof.
  intros Hs. unfold Sim.fit, width. apply substring_0_all.
  etrans; [|apply Nat.le_max_r]. apply max_list_elem_of_le.
  apply list_elem_of_fmap. by exists s.
Qed.

Lemma transition_eq s g :
  transition s g =
  if decide (s ∈ states) then
    match R !! s with
    | Some r =>
        match super_transition s g with
        | (Ok s', g') => (Returns (r, s'), g')
        | (Raise e, g') => (Raises e, g')
        end
    | None => (Raises AssertionError, g)
    end
  else (Raises AssertionError, g).
Proof.
  unfold Sim.transition, Sim.get_expected_reward.
  destruct (decide (s ∈ states)) as [Hs|Hs].
  - rewrite (bind_run _ _ g () g)
      by (apply assert_True; by apply bool_decide_eq_true).
    destruct (R !! s) as [r0|] eqn:HR.
    + rewrite (bind_run _ _ g r0 g) by done.
      unfold mbind, M_bind, draw.
      by destruct (super_transition s g) as [[s0|e] g0].
    + done.
  - unfold mbind, M_bind.
    by rewrite assert_False by (by apply bool_decide_eq_false).
Qed.

Lemma transition_Returns s g r s' g' :
  transition s g = (Returns (r, s'), g') ↔
  s ∈ states ∧ R !! s = Some r ∧ super_transition s g = (Ok s', g').
Proof.
  rewrite transition_eq. destruct (decide (s ∈ states)) as [Hs|Hs].
  - destruct (R !! s) as [r0|] eqn:HR.
    + destruct (super_transition s g) as [[s0|e] g0]; split.
      * intros [= <- <- <-]. done.
      * intros (_ & [= <-] & [= <- <-]). done.
      * done.
      * intros (_ & _ & [=]).
    + split; [done|]. intros (_ & [=] & _).
  - split; [done|]. intros (? & _). done.
Qed.

Lemma transition_outcome s g :
  (∃ r s' g', transition s g = (Returns (r, s'), g')) ∨
  (∃ e g', transition s g = (Raises e, g')).
Proof.
  rewrite transition_eq. destruct (decide (s ∈ states)) as [Hs|Hs].
  - destruct (R !! s) as [r0|] eqn:HR.
    + destruct (super_transition s g) as [[s0|e] g0].
      * left. by eexists _, _, _.
      * right. by eexists _, _.
    + right. by eexists _, _.
  - right. by eexists _, _.
Qed.

Lemma rollout_loop_unfold fuel max_length curr history :
  rollout_loop fuel max_length curr history =
  if decide (curr ∈ terminal_state_set) then mret history
  else if match max_length with
          | Some m => bool_decide (m ≤ length history)
          | None => false
          end
  then mret history
  else
    match fuel with
    | 0 => unfinished
    | S fuel' =>
        '(reward, new_state) ← transition curr;
        rollout_loop fuel' max_length new_state
          (history ++ [(Some reward, fit new_state)])
    end.
Proof. by destruct fuel. Qed.

(** With [max_length] the loop ends within [max_length] rounds. *)
Lemma rollout_loop_ends fuel m curr history g :
  m ≤ length history + fuel →
  (rollout_loop fuel (Some m) curr history g).1 ≠ Unfinished ∧
  ∀ h, (rollout_loop fuel (Some m) curr history g).1 = Returns h →
    length history ≤ length h ∧ length h ≤ Nat.max (length history) m.
Proof.
  revert curr history g. induction fuel as [|fuel IH];
    intros curr history g Hm; rewrite rollout_loop_unfold.
  - destruct (decide (curr ∈ terminal_state_set)).
    { simpl. split; [done|]. intros h [= <-]. lia. }
    rewrite bool_decide_eq_true_2 by lia.
    simpl. split; [done|]. intros h [= <-]. lia.
  - destruct (decide (curr ∈ terminal_state_set)).
    { simpl. split; [done|]. intros h [= <-]. lia. }
    destruct (bool_decide (m ≤ length history)) eqn:E.
    { simpl. split; [done|]. intros h [= <-]. lia. }
    apply bool_decide_eq_false in E.
    destruct (transition_outcome curr g)
      as [(r & s' & g' & Ht)|(e & g' & Ht)].
    + rewrite (bind_run _ _ g (r, s') g') by done.
      destruct (IH s' (history ++ [(Some r, fit s')]) g') as [H1 H2].
      { rewrite length_app. simpl. lia. }
      split; [done|]. intros h Hh. apply H2 in Hh.
      rewrite length_app in Hh. simpl in Hh. lia.
    + unfold mbind, M_bind. rewrite Ht. simpl. split; [done|]. done.
Qed.

(** Fuel that is not used up changes nothing. *)
Lemma rollout_loop_more_fuel fuel k max_length curr history g :
  (rollout_loop fuel max_length curr history g).1 ≠ Unfinished →
  rollout_loop (fuel + k) max_length curr history g =
  rollout_loop fuel max_length curr history g.
Proof.
  revert curr history g. induction fuel as [|fuel IH];
    intros curr history g; rewrite !rollout_loop_unfold.
  - destruct (decide (curr ∈ terminal_state_set)); [done|].
    destruct (match max_length with Some _ => _ | None => _ end); [done|].
    simpl. done.
  - destruct (decide (curr ∈ terminal_state_set)); [done|].
    destruct (match max_length with Some _ => _ | None => _ end); [done|].
    simpl. unfold mbind, M_bind.
    destruct (transition curr g) as [[[r s']| | |] g']; try done.
    apply IH.
Qed.

Lemma rollout_run fuel s max_length g :
  s ∈ states →
  rollout fuel s max_length g =
  rollout_loop fuel max_length s [(None, s)] g.
Proof.
  intros Hs. unfold Sim.rollout.
  rewrite (bind_run _ _ g () g)
    by (apply assert_True; by apply bool_decide_eq_true).
  by rewrite fit_state.
Qed.

Lemma rollout_assert fuel s max_length g :
  s ∉ states → rollout fuel s max_length g = (Raises AssertionError, g).
Proof.
  intros Hs. unfold Sim.rollout, mbind, M_bind.
  by rewrite assert_False by (by apply bool_decide_eq_false).
Qed.

End sim.
End SimFacts.
Import Np Mrp.

Module SimHistory.
Import Sim SimFacts.

Section history.
Variable G : Type.
Variable super_transition : string → G → result string * G.
Variable self : MarkovRewardProcess.
Variable terminal_state_set : list string.

Local Abbreviation states := (state_set self).
Local Abbreviation R := (reward_mapping self).
Local Abbreviation transition := (transition G super_transition self).
Local Abbreviation fit := (fit self).
Local Abbreviation rollout_loop :=
  (rollout_loop G super_transition self terminal_state_set).
Local Abbreviation rollout :=
  (rollout G super_transition self terminal_state_set).
Local Abbreviation linked := (linked self terminal_state_set).

Lemma linked_snoc pre p0 curr r s' :
  linked (pre ++ [(p0, curr)]) →
  curr ∈ states → curr ∉ terminal_state_set → R !! curr = Some r →
  linked ((pre ++ [(p0, curr)]) ++ [(Some r, s')]).
Proof.
  intros Hl Hc Hnt HR i p s e Hi HSi.
  destruct (decide (S i < length (pre ++ [(p0, curr)]))) as [Hlt|Hge].
  - rewrite lookup_app_l in Hi by lia. rewrite lookup_app_l in HSi by lia.
    by eapply Hl.
  - assert (S i = length (pre ++ [(p0, curr)])) as HS.
    { apply lookup_lt_Some in HSi. rewrite length_app in HSi. simpl in HSi.
      lia. }
    rewrite lookup_app_r in HSi by lia. rewrite HS, Nat.sub_diag in HSi.
    injection HSi as <-.
    rewrite lookup_app_l in Hi by lia.
    rewrite length_app in HS. simpl in HS.
    rewrite lookup_app_r in Hi by lia.
    replace (i - length pre) with 0 in Hi by lia.
    injection Hi as <- <-. split_and!; [done..|]. by exists r.
Qed.

Lemma linked_singleton e : linked [e].
Proof. intros i p s e' Hi HSi. by destruct i. Qed.

(** What the loop of [rollout] returns, from a history that ends in the
    current state. *)
Lemma rollout_loop_spec fuel max_length curr pre p0 g h g' :
  linked (pre ++ [(p0, fit curr)]) →
  rollout_loop fuel max_length curr (pre ++ [(p0, fit curr)]) g
    = (Returns h, g') →
  linked h ∧
  (∃ rest, h = (pre ++ [(p0, fit curr)]) ++ rest ∧
           Forall (λ e, is_Some e.1) rest) ∧
  ∃ p final, last h = Some (p, fit final) ∧
    (final ∈ terminal_state_set ∨
     ∃ m, max_length = Some m ∧ m ≤ length h).
Proof.
  revert curr pre p0 g. induction fuel as [|fuel IH];
    intros curr pre p0 g Hl; rewrite rollout_loop_unfold.
  - destruct (decide (curr ∈ terminal_state_set)) as [Ht|Ht].
    { intros [= <- <-]. split; [done|]. split.
      - exists []. by rewrite app_nil_r.
      - exists p0, curr. rewrite last_snoc. split; [done|]. by left. }
    destruct max_length as [m|]; [|done].
    destruct (bool_decide (m ≤ _)) eqn:E; [|done].
    apply bool_decide_eq_true in E.
    intros [= <- <-]. split; [done|]. split.
    + exists []. by rewrite app_nil_r.
    + exists p0, curr. rewrite last_snoc. split; [done|]. right. by exists m.
  - destruct (decide (curr ∈ terminal_state_set)) as [Ht|Ht].
    { intros [= <- <-]. split; [done|]. split.
      - exists []. by rewrite app_nil_r.
      - exists p0, curr. rewrite last_snoc. split; [done|]. by left. }
    destruct (match max_length with Some m => _ | None => _ end) eqn:E.
    { destruct max_length as [m|]; [|done].
      apply bool_decide_eq_true in E.
      intros [= <- <-]. split; [done|]. split.
      - exists []. by rewrite app_nil_r.
      - exists p0, curr. rewrite last_snoc. split; [done|]. right.
        by exists m. }
    intros Hrun. apply bind_Returns in Hrun as ([r s'] & g1 & Htr & Hrun).
    apply transition_Returns in Htr as (Hc & HR & _).
    rewrite (fit_state self curr Hc) in *.
    destruct (IH s' (pre ++ [(p0, curr)]) (Some r) g1)
      as (Hlh & (rest & -> & Hrest) & Hlast); [|exact Hrun|].
    { by apply linked_snoc. }
    split; [done|]. split; [|done].
    exists ((Some r, fit s') :: rest). split.
    + by rewrite <- !app_assoc.
    + constructor; [by eexists|done].
Qed.

(** What [rollout] returns: the history starts at the given state, with
    no reward; every later entry has a reward, the reward of the state
    before it, which is a state of the process and not terminal; and the
    walk stopped in a terminal state or at [max_length] entries. *)
Lemma rollout_spec fuel s max_length g h g' :
  rollout fuel s max_length g = (Returns h, g') →
  s ∈ states ∧
  (∃ rest, h = (None, s) :: rest ∧ Forall (λ e, is_Some e.1) rest) ∧
  linked h ∧
  ∃ p final, last h = Some (p, fit final) ∧
    (final ∈ terminal_state_set ∨
     ∃ m, max_length = Some m ∧ m ≤ length h).
Proof.
  intros Hrun. destruct (decide (s ∈ states)) as [Hs|Hs].
  2:{ by rewrite rollout_assert in Hrun. }
  rewrite rollout_run in Hrun by done.
  rewrite <- (fit_state self s Hs) in Hrun at 2.
  destruct (rollout_loop_spec fuel max_length s [] None g h g')
    as (Hl & (rest & -> & Hrest) & Hlast).
  - apply linked_singleton.
  - exact Hrun.
  - rewrite (fit_state self s Hs) in *. split; [done|]. split; [|done].
    by exists rest.
Qed.

(** The rewards in a history are those of its states but the last. *)
Lemma rewards_collected_from p s rest :
  linked ((p, s) :: rest) → Forall (λ e : entry, is_Some e.1) rest →
  omap fst rest =
  (λ e : entry, default 0%Q (R !! e.2)) <$> take (length rest) ((p, s) :: rest).
Proof.
  intros Hl Hrest. revert p s Hl.
  induction Hrest as [|[p' s'] rest [r Hr] _ IH]; intros p s Hl.
  - done.
  - simpl in Hr. subst p'. simpl.
    destruct (Hl 0 p s (Some r, s') eq_refl eq_refl)
      as (_ & _ & r' & HR & [= <-]).
    rewrite HR. simpl. f_equal. apply IH.
    intros i p1 s0 e Hi HSi. by apply (Hl (S i) p1 s0 e).
Qed.

Lemma rewards_collected s rest :
  linked ((None, s) :: rest) → Forall (λ e : entry, is_Some e.1) rest →
  omap fst ((None, s) :: rest) = collected self ((None, s) :: rest).
Proof.
  intros Hl Hrest. unfold collected. simpl. rewrite Nat.sub_0_r.
  by apply rewards_collected_from.
Qed.
End history.
End SimHistory.
Import Np Mrp.

Local Open Scope Q_scope.

Lemma Qpower_succ_nat (q : Q) (k : nat) :
  q ^ Z.of_nat (S k) == q * q ^ Z.of_nat k.
Proof.
  rewrite Nat2Z.inj_succ. unfold Z.succ.
  rewrite Qpower_plus' by lia. simpl (q ^ 1). lra.
Qed.

(** A discounted sum of bounded rewards is bounded by the geometric
    series. *)
Lemma weighted_bound (B q : Q) (k : nat) (rs : list Q) :
  0 <= B → 0 <= q → q < 1 →
  Forall (λ r, - B <= r ∧ r <= B) rs →
  - B * q ^ Z.of_nat k <=
    (1 - q) * vsum (imap (λ i r, r * q ^ Z.of_nat (k + i)) rs) ∧
  (1 - q) * vsum (imap (λ i r, r * q ^ Z.of_nat (k + i)) rs) <=
    B * q ^ Z.of_nat k.
Proof.
  intros HB Hq0 Hq1 Hrs. revert k.
  induction Hrs as [|r rs [Hr1 Hr2] _ IH]; intros k.
  - simpl. pose proof (Qpower_0_le q (Z.of_nat k) Hq0). nra.
  - rewrite imap_cons. simpl vsum.
    rewrite (imap_ext _ (λ i r, r * q ^ Z.of_nat (S k + i))).
    2:{ intros i x _. simpl. by rewrite Nat.add_succ_r. }
    destruct (IH (S k)) as [IH1 IH2].
    rewrite Qpower_succ_nat in IH1, IH2. rewrite Nat.add_0_r.
    pose proof (Qpower_0_le q (Z.of_nat k) Hq0) as Hp.
    set (p := q ^ Z.of_nat k) in *.
    set (t := vsum (imap (λ i r, r * q ^ Z.of_nat (S k + i)) rs)) in *.
    assert (0 <= (1 - q) * p) as Hqp by nra.
    assert ((1 - q) * p * r <= (1 - q) * p * B) by nra.
    assert ((1 - q) * p * (- B) <= (1 - q) * p * r) by nra.
    split; nra.
Qed.

Module SimReturn.
Import Sim SimFacts SimHistory.

Section returns.
Variable G : Type.
Variable super_transition : string → G → result string * G.
Variable self : MarkovRewardProcess.
Variable terminal_state_set : list string.

Local Abbreviation states := (state_set self).
Local Abbreviation R := (reward_mapping self).
Local Abbreviation discount := (discount_factor self).
Local Abbreviation transition := (transition G super_transition self).
Local Abbreviation rollout_loop :=
  (rollout_loop G super_transition self terminal_state_set).
Local Abbreviation rollout :=
  (rollout G super_transition self terminal_state_set).
Local Abbreviation get_return :=
  (get_return G super_transition self terminal_state_set).
Local Abbreviation get_value :=
  (get_value G super_transition self terminal_state_set).
Local Abbreviation linked := (linked self terminal_state_set).

Lemma discounted_bound (B : Q) (rs : list Q) :
  0 <= B → 0 <= discount → discount < 1 →
  Forall (λ r, - B <= r ∧ r <= B) rs →
  - B <= (1 - discount) * vsum (discounted self rs) ∧
  (1 - discount) * vsum (discounted self rs) <= B.
Proof.
  intros HB H0 H1 Hrs.
  destruct (weighted_bound B discount 0 rs HB H0 H1 Hrs) as [Ha Hb].
  simpl in Ha, Hb. unfold discounted. lra.
Qed.

Lemma collected_bound (B : Q) (h : list entry) :
  0 <= B →
  (∀ s r, R !! s = Some r → - B <= r ∧ r <= B) →
  Forall (λ r, - B <= r ∧ r <= B) (collected self h).
Proof.
  intros HB HR. unfold collected. apply Forall_fmap, Forall_forall.
  intros [p s] _. simpl. destruct (R !! s) as [r|] eqn:E; simpl.
  - by apply (HR s).
  - lra.
Qed.

(** [get_return] in one piece. *)
Lemma get_return_eq fuel s max_length g :
  get_return fuel s max_length g =
  match rollout fuel s max_length g with
  | (Returns h, g') => (Returns (vsum (discounted self (omap fst h))), g')
  | (Raises e, g') => (Raises e, g')
  | (RaisesZeroDivisionError, g') => (RaisesZeroDivisionError, g')
  | (Unfinished, g') => (Unfinished, g')
  end.
Proof.
  unfold Sim.get_return. destruct (decide (s ∈ states)) as [Hs|Hs].
  - rewrite (bind_run _ _ g () g)
      by (apply assert_True; by apply bool_decide_eq_true).
    unfold mbind, M_bind.
    by destruct (rollout fuel s max_length g) as [[h| | |] g'].
  - rewrite rollout_assert by done. unfold mbind, M_bind.
    by rewrite assert_False by (by apply bool_decide_eq_false).
Qed.

Lemma get_return_Returns fuel s max_length g v g' :
  get_return fuel s max_length g = (Returns v, g') →
  ∃ h, rollout fuel s max_length g = (Returns h, g') ∧
       v = vsum (discounted self (collected self h)).
Proof.
  rewrite get_return_eq.
  destruct (rollout fuel s max_length g) as [[h| | |] g1] eqn:E; try done.
  intros [= <- <-]. exists h. split; [done|].
  destruct (rollout_spec G super_transition self terminal_state_set
    fuel s max_length g h g1 E) as (_ & (rest & -> & Hrest) & Hl & _).
  by rewrite (rewards_collected self terminal_state_set s rest Hl Hrest).
Qed.

Lemma rollout_loop_no_zero_division fuel max_length curr history g :
  (rollout_loop fuel max_length curr history g).1
    ≠ RaisesZeroDivisionError.
Proof.
  revert curr history g. induction fuel as [|fuel IH];
    intros curr history g; rewrite rollout_loop_unfold.
  - destruct (decide _); [done|].
    destruct (match max_length with Some _ => _ | None => _ end); done.
  - destruct (decide _); [done|].
    destruct (match max_length with Some _ => _ | None => _ end); [done|].
    destruct (transition_outcome G super_transition self curr g)
      as [(r & s' & g' & Ht)|(e & g' & Ht)].
    + rewrite (bind_run _ _ g (r, s') g') by done. apply IH.
    + unfold mbind, M_bind. by rewrite Ht.
Qed.

Lemma get_return_no_zero_division fuel s max_length g :
  (get_return fuel s max_length g).1 ≠ RaisesZeroDivisionError.
Proof.
  rewrite get_return_eq.
  destruct (rollout fuel s max_length g) as [[h| | |] g'] eqn:E; try done.
  destruct (decide (s ∈ states)) as [Hs|Hs].
  - rewrite rollout_run in E by done.
    pose proof (rollout_loop_no_zero_division fuel max_length s
      [(None, s)] g) as H. by rewrite E in H.
  - by rewrite rollout_assert in E.
Qed.

(** The loop of [get_value]. *)
Local Abbreviation sum_returns fuel s max_length n :=
  (for_in (range n) (λ (_ : nat) (value : Q),
     r ← get_return fuel s max_length; mret (value + r)) 0).

Lemma sum_returns_no_zero_division fuel s max_length (l : list nat) acc g :
  (for_in l (λ (_ : nat) (value : Q),
     r ← get_return fuel s max_length; mret (value + r)) acc g).1
    ≠ RaisesZeroDivisionError.
Proof.
  revert acc g. induction l as [|x l IH]; intros acc g; [done|].
  simpl. unfold mbind at 1, M_bind at 1. unfold mbind at 1, M_bind at 1.
  pose proof (get_return_no_zero_division fuel s max_length g) as H.
  destruct (get_return fuel s max_length g) as [[r| | |] g']; try done.
  apply IH.
Qed.

Lemma sum_returns_bound (B : Q) fuel s max_length n g total g' :
  0 <= B → 0 <= discount → discount < 1 →
  (∀ s r, R !! s = Some r → - B <= r ∧ r <= B) →
  sum_returns fuel s max_length n g = (Returns total, g') →
  - (inject_Z (Z.of_nat n) * B) <= (1 - discount) * total ∧
  (1 - discount) * total <= inject_Z (Z.of_nat n) * B.
Proof.
  intros HB H0 H1 HR Hrun.
  pose proof (for_in_Returns_inv
    (λ i (acc : Q),
       - (inject_Z (Z.of_nat i) * B) <= (1 - discount) * acc ∧
       (1 - discount) * acc <= inject_Z (Z.of_nat i) * B)
    (range n)
    (λ (_ : nat) (value : Q),
       r ← get_return fuel s max_length; mret (value + r))
    0 g total g') as Hinv.
  rewrite range_length in Hinv. apply Hinv; [|clear Hinv|done].
  { change (inject_Z (Z.of_nat 0)) with 0. split; lra. }
  intros i x a g1 a' g2 _ [Ha1 Ha2] Hbody.
  apply bind_Returns in Hbody as (r & g3 & Hr & [= <- <-]).
  apply get_return_Returns in Hr as (h & _ & ->).
  destruct (discounted_bound B (collected self h) HB H0 H1
    (collected_bound B h HB HR)) as [Hd1 Hd2].
  rewrite Nat2Z.inj_succ. unfold Z.succ. rewrite inject_Z_plus.
  change (inject_Z 1) with 1. split; lra.
Qed.
End returns.
End SimReturn.

Close Scope Q_scope.
Import Np Mrp.

(** ** What the walking methods guarantee *)

Local Open Scope Q_scope.

Section walks.
Import Sim SimFacts SimHistory SimReturn.
Variable G : Type.
Variable super_transition : string → G → result string * G.
Variable self : MarkovRewardProcess.
Variable terminal_state_set : list string.

Local Abbreviation states := (state_set self).
Local Abbreviation R := (reward_mapping self).
Local Abbreviation discount := (discount_factor self).
Local Abbreviation get_expected_reward := (Sim.get_expected_reward self).
Local Abbreviation transition := (Sim.transition G super_transition self).
Local Abbreviation fit := (Sim.fit self).
Local Abbreviation rollout :=
  (Sim.rollout G super_transition self terminal_state_set).
Local Abbreviation get_return :=
  (Sim.get_return G super_transition self terminal_state_set).
Local Abbreviation get_value :=
  (Sim.get_value G super_transition self terminal_state_set).
Local Abbreviation linked := (Sim.linked self terminal_state_set).

(** The history [rollout] returns starts at the given state, which is a
    state of the process, with no reward; every later entry has a reward,
    the reward of the state before it, which is a state of the process
    and not terminal; and the walk stopped in a terminal state or at
    [max_length] entries. *)
Theorem rollout_history (fuel : nat) (s : string) (max_length : option nat)
    (g g' : G) (h : list entry) :
  rollout fuel s max_length g = (Returns h, g') →
  s ∈ states ∧
  (∃ rest, h = (None, s) :: rest ∧ Forall (λ e, is_Some e.1) rest) ∧
  linked h ∧
  ∃ p final, last h = Some (p, fit final) ∧
    (final ∈ terminal_state_set ∨
     ∃ m, max_length = Some m ∧ (m ≤ length h)%nat).
Proof. apply rollout_spec. Qed.

(** With [max_length = m] a walk ends: [m] rounds of the loop are enough
    whatever the parent process does, more fuel changes nothing, and the
    history has at least one and at most [max 1 m] entries. *)
Theorem rollout_with_max_length_ends (fuel m : nat) (s : string) (g : G) :
  (m ≤ S fuel)%nat →
  (rollout fuel s (Some m) g).1 ≠ Unfinished ∧
  (∀ h, (rollout fuel s (Some m) g).1 = Returns h →
     (1 ≤ length h)%nat ∧ (length h ≤ Nat.max 1 m)%nat) ∧
  ∀ k, rollout (fuel + k) s (Some m) g = rollout fuel s (Some m) g.
Proof.
  intros Hm. destruct (decide (s ∈ states)) as [Hs|Hs].
  - rewrite rollout_run by done.
    destruct (rollout_loop_ends G super_transition self terminal_state_set
      fuel m s [(None, s)] g) as [H1 H2]; [simpl; lia|].
    split; [done|]. split; [exact H2|].
    intros k. rewrite !rollout_run by done.
    by apply rollout_loop_more_fuel.
  - rewrite rollout_assert by done. split; [done|]. split; [done|].
    intros k. by rewrite rollout_assert.
Qed.

(** The return of a walk is the discounted sum of the rewards of the
    states of its history but the last: the state the walk stops in is
    never paid for. *)
Theorem get_return_is_the_discounted_sum (fuel : nat) (s : string)
    (max_length : option nat) (g g' : G) (v : Q) :
  get_return fuel s max_length g = (Returns v, g') →
  ∃ h, rollout fuel s max_length g = (Returns h, g') ∧
       v = vsum (discounted self (collected self h)).
Proof. apply get_return_Returns. Qed.

(** With rewards between [-B] and [B] and a discount factor in [[0, 1)]
    every return lies between [-B / (1 - gamma)] and [B / (1 - gamma)],
    however long the walk. *)
Theorem get_return_is_bounded (B : Q) (fuel : nat) (s : string)
    (max_length : option nat) (g g' : G) (v : Q) :
  0 <= B → 0 <= discount → discount < 1 →
  (∀ s r, R !! s = Some r → - B <= r ∧ r <= B) →
  get_return fuel s max_length g = (Returns v, g') →
  - B <= (1 - discount) * v ∧ (1 - discount) * v <= B.
Proof.
  intros HB H0 H1 HR Hrun.
  apply get_return_Returns in Hrun as (h & _ & ->).
  apply discounted_bound; [done..|]. by apply collected_bound.
Qed.

(** From a terminal state, and with [max_length] zero or one, there is no
    step: the return is [0] and the random generator is not used. *)
Theorem get_return_is_zero_without_a_step (fuel : nat) (s : string)
    (max_length : option nat) (g : G) :
  s ∈ states →
  s ∈ terminal_state_set ∨ max_length = Some 0%nat ∨
    max_length = Some 1%nat →
  get_return fuel s max_length g = (Returns 0, g).
Proof.
  intros Hs Hstop. rewrite get_return_eq, rollout_run by done.
  rewrite rollout_loop_unfold.
  destruct (decide (s ∈ terminal_state_set)) as [Ht|Ht]; [done|].
  destruct Hstop as [? | [-> | ->]]; done.
Qed.

(** Every method checks its state first: a state that is not in
    [state_set] raises [AssertionError] without touching the random
    generator, and so does, in [get_expected_reward] and [transition], a
    state without a reward: an assertion, not the [KeyError] of the
    dictionary. *)
Theorem assertions_guard_the_methods (s : string) :
  s ∉ states ∨ R !! s = None →
  get_expected_reward s = Raise AssertionError ∧
  (∀ g, transition s g = (Raises AssertionError, g)) ∧
  (s ∉ states → ∀ fuel max_length num_rollouts g,
     rollout fuel s max_length g = (Raises AssertionError, g) ∧
     get_return fuel s max_length g = (Raises AssertionError, g) ∧
     get_value fuel s num_rollouts max_length g
       = (Raises AssertionError, g)).
Proof.
  intros Hs. split_and!.
  - unfold Sim.get_expected_reward. destruct (decide (s ∈ states)); [|done].
    destruct Hs as [? | ->]; done.
  - intros g. rewrite transition_eq. destruct (decide (s ∈ states)); [|done].
    destruct Hs as [? | ->]; done.
  - intros Hn fuel max_length num_rollouts g. split_and!.
    + by apply rollout_assert.
    + by rewrite get_return_eq, rollout_assert.
    + unfold Sim.get_value, mbind, M_bind.
      by rewrite assert_False by (by apply bool_decide_eq_false).
Qed.

Lemma get_value_eq fuel s n max_length g :
  s ∈ states →
  get_value fuel s n max_length g =
  match for_in (range n) (λ (_ : nat) (value : Q),
          r ← get_return fuel s max_length; mret (value + r)) 0 g with
  | (Returns total, g') =>
      if decide (n = 0%nat) then (RaisesZeroDivisionError, g')
      else (Returns (total / inject_Z (Z.of_nat n)), g')
  | (Raises e, g') => (Raises e, g')
  | (RaisesZeroDivisionError, g') => (RaisesZeroDivisionError, g')
  | (Unfinished, g') => (Unfinished, g')
  end.
Proof.
  intros Hs. unfold Sim.get_value.
  rewrite (bind_run _ _ g () g)
    by (apply assert_True; by apply bool_decide_eq_true).
  unfold mbind at 1, M_bind at 1.
  destruct (for_in _ _ _ g) as [[total| | |] g1]; try done.
  by destruct (decide (n = 0%nat)).
Qed.

(** [get_value] divides by the number of rollouts: for a state of the
    process it raises [ZeroDivisionError] exactly when that number is
    zero. *)
Theorem get_value_zero_division_iff (fuel : nat) (s : string)
    (num_rollouts : nat) (max_length : option nat) (g : G) :
  s ∈ states →
  (get_value fuel s num_rollouts max_length g).1 = RaisesZeroDivisionError
  ↔ num_rollouts = 0%nat.
Proof.
  intros Hs. rewrite get_value_eq by done. split.
  - intros H. destruct (decide (num_rollouts = 0%nat)) as [|Hn]; [done|].
    exfalso.
    pose proof (sum_returns_no_zero_division G super_transition self
      terminal_state_set fuel s max_length (range num_rollouts) 0 g) as Hz.
    destruct (for_in _ _ _ g) as [[total| | |] g1]; done.
  - intros ->. done.
Qed.

(** The value estimate is an average of returns, and bounded as they
    are. *)
Theorem get_value_is_bounded (B : Q) (fuel : nat) (s : string)
    (num_rollouts : nat) (max_length : option nat) (g g' : G) (v : Q) :
  0 <= B → 0 <= discount → discount < 1 →
  (∀ s r, R !! s = Some r → - B <= r ∧ r <= B) →
  get_value fuel s num_rollouts max_length g = (Returns v, g') →
  - B <= (1 - discount) * v ∧ (1 - discount) * v <= B.
Proof.
  intros HB H0 H1 HR Hrun.
  destruct (decide (s ∈ states)) as [Hs|Hs].
  2:{ unfold Sim.get_value, mbind, M_bind in Hrun.
      by rewrite assert_False in Hrun by (by apply bool_decide_eq_false). }
  rewrite get_value_eq in Hrun by done.
  destruct (for_in _ _ _ g) as [[total| | |] g1] eqn:E; try done.
  destruct (decide (num_rollouts = 0%nat)) as [|Hn]; [done|].
  injection Hrun as <- <-.
  destruct (sum_returns_bound G super_transition self terminal_state_set B
    fuel s max_length num_rollouts g total g1 HB H0 H1 HR E) as [Ha Hb].
  assert (0 < inject_Z (Z.of_nat num_rollouts)) as Hpos.
  { change 0 with (inject_Z 0). rewrite <- Zlt_Qlt. lia. }
  set (c := inject_Z (Z.of_nat num_rollouts)) in *.
  assert ((1 - discount) * (total / c) == ((1 - discount) * total) / c)
    as -> by (field; lra).
  split.
  - apply Qle_shift_div_l; [done|]. lra.
  - apply Qle_shift_div_r; [done|]. lra.
Qed.
End walks.

Close Scope Q_scope.
Import Np Mrp.

Local Open Scope Q_scope.

Section walks_demo.
Import Sim.
Local Abbreviation step := MrpDemo.other_state.
Local Abbreviation mrp := MrpDemo.mrp.

Lemma demo_rewards_bounded s r :
  reward_mapping mrp !! s = Some r → - 3 <= r ∧ r <= 3.
Proof.
  unfold mrp, MrpDemo.mrp. simpl. intros H.
  apply lookup_insert_Some in H as [[_ <-]|[_ H]]; [by vm_compute|].
  apply lookup_singleton_Some in H as [_ <-]. by vm_compute.
Defined.

Lemma rollout_history_witness :
  ∃ h,
    "s0" ∈ state_set mrp ∧
    (∃ rest, h = (None, "s0") :: rest ∧ Forall (λ e, is_Some e.1) rest) ∧
    linked mrp ["s1"] h ∧
    ∃ p final, last h = Some (p, fit mrp final) ∧
      (final ∈ ["s1"] ∨ ∃ m, Some 3%nat = Some m ∧ (m ≤ length h)%nat).
Proof.
  eexists.
  eapply (rollout_history nat step mrp ["s1"] 5 "s0" (Some 3%nat) 0%nat).
  reflexivity.
Defined.

Lemma rollout_with_max_length_ends_witness :
  (rollout nat step mrp [] 2 "s0" (Some 3%nat) 0%nat).1 ≠ Unfinished ∧
  (∀ h, (rollout nat step mrp [] 2 "s0" (Some 3%nat) 0%nat).1 = Returns h →
     (1 ≤ length h)%nat ∧ (length h ≤ Nat.max 1 3)%nat) ∧
  ∀ k, rollout nat step mrp [] (2 + k) "s0" (Some 3%nat) 0%nat
       = rollout nat step mrp [] 2 "s0" (Some 3%nat) 0%nat.
Proof.
  apply (rollout_with_max_length_ends nat step mrp [] 2 3 "s0" 0%nat). lia.
Defined.

Lemma get_return_is_the_discounted_sum_witness :
  ∃ v h g',
    rollout nat step mrp [] 2 "s0" (Some 3%nat) 0%nat = (Returns h, g') ∧
    v = vsum (discounted mrp (collected mrp h)).
Proof.
  eexists.
  destruct (get_return_is_the_discounted_sum nat step mrp [] 2 "s0"
    (Some 3%nat) 0%nat 2%nat _ eq_refl) as (h & Hh & Hv).
  exists h, 2%nat. split; [exact Hh|exact Hv].
Defined.

Lemma get_return_is_bounded_witness :
  ∃ v, get_return nat step mrp [] 2 "s0" (Some 3%nat) 0%nat
         = (Returns v, 2%nat) ∧
       - 3 <= (1 - discount_factor mrp) * v ∧
       (1 - discount_factor mrp) * v <= 3.
Proof.
  eexists. split; [reflexivity|].
  apply (get_return_is_bounded nat step mrp [] 3 2 "s0" (Some 3%nat)
    0%nat 2%nat); try (by vm_compute).
  apply demo_rewards_bounded.
Defined.

Lemma get_return_is_zero_without_a_step_witness :
  get_return nat step mrp ["s0"] 5 "s0" None 7%nat = (Returns 0, 7%nat).
Proof.
  apply (get_return_is_zero_without_a_step nat step mrp ["s0"] 5 "s0" None
    7%nat).
  - unfold mrp, MrpDemo.mrp, Demo.S_. simpl. set_solver.
  - left. set_solver.
Defined.

Lemma assertions_guard_the_methods_witness :
  get_expected_reward mrp "s7" = Raise AssertionError ∧
  (∀ g, transition nat step mrp "s7" g = (Raises AssertionError, g)) ∧
  ("s7" ∉ state_set mrp → ∀ fuel max_length num_rollouts g,
     rollout nat step mrp [] fuel "s7" max_length g
       = (Raises AssertionError, g) ∧
     get_return nat step mrp [] fuel "s7" max_length g
       = (Raises AssertionError, g) ∧
     get_value nat step mrp [] fuel "s7" num_rollouts max_length g
       = (Raises AssertionError, g)).
Proof.
  apply (assertions_guard_the_methods nat step mrp [] "s7").
  right. reflexivity.
Defined.

Lemma get_value_zero_division_iff_witness :
  (get_value nat step mrp [] 5 "s0" 0 (Some 3%nat) 0%nat).1
    = RaisesZeroDivisionError ↔ 0%nat = 0%nat.
Proof.
  apply (get_value_zero_division_iff nat step mrp [] 5 "s0" 0 (Some 3%nat)
    0%nat).
  unfold mrp, MrpDemo.mrp, Demo.S_. simpl. set_solver.
Defined.

Lemma get_value_is_bounded_witness :
  ∃ v g', get_value nat step mrp [] 2 "s0" 2 (Some 3%nat) 0%nat
            = (Returns v, g') ∧
          - 3 <= (1 - discount_factor mrp) * v ∧
          (1 - discount_factor mrp) * v <= 3.
Proof.
  eexists _, _. split; [reflexivity|].
  eapply (get_value_is_bounded nat step mrp [] 3 2 "s0" 2 (Some 3%nat)
    0%nat); try (by vm_compute).
  apply demo_rewards_bounded.
Defined.
End walks_demo.

Close Scope Q_scope.
Import Np Mrp.

(** ** The estimate of the stationary distribution *)

Module SimCounts.
Import Sim SimFacts.

Lemma dict_get_set d key w v :
  dict_get d key = Ok w →
  sum_list (snd <$> dict_set d key v) + w = sum_list (snd <$> d) + v ∧
  fst <$> dict_set d key v = fst <$> d.
Proof.
  induction d as [|[k x] d IH]; simpl; [done|].
  destruct (decide (k = key)) as [->|Hne].
  - intros [= ->]. csimpl. split; [lia|done].
  - intros H. destruct (IH H) as [IH1 IH2]. csimpl. split; [lia|].
    by rewrite IH2.
Qed.

Lemma dict_incr_spec d key d' :
  dict_incr d key = Ok d' →
  sum_list (snd <$> d') = S (sum_list (snd <$> d)) ∧
  fst <$> d' = fst <$> d.
Proof.
  unfold dict_incr. destruct (dict_get d key) as [w|] eqn:E; [|done].
  simpl. intros [= <-].
  destruct (dict_get_set d key w (w + 1) E) as [H1 H2]. split; [lia|done].
Qed.

Lemma dict_set_zero d key :
  Forall (λ kv : string * nat, kv.2 = 0) d →
  Forall (λ kv : string * nat, kv.2 = 0) (dict_set d key 0).
Proof.
  induction 1 as [|[k x] d Hx Hd IH]; simpl.
  - by repeat constructor.
  - destruct (decide (k = key)); constructor; done.
Qed.

Lemma dict_set_new d key v :
  key ∉ fst <$> d → dict_set d key v = d ++ [(key, v)].
Proof.
  induction d as [|[k x] d IH]; simpl; [done|].
  intros Hk. apply not_elem_of_cons in Hk as [Hne Hk].
  rewrite decide_False by done. by rewrite IH.
Qed.

Lemma dict_set_not_nil d key v : dict_set d key v ≠ [].
Proof. destruct d as [|[k x] d]; simpl; [done|]. by destruct (decide _). Qed.

(** The dictionary of counts at the start: every state once, at zero. *)
Lemma dict_init (l : list string) (d : dict) :
  Forall (λ kv : string * nat, kv.2 = 0) d →
  Forall (λ kv : string * nat, kv.2 = 0)
    (foldl (λ d state, dict_set d state 0) d l) ∧
  (l ≠ [] → foldl (λ d state, dict_set d state 0) d l ≠ []) ∧
  (NoDup l → (∀ s, s ∈ l → s ∉ fst <$> d) →
   fst <$> foldl (λ d state, dict_set d state 0) d l = (fst <$> d) ++ l).
Proof.
  revert d. induction l as [|s l IH]; intros d Hd; simpl.
  - split; [done|]. split; [done|]. intros _ _. by rewrite app_nil_r.
  - destruct (IH (dict_set d s 0) (dict_set_zero d s Hd)) as (H1 & H2 & H3).
    split; [done|]. split.
    + intros _. destruct l as [|s' l]; [apply dict_set_not_nil|].
      by apply H2.
    + intros Hnd Hfresh. apply NoDup_cons in Hnd as [Hs Hnd].
      assert (s ∉ fst <$> d) as Hsd by (apply Hfresh; by left).
      rewrite H3; [|done|].
      * rewrite dict_set_new by done. rewrite fmap_app. simpl.
        by rewrite <- app_assoc.
      * intros s' Hs'. rewrite dict_set_new by done. rewrite fmap_app.
        simpl. rewrite elem_of_app. intros [Hin|Hin].
        -- revert Hin. apply Hfresh. by right.
        -- apply list_elem_of_singleton in Hin as ->. done.
Qed.

Lemma sum_zero (d : dict) :
  Forall (λ kv : string * nat, kv.2 = 0) d → sum_list (snd <$> d) = 0.
Proof. induction 1 as [|[k x] d Hx _ IH]; csimpl in *; [done|lia]. Qed.

Local Open Scope Q_scope.

Lemma vsum_counts (d : dict) (t : nat) :
  vsum ((λ kv : string * nat,
           inject_Z (Z.of_nat kv.2) / inject_Z (Z.of_nat t)) <$> d) ==
  inject_Z (Z.of_nat (sum_list (snd <$> d))) / inject_Z (Z.of_nat t).
Proof.
  unfold Qdiv. set (c := / inject_Z (Z.of_nat t)).
  induction d as [|[k x] d IH]; csimpl.
  - change (0 == 0 * c). lra.
  - rewrite IH, Nat2Z.inj_add, inject_Z_plus. lra.
Qed.

Lemma count_le_sum (d : dict) kv :
  kv ∈ d → (kv.2 ≤ sum_list (snd <$> d))%nat.
Proof.
  induction d as [|[k x] d IH]; csimpl; [by intros ?%elem_of_nil|].
  intros [->|Hin]%elem_of_cons; simpl; [lia|]. specialize (IH Hin). lia.
Qed.
End SimCounts.

Local Open Scope Q_scope.

Section stationary.
Import Sim SimFacts SimCounts.
Variable G : Type.
Variable super_transition : string → G → result string * G.
Variable random_choice : list string → G → result string * G.
Variable self : MarkovRewardProcess.
Variable terminal_state_set : list string.

Local Abbreviation states := (state_set self).
Local Abbreviation rollout :=
  (Sim.rollout G super_transition self terminal_state_set).

Lemma lift_Returns {A} (r : result A) (g g' : G) a :
  lift r g = (Returns a, g') → r = Ok a.
Proof. unfold lift. destruct r; simpl; congruence. Qed.

(** Counting the states of one history. *)
Lemma count_history (h : list entry) (d d' : dict) (g g' : G) :
  for_in h (λ '(_, visited_sate) state_counts,
    lift (dict_incr state_counts visited_sate)) d g = (Returns d', g') →
  sum_list (snd <$> d') = (sum_list (snd <$> d) + length h)%nat ∧
  fst <$> d' = fst <$> d.
Proof.
  intros Hrun.
  pose proof (for_in_Returns_inv
    (λ i (c : dict),
       sum_list (snd <$> c) = (sum_list (snd <$> d) + i)%nat ∧
       fst <$> c = fst <$> d)
    h (λ '(_, visited_sate) state_counts,
         lift (dict_incr state_counts visited_sate)) d g d' g') as Hinv.
  apply Hinv; [split; [lia|done]| |done].
  intros i [p s] c g1 c' g2 _ [Hsum Hkeys] Hbody.
  apply lift_Returns in Hbody. apply dict_incr_spec in Hbody as [H1 H2].
  split; [lia|congruence].
Qed.

(** The last loop: the counts divided by their total. *)
Lemma divide_counts (d : dict) (total : nat) (acc dist : list Q) (g g' : G) :
  for_in d (λ '(_, count) stationary_distribution,
    if decide (total = 0%nat) then zero_division_error
    else mret (stationary_distribution ++
                 [inject_Z (Z.of_nat count) / inject_Z (Z.of_nat total)]))
    acc g = (Returns dist, g') →
  dist = acc ++ ((λ kv : string * nat,
                    inject_Z (Z.of_nat kv.2) / inject_Z (Z.of_nat total))
                 <$> d) ∧
  (d ≠ [] → total ≠ 0%nat).
Proof.
  revert acc g. induction d as [|[k c] d IH]; intros acc g; simpl.
  - intros [= <- <-]. by rewrite app_nil_r.
  - intros Hrun. apply bind_Returns in Hrun as (a & g1 & Hstep & Hrun).
    destruct (decide (total = 0%nat)) as [|Hne]; [done|].
    injection Hstep as <- <-.
    destruct (IH _ _ Hrun) as [-> _]. split; [|done].
    by rewrite <- app_assoc.
Qed.

(** The estimate [compute_stationary_distribution] returns is a
    probability distribution: when there is a state, its entries lie in
    [[0, 1]] and sum to one; and it has an entry for every state when the
    states are distinct. *)
Theorem stationary_distribution_sums_to_one (fuel num_rollouts : nat)
    (max_length : option nat) (g g' : G) (dist : list Q) :
  states ≠ [] →
  compute_stationary_distribution G super_transition random_choice self
    terminal_state_set fuel num_rollouts max_length g = (Returns dist, g') →
  vsum dist == 1 ∧
  Forall (λ p, 0 <= p ∧ p <= 1) dist ∧
  (NoDup states → length dist = length states).
Proof.
  intros Hne Hrun. unfold compute_stationary_distribution in Hrun.
  set (d0 := foldl (λ d state, dict_set d state 0) [] states) in *.
  apply bind_Returns in Hrun as ([d total] & g1 & Houter & Hfinal).
  destruct (dict_init states [] (Forall_nil_2 _)) as (Hzero & Hnn & Hkeys).
  fold d0 in Hzero, Hnn, Hkeys.
  assert (sum_list (snd <$> d) = total ∧ fst <$> d = fst <$> d0) as [Hsum Hk].
  { eapply (for_in_Returns_inv
      (λ (_ : nat) (c : dict * nat),
         sum_list (snd <$> c.1) = c.2 ∧ fst <$> c.1 = fst <$> d0))
      in Houter; [exact Houter|by split; [apply sum_zero|]|].
    intros i x [c t] g2 [c' t'] g3 _ [Hs Hks] Hbody.
    cbn [fst snd] in Hs, Hks.
    apply bind_Returns in Hbody as (start & g4 & _ & Hbody).
    apply bind_Returns in Hbody as (h & g5 & _ & Hbody).
    apply bind_Returns in Hbody as (c1 & g6 & Hcount & Hret).
    injection Hret as <- <- <-.
    apply count_history in Hcount as [H1 H2]. cbn [fst snd].
    split; [by rewrite H1, Hs|by rewrite H2]. }
  apply divide_counts in Hfinal as [-> Htot]. simpl.
  assert (d ≠ []) as Hd.
  { intros ->. apply (Hnn Hne). destruct d0; [done|]. done. }
  specialize (Htot Hd).
  assert (0 < inject_Z (Z.of_nat total)) as Hpos.
  { change 0 with (inject_Z 0). rewrite <- Zlt_Qlt. lia. }
  split_and!.
  - rewrite vsum_counts, Hsum. field. lra.
  - apply Forall_fmap, Forall_forall. intros kv Hkv. simpl.
    pose proof (count_le_sum d kv Hkv) as Hle. rewrite Hsum in Hle.
    split.
    + apply Qle_shift_div_l; [done|]. rewrite Qmult_0_l.
      change 0 with (inject_Z 0). rewrite <- Zle_Qle. lia.
    + apply Qle_shift_div_r; [done|]. rewrite Qmult_1_l.
      rewrite <- Zle_Qle. lia.
  - intros Hnd. rewrite length_fmap.
    rewrite <- (length_fmap fst d), Hk, Hkeys; [done|done|].
    intros s _. by apply not_elem_of_nil.
Qed.
End stationary.

Lemma stationary_distribution_sums_to_one_witness :
  ∃ dist g',
    Sim.compute_stationary_distribution nat MrpDemo.other_state
      MrpDemo.first_choice MrpDemo.mrp [] 2 3 (Some 2%nat) 0%nat
      = (Sim.Returns dist, g') ∧
    vsum dist == 1 ∧
    Forall (λ p, 0 <= p ∧ p <= 1) dist ∧
    (NoDup (state_set MrpDemo.mrp) →
     length dist = length (state_set MrpDemo.mrp)).
Proof.
  eexists _, _. split; [reflexivity|].
  eapply (stationary_distribution_sums_to_one nat MrpDemo.other_state
    MrpDemo.first_choice MrpDemo.mrp [] 2 3 (Some 2%nat) 0%nat).
  - done.
  - reflexivity.
Defined.

Close Scope Q_scope.
Import Np LpIrl Mrp.

(** ** A matrix that cannot be inverted *)

Section singular.
Variable linalg_inv : ndarray → result ndarray.
Variable linprog : list Q → ndarray → list Q → OptimizeResult.
Variable uninit : nat → nat → Q.
Variables (S_ A_ : list string) (T : ndarray) (gamma : Q).
Variable pi : gmap string string.
Variables (l1 Rmax : Q).

Local Abbreviation n := (n S_).

(** For well-formed inputs the two kinds of table are always built, and
    [I - gamma * Tpi] with them; what [np.linalg.inv] raises on it, a
    [LinAlgError] for a singular matrix, is what [lp_irl] raises: the
    solver is not called. *)
Theorem inverse_error_is_raised :
  well_formed S_ A_ T pi →
  ∃ Tp D,
    Tpi S_ A_ T pi = Ok Tp ∧
    sub (identity n) (scale gamma Tp) = Ok D ∧
    ∀ e, linalg_inv D = Raise e →
      lp_irl linalg_inv linprog uninit S_ A_ T gamma pi l1 Rmax = Raise e.
Proof.
  intros Hwf.
  destruct (Tpi_spec S_ A_ T pi Hwf) as (Tp & HTp & Hp0 & Hp1 & _).
  destruct (Tnotpi_spec S_ A_ T pi Hwf) as (Tn & HTn & _).
  exists Tp. eexists. split; [done|]. split.
  - unfold sub. rewrite decide_True; [done|]. simpl. by rewrite Hp0, Hp1.
  - intros e He. unfold lp_irl, assemble. rewrite HTp, HTn.
    cbn [mbind result_bind]. unfold T_disc_inv, sub.
    rewrite decide_True by (simpl; by rewrite Hp0, Hp1).
    cbn [mbind result_bind]. by rewrite He.
Qed.
End singular.

Lemma inverse_error_is_raised_witness :
  ∃ Tp D,
    Tpi Demo.S_ Demo.A_ Demo.T Demo.pi = Ok Tp ∧
    sub (identity 2) (scale 1 Tp) = Ok D ∧
    ∀ e, Demo.inv2 D = Raise e →
      lp_irl Demo.inv2 Demo.exact_solver Demo.zero_mem Demo.S_ Demo.A_
        Demo.T 1 Demo.pi Demo.l1 Demo.Rmax = Raise e.
Proof.
  apply (inverse_error_is_raised Demo.inv2 Demo.exact_solver Demo.zero_mem
    Demo.S_ Demo.A_ Demo.T 1 Demo.pi Demo.l1 Demo.Rmax demo_well_formed).
Defined.

(** With the discount factor one the matrix of the example is singular,
    and the call ends in [LinAlgError]. *)
Lemma demo_singular :
  lp_irl Demo.inv2 Demo.exact_solver Demo.zero_mem Demo.S_ Demo.A_
    Demo.T 1 Demo.pi Demo.l1 Demo.Rmax = Raise LinAlgError.
Proof. by vm_compute. Qed.

(** ** The map of value estimates *)

Local Open Scope Q_scope.

Section value_map.
Import Sim SimFacts SimReturn.
Variable G : Type.
Variable super_transition : string → G → result string * G.
Variable self : MarkovRewardProcess.
Variable terminal_state_set : list string.

Local Abbreviation states := (state_set self).
Local Abbreviation R := (reward_mapping self).
Local Abbreviation discount := (discount_factor self).
Local Abbreviation get_value :=
  (Sim.get_value G super_transition self terminal_state_set).
Local Abbreviation get_value_map :=
  (Sim.get_value_map G super_transition self terminal_state_set).

(** [get_value_map] returns an estimate for every state and for nothing
    else, each within the bounds of the returns. *)
Theorem get_value_map_covers_the_states (B : Q) (fuel num_rollouts : nat)
    (max_length : option nat) (g g' : G) (vm : gmap string Q) :
  0 <= B → 0 <= discount → discount < 1 →
  (∀ s r, R !! s = Some r → - B <= r ∧ r <= B) →
  get_value_map fuel num_rollouts max_length g = (Returns vm, g') →
  (∀ s, is_Some (vm !! s) ↔ s ∈ states) ∧
  ∀ s v, vm !! s = Some v →
    - B <= (1 - discount) * v ∧ (1 - discount) * v <= B.
Proof.
  intros HB H0 H1 HR Hrun. unfold Sim.get_value_map in Hrun.
  eapply (for_in_Returns_inv
    (λ i (m : gmap string Q),
       (∀ s, is_Some (m !! s) ↔ s ∈ take i states) ∧
       ∀ s v, m !! s = Some v →
         - B <= (1 - discount) * v ∧ (1 - discount) * v <= B))
    in Hrun.
  - rewrite firstn_all in Hrun. exact Hrun.
  - split.
    + intros s. rewrite lookup_empty, take_0. split.
      * by intros [? ?].
      * by intros ?%elem_of_nil.
    + intros s v. by rewrite lookup_empty.
  - intros i x m g1 m' g2 Hx [Hdom Hval] Hbody.
    apply bind_Returns in Hbody as (v & g3 & Hv & [= <- <-]).
    split.
    + intros s. rewrite (take_S_r _ _ x Hx), elem_of_app.
      rewrite list_elem_of_singleton.
      destruct (decide (s = x)) as [->|Hne].
      * rewrite lookup_insert_eq. split; [by right|by eexists].
      * rewrite lookup_insert_ne by done. rewrite Hdom. split; [by left|].
        by intros [?|?].
    + intros s w. destruct (decide (s = x)) as [->|Hne].
      * rewrite lookup_insert_eq. intros [= <-].
        by eapply (get_value_is_bounded G super_transition self
          terminal_state_set B fuel x num_rollouts max_length g1 g3 v).
      * rewrite lookup_insert_ne by done. apply Hval.
Qed.
End value_map.

Lemma get_value_map_covers_the_states_witness :
  ∃ vm g',
    Sim.get_value_map nat MrpDemo.other_state MrpDemo.mrp [] 2 2
      (Some 3%nat) 0%nat = (Sim.Returns vm, g') ∧
    (∀ s, is_Some (vm !! s) ↔ s ∈ state_set MrpDemo.mrp) ∧
    ∀ s v, vm !! s = Some v →
      - 3 <= (1 - discount_factor MrpDemo.mrp) * v ∧
      (1 - discount_factor MrpDemo.mrp) * v <= 3.
Proof.
  eexists _, _. split; [reflexivity|].
  eapply (get_value_map_covers_the_states nat MrpDemo.other_state
    MrpDemo.mrp [] 3 2 2 (Some 3%nat) 0%nat); try (by vm_compute).
  apply demo_rewards_bounded.
Defined.

Close Scope Q_scope.
Import Np LpIrl Mrp.

(** ** Bounds on the exact values *)

Local Open Scope Q_scope.

Lemma dot_le_max (row vals : list Q) (M : Q) :
  length row = length vals →
  Forall (λ p, 0 <= p) row → Forall (λ v, v <= M) vals →
  dot row vals <= M * vsum row.
Proof.
  intros Hlen Hrow. revert vals Hlen.
  induction Hrow as [|p row Hp _ IH]; intros [|v vals] Hlen Hv;
    simpl in Hlen; try done.
  - unfold dot. simpl. lra.
  - apply Forall_cons in Hv as [Hv Hvs]. rewrite dot_cons. simpl vsum.
    specialize (IH vals ltac:(lia) Hvs). nra.
Qed.

Lemma dot_ge_min (row vals : list Q) (m : Q) :
  length row = length vals →
  Forall (λ p, 0 <= p) row → Forall (λ v, m <= v) vals →
  m * vsum row <= dot row vals.
Proof.
  intros Hlen Hrow. revert vals Hlen.
  induction Hrow as [|p row Hp _ IH]; intros [|v vals] Hlen Hv;
    simpl in Hlen; try done.
  - unfold dot. simpl. lra.
  - apply Forall_cons in Hv as [Hv Hvs]. rewrite dot_cons. simpl vsum.
    specialize (IH vals ltac:(lia) Hvs). nra.
Qed.

Section value_bounds.
Variable linalg_inv : ndarray → result ndarray.
Variable self : MarkovRewardProcess.

Local Abbreviation states := (state_set self).
Local Abbreviation P := (transition_matrix self).
Local Abbreviation R := (reward_mapping self).
Local Abbreviation discount := (discount_factor self).
Local Abbreviation n := (length (state_set self)).

Hypothesis states_nodup : NoDup states.
Hypothesis P_wf : wf P.
Hypothesis P_shape0 : shape0 P = n.
Hypothesis P_shape1 : shape1 P = n.
Hypothesis P_stochastic : stochastic P.
Hypothesis discount_nonneg : 0 <= discount.
Hypothesis discount_lt_1 : discount < 1.

Variables (D Dinv I' : ndarray).
Hypothesis HD : sub (identity n) (scale discount P) = Ok D.
Hypothesis HDinv : linalg_inv D = Ok Dinv.
Hypothesis Dinv_wf : wf Dinv.
Hypothesis Dinv_shape0 : shape0 Dinv = n.
Hypothesis Dinv_shape1 : shape1 Dinv = n.
Hypothesis HI : matmul D Dinv = Ok I'.
Hypothesis Hinverse : rows_eq (data I') (data (identity n)).

(** With rewards between [-B] and [B], a row-stochastic transition matrix
    and a discount factor in [[0, 1)], the values [solve_bellman_equation]
    returns lie between [-B / (1 - gamma)] and [B / (1 - gamma)], as the
    sampled returns do. *)
Theorem bellman_values_are_bounded (B : Q) :
  Forall (λ s, ∃ r, R !! s = Some r ∧ - B <= r ∧ r <= B) states →
  ∃ vm : gmap string Q,
    solve_bellman_equation linalg_inv self = Ok vm ∧
    ∀ s v, vm !! s = Some v →
      - B <= (1 - discount) * v ∧ (1 - discount) * v <= B.
Proof.
  intros HR.
  assert (Forall (λ s, is_Some (R !! s)) states) as Htotal.
  { eapply Forall_impl; [exact HR|]. intros s (r & -> & _). by eexists. }
  assert (¬ discount == 1) as Hne by lra.
  destruct (bellman_equation_holds linalg_inv self states_nodup P_wf P_shape0
    P_shape1 Hne Htotal D Dinv HD HDinv Dinv_wf Dinv_shape0 Dinv_shape1
    I' HI Hinverse) as (vm & Hsolve & Hdom & Hbell).
  exists vm. split; [done|].
  set (vals := (λ s', default 0 (vm !! s')) <$> states) in *.
  assert (length vals = n) as Hvl by (unfold vals; by rewrite length_fmap).
  (* the value at a position of the list, with its Bellman equation *)
  assert (∀ i v, vals !! i = Some v →
    ∃ s row r, states !! i = Some s ∧ vm !! s = Some v ∧
      data P !! i = Some row ∧ length row = n ∧
      Forall (λ p, 0 <= p) row ∧ vsum row == 1 ∧
      - B <= r ∧ r <= B ∧ v == r + discount * dot row vals) as Hat.
  { intros i v Hv. unfold vals in Hv. rewrite list_lookup_fmap in Hv.
    destruct (states !! i) as [s|] eqn:Hs; [|done]. simpl in Hv.
    assert (i < n)%nat as Hi by (by eapply lookup_lt_Some).
    destruct (lookup_lt_is_Some_2 (data P) i) as [row Hrow].
    { destruct P_wf as [-> _]. lia. }
    destruct (Hbell i s row Hs Hrow) as (v' & r & Hv' & Hr & Heq).
    rewrite Hv' in Hv. simpl in Hv. injection Hv as <-.
    exists s, row, r. split_and!; try done.
    - by apply (P_row_length self P_wf P_shape1 i).
    - unfold stochastic in P_stochastic.
      rewrite Forall_lookup in P_stochastic.
      destruct (P_stochastic i row Hrow) as [Hent _].
      eapply Forall_impl; [exact Hent|]. by intros p [? _].
    - unfold stochastic in P_stochastic.
      rewrite Forall_lookup in P_stochastic.
      by destruct (P_stochastic i row Hrow) as [_ Hsum].
    - rewrite Forall_lookup in HR.
      destruct (HR i s Hs) as (r' & Hr' & ? & _).
      assert (r' = r) as -> by congruence. done.
    - rewrite Forall_lookup in HR.
      destruct (HR i s Hs) as (r' & Hr' & _ & ?).
      assert (r' = r) as -> by congruence. done. }
  intros s v Hsv.
  assert (s ∈ states) as Hs by (apply Hdom; by eexists).
  apply list_elem_of_lookup_1 in Hs as (i & Hi).
  assert (vals !! i = Some v) as Hvi.
  { unfold vals. by rewrite list_lookup_fmap, Hi; simpl; rewrite Hsv. }
  destruct (min_max_Ok vals) as (mn & mx & Hmn & Hmx).
  { intros E. by rewrite E in Hvi. }
  destruct (min_spec vals mn Hmn) as [Hmn_in Hmn_le].
  destruct (max_spec vals mx Hmx) as [Hmx_in Hmx_ge].
  apply list_elem_of_lookup_1 in Hmn_in as (a & Ha).
  apply list_elem_of_lookup_1 in Hmx_in as (b & Hb).
  destruct (Hat a mn Ha)
    as (sa & rowa & ra & _ & _ & _ & Hla & Hpa & Hsa & Hra1 & _ & Hea).
  destruct (Hat b mx Hb)
    as (sb & rowb & rb & _ & _ & _ & Hlb & Hpb & Hsb & _ & Hrb2 & Heb).
  pose proof (dot_ge_min rowa vals mn ltac:(congruence) Hpa Hmn_le) as Hlo.
  pose proof (dot_le_max rowb vals mx ltac:(congruence) Hpb Hmx_ge) as Hhi.
  rewrite Hsa in Hlo. rewrite Hsb in Hhi.
  rewrite Forall_lookup in Hmn_le, Hmx_ge.
  pose proof (Hmn_le i v Hvi) as Hv1. pose proof (Hmx_ge i v Hvi) as Hv2.
  simpl in Hv1, Hv2.
  assert ((1 - discount) * mx <= B) by nra.
  assert (- B <= (1 - discount) * mn) by nra.
  split; nra.
Qed.
End value_bounds.

Lemma demo_Tp_stochastic : stochastic Demo.Tp.
Proof.
  repeat constructor; try (by vm_compute); simpl;
    intros H; by vm_compute in H.
Defined.

Lemma bellman_values_are_bounded_witness :
  ∃ vm : gmap string Q,
    solve_bellman_equation Demo.inv2 MrpDemo.mrp = Ok vm ∧
    ∀ s v, vm !! s = Some v →
      - 3 <= (1 - Demo.gamma) * v ∧ (1 - Demo.gamma) * v <= 3.
Proof.
  destruct demo_right_inverse as (I' & HI & Heq).
  apply (bellman_values_are_bounded Demo.inv2 MrpDemo.mrp
    demo_states_nodup demo_Tp_wf eq_refl eq_refl demo_Tp_stochastic
    ltac:(by vm_compute) ltac:(by vm_compute)
    Demo.D Demo.Tinv I' demo_D demo_inv demo_Tinv_wf eq_refl eq_refl
    HI Heq 3).
  repeat constructor; eexists; (split; [reflexivity|]); by vm_compute.
Defined.

Close Scope Q_scope.
Import Np LpIrl Mrp RoundTrip.

(** ** A policy that only constant rewards keep optimal *)

Local Open Scope Q_scope.

Section stay.
Local Abbreviation linalg_inv := Demo.inv2.
Local Abbreviation S_ := Stay.S_.
Local Abbreviation A_ := Stay.A_.
Local Abbreviation T := Stay.T.
Local Abbreviation gamma := Stay.gamma.
Local Abbreviation pi := Stay.pi.
Local Abbreviation l1 := Stay.l1.
Local Abbreviation Rmax := Stay.Rmax.
Local Abbreviation Tp := Stay.Tp.
Local Abbreviation Tn := Stay.Tn.
Local Abbreviation Tinv := Stay.Tinv.

Lemma stay_well_formed : well_formed S_ A_ T pi.
Proof.
  split_and!; try compute_done.
  repeat constructor; eexists; (split; [by vm_compute|set_solver]).
Qed.

Lemma stay_valid : valid S_ A_ T gamma pi l1 Rmax.
Proof.
  split; [exact stay_well_formed|]. split.
  - repeat constructor; by vm_compute.
  - split_and!; by vm_compute.
Qed.

Lemma stay_Tpi : Tpi S_ A_ T pi = Ok Tp.
Proof. vm_compute. reflexivity. Qed.

Lemma stay_Tnotpi : Tnotpi S_ A_ T pi = Ok Tn.
Proof. vm_compute. reflexivity. Qed.

Lemma stay_T_disc_inv : T_disc_inv linalg_inv S_ gamma Tp = Ok Tinv.
Proof. vm_compute. reflexivity. Qed.

Lemma stay_Tinv_wf : wf Tinv.
Proof. compute_done. Qed.

(** The values of the two actions in the two states under a reward
    [[r0, r1]]: staying is worth [r + 9 r], moving [r + 9 r'] with [r']
    the reward of the other state. *)
Lemma stay_action_values (r0 r1 : Q) :
  ∃ (vm : gmap string Q) (q0b q0o q1b q1o : Q),
    solve_bellman_equation linalg_inv (policy_mrp S_ gamma Tp [r0; r1])
      = Ok vm ∧
    action_value S_ A_ T gamma (reward_map S_ [r0; r1]) vm "s0" "b" = Ok q0b ∧
    action_value S_ A_ T gamma (reward_map S_ [r0; r1]) vm "s0" "o" = Ok q0o ∧
    action_value S_ A_ T gamma (reward_map S_ [r0; r1]) vm "s1" "b" = Ok q1b ∧
    action_value S_ A_ T gamma (reward_map S_ [r0; r1]) vm "s1" "o" = Ok q1o ∧
    q0b == r0 + 9 * r0 ∧ q0o == r0 + 9 * r1 ∧
    q1b == r1 + 9 * r1 ∧ q1o == r1 + 9 * r0.
Proof.
  destruct (solve_bellman_equation_eq linalg_inv S_ A_ T gamma pi
    stay_well_formed Tp Stay.D Tinv [r0; r1]) as (vm & Hvm & Hlook);
    [by vm_compute|done|by vm_compute|done|done|exact stay_Tinv_wf|done|].
  set (vv := (λ r, dot r [r0; r1]) <$> data Tinv) in *.
  destruct (action_value_eq S_ A_ T gamma pi stay_well_formed [r0; r1] vv vm
    0 "s0" "b" 0 r0 [1; 0]) as (q0b & H0b & E0b); try done.
  destruct (action_value_eq S_ A_ T gamma pi stay_well_formed [r0; r1] vv vm
    0 "s0" "o" 1 r0 [0; 1]) as (q0o & H0o & E0o); try done.
  destruct (action_value_eq S_ A_ T gamma pi stay_well_formed [r0; r1] vv vm
    1 "s1" "b" 0 r1 [0; 1]) as (q1b & H1b & E1b); try done.
  destruct (action_value_eq S_ A_ T gamma pi stay_well_formed [r0; r1] vv vm
    1 "s1" "o" 1 r1 [1; 0]) as (q1o & H1o & E1o); try done.
  exists vm, q0b, q0o, q1b, q1o. split_and!; try done.
  - rewrite E0b. unfold vv, dot, Stay.gamma. simpl. field.
  - rewrite E0o. unfold vv, dot, Stay.gamma. simpl. field.
  - rewrite E1b. unfold vv, dot, Stay.gamma. simpl. field.
  - rewrite E1o. unfold vv, dot, Stay.gamma. simpl. field.
Qed.

Lemma stay_policy (s p : string) : s ∈ S_ → pi !! s = Some p → p = "b".
Proof.
  intros Hs Hp. unfold Stay.S_ in Hs.
  apply elem_of_cons in Hs as [->|Hs];
    [|apply elem_of_cons in Hs as [->|Hs]; [|by apply elem_of_nil in Hs]];
    vm_compute in Hp; congruence.
Qed.

(** A constant reward keeps the policy optimal. *)
Lemma stay_constant_is_optimal (c : Q) :
  policy_optimal linalg_inv S_ A_ T gamma pi [c; c].
Proof.
  destruct (stay_action_values c c)
    as (vm & q0b & q0o & q1b & q1o & Hvm & H0b & H0o & H1b & H1o &
        E0b & E0o & E1b & E1o).
  exists Tp, vm. split; [exact stay_Tpi|]. split; [done|].
  intros s a Hs Ha. unfold Stay.S_ in Hs. unfold Stay.A_ in Ha.
  apply elem_of_cons in Hs as [->|Hs];
    [|apply elem_of_cons in Hs as [->|Hs]; [|by apply elem_of_nil in Hs]];
    (apply elem_of_cons in Ha as [->|Ha];
      [|apply elem_of_cons in Ha as [->|Ha]; [|by apply elem_of_nil in Ha]]).
  - exists "b", q0b, q0b. split_and!; [by vm_compute|done|done|lra].
  - exists "b", q0b, q0o. split_and!; [by vm_compute|done|done|lra].
  - exists "b", q1b, q1b. split_and!; [by vm_compute|done|done|lra].
  - exists "b", q1b, q1o. split_and!; [by vm_compute|done|done|lra].
Qed.

(** And no other reward does: in each state moving must not be worth more
    than staying, so neither state's reward may exceed the other's. *)
Lemma stay_optimal_only_constant (r0 r1 : Q) :
  policy_optimal linalg_inv S_ A_ T gamma pi [r0; r1] → r0 == r1.
Proof.
  intros (Tp' & vm' & HTp' & Hsolve & Hall).
  destruct (stay_action_values r0 r1)
    as (vm & q0b & q0o & q1b & q1o & Hvm & H0b & H0o & H1b & H1o &
        E0b & E0o & E1b & E1o).
  rewrite stay_Tpi in HTp'. injection HTp' as <-.
  rewrite Hvm in Hsolve. injection Hsolve as <-.
  destruct (Hall "s0" "o") as (p & qp & qa & Hp & Hqp & Hqa & Hle);
    [set_solver..|].
  apply stay_policy in Hp as ->; [|set_solver].
  destruct (Hall "s1" "o") as (p & qp' & qa' & Hp & Hqp' & Hqa' & Hle');
    [set_solver..|].
  apply stay_policy in Hp as ->; [|set_solver].
  assert (qp = q0b) as -> by congruence.
  assert (qa = q0o) as -> by congruence.
  assert (qp' = q1b) as -> by congruence.
  assert (qa' = q1o) as -> by congruence.
  lra.
Qed.

(** Min-max normalisation of two numbers gives [nan, nan], [0, Rmax] or
    [Rmax, 0], never two equal numbers: whatever the point the rewards
    are taken from, the policy is not optimal for them. *)
Lemma stay_extract (x : list Q) :
  match extract S_ Rmax x with
  | Ok rewards =>
      ¬ rewards_make_policy_optimal linalg_inv S_ A_ T gamma pi rewards
  | Raise e => e = ValueError
  end.
Proof.
  unfold extract. change (n S_) with 2%nat.
  destruct x as [|a [|b rest]].
  - done.
  - change (take 2 [a]) with [a].
    rewrite (normalize_degenerate [a]) by done. simpl.
    intros (reward & Hrew & _). by destruct reward.
  - change (take 2 (a :: b :: rest)) with [a; b].
    destruct (all_equal [a; b]) eqn:Heq.
    + rewrite (normalize_degenerate [a; b]) by done. simpl.
      intros (reward & Hrew & _). by destruct reward.
    + destruct (min_max_Ok [a; b]) as (mn & mx & Hmn & Hmx); [done|].
      pose proof (all_equal_false [a; b] mn mx Heq Hmn Hmx) as Hlt.
      rewrite (normalize_nondegenerate [a; b] mn mx) by done.
      cbn [mbind result_bind fmap list_fmap xscale].
      intros (reward & Hrew & Hopt).
      destruct reward as [|r0 [|r1 [|]]]; try done.
      injection Hrew as <- <-.
      apply stay_optimal_only_constant in Hopt.
      simpl in Heq. rewrite andb_true_r in Heq.
      apply Qeq_bool_neq in Heq. apply Heq.
      assert (0 < / (mx - mn)) as Hinv by (apply Qinv_lt_0_compat; lra).
      unfold Qdiv, Stay.Rmax in Hopt. set (d := / (mx - mn)) in *.
      assert ((a - b) * d == 0) as Hz by lra.
      apply Qmult_integral in Hz as [Hz|Hz]; lra.
Qed.
End stay.

(** C1 (code bug). The docstring of [lp_irl] and the claim promise a reward
    for which the policy is optimal, for every valid input. On the valid
    input [Stay]: two states, action [b] stays, action [o] moves to the
    other state, the policy stays in both; the promise can be kept, every
    constant reward keeps the policy optimal; and [lp_irl] does not keep
    it, whatever [linprog] answers and whatever [np.empty] found in
    memory: it raises [ValueError] (an empty point) or returns rewards for
    which the policy is not optimal, [[nan, nan]] or the two different
    numbers [0] and [Rmax] that min-max normalisation makes of two. *)
Theorem lp_irl_round_trip_fails_for_the_staying_policy :
  valid Stay.S_ Stay.A_ Stay.T Stay.gamma Stay.pi Stay.l1 Stay.Rmax ∧
  (∀ c : Q,
     rewards_make_policy_optimal Demo.inv2 Stay.S_ Stay.A_ Stay.T Stay.gamma
       Stay.pi [Fin c; Fin c]) ∧
  ∀ (linprog : list Q → ndarray → list Q → OptimizeResult)
    (uninit : nat → nat → Q),
    match lp_irl Demo.inv2 linprog uninit Stay.S_ Stay.A_ Stay.T Stay.gamma
            Stay.pi Stay.l1 Stay.Rmax with
    | Ok (rewards, _) =>
        ¬ rewards_make_policy_optimal Demo.inv2 Stay.S_ Stay.A_ Stay.T
            Stay.gamma Stay.pi rewards
    | Raise e => e = ValueError
    end.
Proof.
  split; [exact stay_valid|]. split.
  - intros c. exists [c; c]. split; [done|]. apply stay_constant_is_optimal.
  - intros linprog uninit.
    destruct (blocks_exist Stay.S_ Stay.A_ Stay.T Stay.pi stay_well_formed
      Stay.Tp Stay.Tn Stay.Tinv stay_Tpi stay_Tnotpi eq_refl eq_refl
      stay_Tinv_wf) as (block & Hblock).
    rewrite (lp_irl_eq Demo.inv2 linprog uninit Stay.S_ Stay.A_ Stay.T
      Stay.gamma Stay.pi Stay.l1 Stay.Rmax Stay.Tp Stay.Tn Stay.Tinv
      stay_Tpi stay_Tnotpi stay_T_disc_inv eq_refl eq_refl block Hblock).
    cbn zeta. set (res := linprog _ _ _).
    pose proof (stay_extract (res_x res)) as H.
    destruct (extract Stay.S_ Stay.Rmax (res_x res)); simpl; done.
Qed.

Close Scope Q_scope.
